(** * golb: a client-side load balancer (round-robin, health-aware, load-aware)

    Shallow embedding of the Go packages [golb] and [golb/selector].

    Conventions of the embedding
    - Go's fixed-width integers are [Z] with the wrap-around written out
      ([uint32], [int32], [int64]); [int] is the 64-bit [int64].
    - A [*BackendImpl] is a handle: the position of the backend in the
      balancer's [backends] slice, whose elements are the shared store all
      pointers refer to.  Two handles are the same pointer iff they are the
      same position.
    - [time.Time] is a number of nanoseconds on one time line whose origin is
      Go's zero [time.Time]; the clock is an input of every operation that
      reads it, and is read once per operation.
    - The HTTP exchange is the external collaborator; what it answered is the
      [Outcome] input of [BackendImpl_Invoke].
    - A mutex-protected section is one atomic function; operations of
      different goroutines interleave between those functions. *)

From Stdlib Require Import ZArith Structures.OrderedTypeEx.
From stdpp Require Import base tactics option list numbers strings.

Local Open Scope Z_scope.

(** ** Machine integers *)

Definition uint32 (x : Z) : Z := x mod 2 ^ 32.
Definition int32 (x : Z) : Z := (x + 2 ^ 31) mod 2 ^ 32 - 2 ^ 31.
Definition int64 (x : Z) : Z := (x + 2 ^ 63) mod 2 ^ 64 - 2 ^ 63.

(** [atomic.AddUint32(&c, d)] stores and returns the wrapped sum;
    [atomic.AddInt64] likewise. *)
Definition atomic_AddUint32 (c d : Z) : Z := uint32 (c + d).
Definition atomic_AddInt64 (c d : Z) : Z := int64 (c + d).

(** ** Time *)

Definition Time := Z.
Definition Duration := Z.

Definition Second : Duration := 1000000000.
Definition minDuration : Duration := - 2 ^ 63.
Definition maxDuration : Duration := 2 ^ 63 - 1.

(** [Time.Sub] saturates at the ends of the [Duration] range. *)
Definition Time_Sub (t u : Time) : Duration :=
  if t - u <? minDuration then minDuration
  else if maxDuration <? t - u then maxDuration
  else t - u.

(** [time.Since(t)] with the clock reading [now]. *)
Definition time_Since (now t : Time) : Duration := Time_Sub now t.

(** ** Constants of package golb *)

Definition maxFailureCount : Z := 3.
Definition coolDown : Duration := 2 * Second.
Definition StatusOK : Z := 200.
Definition StatusMultipleChoices : Z := 300.

(** ** Errors and results *)

Inductive error : Type :=
| ErrBackendServersEmpty
    (* errors.New("backend server list is empty") *)
| ErrNoAvailableBackends
    (* errors.New("no available backends") *)
| ErrCreateRequest (cause : string)
    (* "failed to create request: %w" *)
| ErrBackendFailed (a : string) (cause : string)
    (* "backend %s failed: %w" *)
| ErrBackendStatus (a : string) (code : Z)
    (* "backend %s returned status %d" *)
| ErrAdvancedFailed (cause : error).
    (* "[advanced.backend.Invoke]: failed request: %w" *)

Definition error_message (e : error) : option string :=
  match e with
  | ErrBackendServersEmpty => Some "backend server list is empty"%string
  | ErrNoAvailableBackends => Some "no available backends"%string
  | _ => None
  end.

Definition Response := string.

(** The pair [(Response, error)] of a Go return. *)
Inductive result : Type :=
| Ok (resp : Response)
| Err (e : error)
| Panic.   (* run-time panic: index out of range *)

(** What the HTTP layer did for one call. *)
Inductive Outcome : Type :=
| RequestError (cause : string)
    (* http.NewRequestWithContext returned an error *)
| DoError (cause : string)
    (* client.Do returned an error: transport failure, time-out,
       cancelled context *)
| DoStatus (code : Z).
    (* client.Do returned a response with this StatusCode *)

(** ** BackendImpl *)

Record BackendImpl : Type := mkBackend {
  addr : string;
  failureCount : Z;      (* int32 *)
  lastFailure : Time;
  healthy : Z;           (* int32: 1 healthy, 0 unhealthy *)
  activeRequests : Z     (* int64 *)
}.

Definition NewBackend (a : string) : BackendImpl :=
  {| addr := a; failureCount := 0; lastFailure := 0; healthy := 1;
     activeRequests := 0 |}.

Definition set_activeRequests (n : Z) (b : BackendImpl) : BackendImpl :=
  {| addr := addr b; failureCount := failureCount b;
     lastFailure := lastFailure b; healthy := healthy b;
     activeRequests := n |}.

Definition set_failureCount (n : Z) (b : BackendImpl) : BackendImpl :=
  {| addr := addr b; failureCount := n;
     lastFailure := lastFailure b; healthy := healthy b;
     activeRequests := activeRequests b |}.

Definition set_lastFailure (t : Time) (b : BackendImpl) : BackendImpl :=
  {| addr := addr b; failureCount := failureCount b;
     lastFailure := t; healthy := healthy b;
     activeRequests := activeRequests b |}.

Definition set_healthy (h : Z) (b : BackendImpl) : BackendImpl :=
  {| addr := addr b; failureCount := failureCount b;
     lastFailure := lastFailure b; healthy := h;
     activeRequests := activeRequests b |}.

(** [BackendImpl.Invoke], in the three parts other goroutines can observe:
    the increment of the load, the call with its bookkeeping under [b.mu],
    and the deferred decrement. *)

Definition BackendImpl_Invoke_enter (b : BackendImpl) : BackendImpl :=
  set_activeRequests (atomic_AddInt64 (activeRequests b) 1) b.

Definition BackendImpl_Invoke_leave (b : BackendImpl) : BackendImpl :=
  set_activeRequests (atomic_AddInt64 (activeRequests b) (-1)) b.

(** [b.failureCount++; b.lastFailure = time.Now()] *)
Definition record_failure (now : Time) (b : BackendImpl) : BackendImpl :=
  set_lastFailure now (set_failureCount (int32 (failureCount b + 1)) b).

Definition BackendImpl_Invoke_call (o : Outcome) (now : Time)
    (b : BackendImpl) : result * BackendImpl :=
  match o with
  | RequestError e => (Err (ErrCreateRequest e), b)
  | DoError e => (Err (ErrBackendFailed (addr b) e), record_failure now b)
  | DoStatus code =>
      if (code <? StatusOK) || (code >=? StatusMultipleChoices)
      then (Err (ErrBackendStatus (addr b) code), record_failure now b)
      else (Ok ("Success from " +:+ addr b), b)
  end.

Definition BackendImpl_Invoke (o : Outcome) (now : Time)
    (b : BackendImpl) : result * BackendImpl :=
  let b1 := BackendImpl_Invoke_enter b in
  let '(r, b2) := BackendImpl_Invoke_call o now b1 in
  (r, BackendImpl_Invoke_leave b2).

Definition BackendImpl_Host (b : BackendImpl) : string := addr b.

Definition BackendImpl_IsHealthy (now : Time) (b : BackendImpl)
    : bool * BackendImpl :=
  if healthy b =? 1 then (true, b)
  else if coolDown <? time_Since now (lastFailure b)
  then (true, set_failureCount 0 (set_healthy 1 b))
  else (false, b).

Definition BackendImpl_MarkUnhealthy (b : BackendImpl) : BackendImpl :=
  set_healthy 0 b.

Definition BackendImpl_GetLoad (b : BackendImpl) : Z := activeRequests b.

(** The Invoker reported a failure: an error, or a status outside 2xx. *)
Definition exchange_failed (o : Outcome) : bool :=
  match o with
  | RequestError _ => false
  | DoError _ => true
  | DoStatus code => (code <? StatusOK) || (code >=? StatusMultipleChoices)
  end.

(** [Invoke] returns a non-nil error. *)
Definition is_Err (r : result) : bool :=
  match r with Err _ => true | Ok _ | Panic => false end.

(** ** BasicBalancer (package golb) *)

Record BasicBalancer : Type := mkBasic {
  basic_backends : list BackendImpl;
  basic_counter : Z      (* uint32 *)
}.

Definition NewBasicLoadBalancer (hosts : list string) : BasicBalancer :=
  {| basic_backends := NewBackend <$> hosts; basic_counter := 0 |}.

(** [idx := int(atomic.AddUint32(&b.counter, 1)-1) % n] together with the
    counter it leaves behind. *)
Definition next_index (counter : Z) (n : nat) : nat * Z :=
  let c' := atomic_AddUint32 counter 1 in
  (Z.to_nat (Z.rem (int64 (uint32 (c' - 1))) (Z.of_nat n)), c').

Definition BasicBalancer_GetNextServer (b : BasicBalancer)
    : option nat * BasicBalancer :=
  if (length (basic_backends b) =? 0)%nat then (None, b)
  else
    let '(idx, c') := next_index (basic_counter b) (length (basic_backends b)) in
    (Some idx, {| basic_backends := basic_backends b; basic_counter := c' |}).

Definition BasicBalancer_Invoke (o : Outcome) (now : Time) (b : BasicBalancer)
    : result * BasicBalancer :=
  match BasicBalancer_GetNextServer b with
  | (None, b1) => (Err ErrBackendServersEmpty, b1)
  | (Some i, b1) =>
      match basic_backends b1 !! i with
      | None => (Panic, b1)
      | Some be =>
          let '(r, be') := BackendImpl_Invoke o now be in
          (r, {| basic_backends := <[i := be']> (basic_backends b1);
                 basic_counter := basic_counter b1 |})
      end
  end.

(** ** BasicBalancer (package selector) *)

Module selector.

(** The package has its own sentinel, a different error value with the
    same message. *)
Inductive error : Type :=
| ErrBackendServersEmpty.
    (* errors.New("backend server list is empty") *)

Definition error_message (e : error) : string :=
  match e with
  | ErrBackendServersEmpty => "backend server list is empty"%string
  end.

Record backendImpl : Type := { addr : string }.

Record BasicBalancer : Type := {
  backends : list backendImpl;
  counter : Z      (* uint32 *)
}.

Definition NewBasicLoadBalancer (hosts : list string) : BasicBalancer :=
  {| backends := (fun a => {| addr := a |}) <$> hosts; counter := 0 |}.

Definition NextServer (b : BasicBalancer) : option nat * BasicBalancer :=
  if (length (backends b) =? 0)%nat then (None, b)
  else
    let '(idx, c') := next_index (counter b) (length (backends b)) in
    (Some idx, {| backends := backends b; counter := c' |}).

(** [fmt.Sprintf("addr: %s, req: %v", b.addr, req)], the request given by
    its [%v] rendering. *)
Definition backendImpl_Invoke (req : string) (b : backendImpl) : string :=
  "addr: " +:+ addr b +:+ ", req: " +:+ req.

Definition Invoke (req : string) (b : BasicBalancer)
    : (string + option error) * BasicBalancer :=
  match NextServer b with
  | (None, b1) => (inr (Some ErrBackendServersEmpty), b1)
  | (Some i, b1) =>
      match backends b1 !! i with
      | None => (inr None, b1)     (* run-time panic *)
      | Some be => (inl (backendImpl_Invoke req be), b1)
      end
  end.

End selector.

(** ** IntermediateBalancer *)

Record IntermediateBalancer : Type := mkIntermediate {
  inter_backends : list BackendImpl;
  inter_counter : Z      (* uint32 *)
}.

Definition NewIntermediateLoadBalancer (hosts : list string)
    : IntermediateBalancer :=
  {| inter_backends := NewBackend <$> hosts; inter_counter := 0 |}.

(** The loop [for i := 0; i < n; i++] of [GetNextServer], with [k]
    iterations left. *)
Fixpoint inter_scan (k : nat) (now : Time) (bs : list BackendImpl) (c : Z)
    : option nat * (list BackendImpl * Z) :=
  match k with
  | O => (None, (bs, c))
  | S k' =>
      let '(idx, c') := next_index c (length bs) in
      match bs !! idx with
      | None => (None, (bs, c'))     (* index out of range: never *)
      | Some be =>
          let '(ok, be') := BackendImpl_IsHealthy now be in
          let bs' := <[idx := be']> bs in
          if ok then (Some idx, (bs', c')) else inter_scan k' now bs' c'
      end
  end.

Definition IntermediateBalancer_GetNextServer (now : Time)
    (b : IntermediateBalancer) : option nat * IntermediateBalancer :=
  let n := length (inter_backends b) in
  if (n =? 0)%nat then (None, b)
  else
    let '(r, (bs, c)) := inter_scan n now (inter_backends b) (inter_counter b) in
    (r, {| inter_backends := bs; inter_counter := c |}).

(** What [IntermediateBalancer.Invoke] does to the chosen backend after
    [backend.Invoke] returned [r]. *)
Definition inter_settle (r : result) (be : BackendImpl) : BackendImpl :=
  if is_Err r then
    if failureCount be >=? maxFailureCount then BackendImpl_MarkUnhealthy be
    else be
  else be.

(** [now] is the clock at selection, [now'] the clock when the exchange has
    answered. *)
Definition IntermediateBalancer_Invoke (o : Outcome) (now now' : Time)
    (b : IntermediateBalancer) : result * IntermediateBalancer :=
  match IntermediateBalancer_GetNextServer now b with
  | (None, b1) => (Err ErrBackendServersEmpty, b1)
  | (Some i, b1) =>
      match inter_backends b1 !! i with
      | None => (Panic, b1)
      | Some be =>
          let '(r, be') := BackendImpl_Invoke o now' be in
          (r, {| inter_backends := <[i := inter_settle r be']> (inter_backends b1);
                 inter_counter := inter_counter b1 |})
      end
  end.

(** ** backendHeap and container/heap *)

(** The heap holds handles; their keys are read through the store [bs] at
    the moment of each comparison. *)
Abbreviation backendHeap := (list nat).

(** [a.GetLoad() < b.GetLoad() ||
     (a.GetLoad() == b.GetLoad() && a.addr < b.addr)] *)
Definition backend_less (a b : BackendImpl) : bool :=
  (BackendImpl_GetLoad a <? BackendImpl_GetLoad b)
  || ((BackendImpl_GetLoad a =? BackendImpl_GetLoad b)
      && String.ltb (addr a) (addr b)).

(** The same comparison on two handles. *)
Definition handle_less (bs : list BackendImpl) (x y : nat) : bool :=
  match bs !! x, bs !! y with
  | Some a, Some b => backend_less a b
  | _, _ => false
  end.

Definition backendHeap_Len (h : backendHeap) : nat := length h.

Definition backendHeap_Less (bs : list BackendImpl) (h : backendHeap)
    (i j : nat) : bool :=
  match h !! i, h !! j with
  | Some x, Some y => handle_less bs x y
  | _, _ => false
  end.

Definition backendHeap_Swap (h : backendHeap) (i j : nat) : backendHeap :=
  match h !! i, h !! j with
  | Some x, Some y => <[i := y]> (<[j := x]> h)
  | _, _ => h
  end.

Definition backendHeap_Push (h : backendHeap) (x : nat) : backendHeap :=
  h ++ [x].

Definition backendHeap_Pop (h : backendHeap) : option nat * backendHeap :=
  let n := length h in
  (h !! (n - 1)%nat, take (n - 1) h).

(** [heap.up]; the loop runs at most [fuel] times. *)
Fixpoint heap_up (fuel : nat) (bs : list BackendImpl) (h : backendHeap)
    (j : nat) : backendHeap :=
  match fuel with
  | O => h
  | S fuel' =>
      let i := ((j - 1) / 2)%nat in
      if (i =? j)%nat || negb (backendHeap_Less bs h j i) then h
      else heap_up fuel' bs (backendHeap_Swap h i j) i
  end.

(** [heap.down]; the loop runs at most [fuel] times. *)
Fixpoint heap_down (fuel : nat) (bs : list BackendImpl) (h : backendHeap)
    (i n : nat) : backendHeap :=
  match fuel with
  | O => h
  | S fuel' =>
      let j1 := (2 * i + 1)%nat in
      if (n <=? j1)%nat then h
      else
        let j2 := (j1 + 1)%nat in
        let j := if (j2 <? n)%nat && backendHeap_Less bs h j2 j1
                 then j2 else j1 in
        if negb (backendHeap_Less bs h j i) then h
        else heap_down fuel' bs (backendHeap_Swap h i j) j n
  end.

(** [heap.Init]: [for i := n/2 - 1; i >= 0; i-- { down(h, i, n) }] *)
Definition heap_Init (bs : list BackendImpl) (h : backendHeap) : backendHeap :=
  let n := backendHeap_Len h in
  foldl (fun h' i => heap_down n bs h' i n) h (reverse (seq 0 (n / 2))).

Definition heap_Push (bs : list BackendImpl) (h : backendHeap) (x : nat)
    : backendHeap :=
  let h' := backendHeap_Push h x in
  heap_up (backendHeap_Len h') bs h' (backendHeap_Len h' - 1).

Definition heap_Pop (bs : list BackendImpl) (h : backendHeap)
    : option nat * backendHeap :=
  let n := (backendHeap_Len h - 1)%nat in
  let h1 := backendHeap_Swap h 0 n in
  let h2 := heap_down (backendHeap_Len h) bs h1 0 n in
  backendHeap_Pop h2.

(** ** AdvancedBalancer *)

Record AdvancedBalancer : Type := mkAdvanced {
  adv_backends : list BackendImpl;
  adv_heap : backendHeap
}.

(** One round of [for i, u := range urls] in the constructor. *)
Definition new_advanced_step (now : Time) (st : list BackendImpl * backendHeap)
    (host : string) : list BackendImpl * backendHeap :=
  let '(bs, h) := st in
  let i := length bs in
  let '(ok, be) := BackendImpl_IsHealthy now (NewBackend host) in
  let bs' := bs ++ [be] in
  if ok then (bs', heap_Push bs' h i) else (bs', h).

Definition NewAdvancedLoadBalancer (now : Time) (hosts : list string)
    : AdvancedBalancer :=
  let '(bs, h) := foldl (new_advanced_step now) ([], heap_Init [] []) hosts in
  {| adv_backends := bs; adv_heap := h |}.

(** One round of [for _, backend := range b.backends] when the heap is
    refilled. *)
Definition refill_step (now : Time) (st : list BackendImpl * backendHeap)
    (i : nat) : list BackendImpl * backendHeap :=
  let '(bs, h) := st in
  match bs !! i with
  | None => (bs, h)
  | Some be =>
      let '(ok, be') := BackendImpl_IsHealthy now be in
      let bs' := <[i := be']> bs in
      if ok then (bs', heap_Push bs' h i) else (bs', h)
  end.

Definition refill (now : Time) (bs : list BackendImpl) (h : backendHeap)
    : list BackendImpl * backendHeap :=
  foldl (refill_step now) (bs, h) (seq 0 (length bs)).

(** The loop [for b.heap.Len() > 0] of [GetNextServer]; every round pops
    one handle, so [fuel = Len] rounds are all there can be. *)
Fixpoint pop_healthy (fuel : nat) (now : Time) (bs : list BackendImpl)
    (h : backendHeap) : option nat * (list BackendImpl * backendHeap) :=
  match fuel with
  | O => (None, (bs, h))
  | S fuel' =>
      if (backendHeap_Len h =? 0)%nat then (None, (bs, h))
      else
        match heap_Pop bs h with
        | (Some x, h') =>
            match bs !! x with
            | Some be =>
                let '(ok, be') := BackendImpl_IsHealthy now be in
                let bs' := <[x := be']> bs in
                if ok then (Some x, (bs', h'))
                else pop_healthy fuel' now bs' h'
            | None => (None, (bs, h'))     (* dangling handle: never *)
            end
        | (None, h') => (None, (bs, h'))   (* pop of an empty heap: never *)
        end
  end.

Definition AdvancedBalancer_GetNextServer (now : Time) (b : AdvancedBalancer)
    : option nat * AdvancedBalancer :=
  let '(bs1, h1) :=
    if (backendHeap_Len (adv_heap b) =? 0)%nat
    then refill now (adv_backends b) (adv_heap b)
    else (adv_backends b, adv_heap b) in
  if (backendHeap_Len h1 =? 0)%nat
  then (None, {| adv_backends := bs1; adv_heap := h1 |})
  else
    let '(sel, (bs2, h2)) := pop_healthy (backendHeap_Len h1) now bs1 h1 in
    (sel, {| adv_backends := bs2; adv_heap := h2 |}).

(** [backend.Invoke(ctx, req)] on handle [i]. *)
Definition AdvancedBalancer_call (i : nat) (o : Outcome) (now : Time)
    (b : AdvancedBalancer) : result * AdvancedBalancer :=
  match adv_backends b !! i with
  | None => (Panic, b)
  | Some be =>
      let '(r, be') := BackendImpl_Invoke o now be in
      (r, {| adv_backends := <[i := be']> (adv_backends b);
             adv_heap := adv_heap b |})
  end.

(** The part of [AdvancedBalancer.Invoke] after [backend.Invoke] returned
    [r], under [b.mu]. *)
Definition AdvancedBalancer_settle (i : nat) (r : result)
    (b : AdvancedBalancer) : result * AdvancedBalancer :=
  match r with
  | Err e =>
      match adv_backends b !! i with
      | None => (Panic, b)
      | Some be =>
          let be1 := set_failureCount (int32 (failureCount be + 1)) be in
          if failureCount be1 >=? maxFailureCount then
            (Err (ErrAdvancedFailed e),
             {| adv_backends :=
                  <[i := BackendImpl_MarkUnhealthy be1]> (adv_backends b);
                adv_heap := adv_heap b |})
          else
            let bs' := <[i := be1]> (adv_backends b) in
            (Err (ErrAdvancedFailed e),
             {| adv_backends := bs';
                adv_heap := heap_Push bs' (adv_heap b) i |})
      end
  | _ =>
      (r, {| adv_backends := adv_backends b;
             adv_heap := heap_Push (adv_backends b) (adv_heap b) i |})
  end.

(** [now] is the clock at selection, [now'] the clock when the exchange has
    answered. *)
Definition AdvancedBalancer_Invoke (o : Outcome) (now now' : Time)
    (b : AdvancedBalancer) : result * AdvancedBalancer :=
  match AdvancedBalancer_GetNextServer now b with
  | (None, b1) => (Err ErrBackendServersEmpty, b1)
  | (Some i, b1) =>
      let '(r, b2) := AdvancedBalancer_call i o now' b1 in
      AdvancedBalancer_settle i r b2
  end.

(** One tick of [healthChecker], under [b.mu]. *)
Definition sweep_step (now : Time) (st : list BackendImpl * backendHeap)
    (i : nat) : list BackendImpl * backendHeap :=
  let '(bs, h) := st in
  match bs !! i with
  | None => (bs, h)
  | Some be =>
      let '(ok1, be1) := BackendImpl_IsHealthy now be in
      if negb ok1 then (<[i := be1]> bs, h)
      else
        let '(ok2, be2) := BackendImpl_IsHealthy now be1 in
        let bs' := <[i := be2]> bs in
        if ok2 then
          let alreadyInHeap := bool_decide (i ∈ h) in
          if negb alreadyInHeap then (bs', heap_Push bs' h i) else (bs', h)
        else (bs', h)
  end.

Definition AdvancedBalancer_healthChecker_tick (now : Time)
    (b : AdvancedBalancer) : AdvancedBalancer :=
  let '(bs, h) :=
    foldl (sweep_step now) (adv_backends b, adv_heap b)
          (seq 0 (length (adv_backends b))) in
  {| adv_backends := bs; adv_heap := h |}.

(** ** Consecutive single-threaded selections *)

(** [k] calls of [GetNextServer], one after the other, with what each
    returned. *)
Fixpoint BasicBalancer_calls (k : nat) (b : BasicBalancer)
    : list (option nat) * BasicBalancer :=
  match k with
  | O => ([], b)
  | S k' =>
      let '(r, b1) := BasicBalancer_GetNextServer b in
      let '(rs, b2) := BasicBalancer_calls k' b1 in
      (r :: rs, b2)
  end.

Fixpoint selector_calls (k : nat) (b : selector.BasicBalancer)
    : list (option nat) * selector.BasicBalancer :=
  match k with
  | O => ([], b)
  | S k' =>
      let '(r, b1) := selector.NextServer b in
      let '(rs, b2) := selector_calls k' b1 in
      (r :: rs, b2)
  end.


(** The index returned by the [p]-th selection of a window that starts
    with the counter at [c]. *)
Definition window_index (c : Z) (n p : nat) : nat :=
  Z.to_nat (((c + Z.of_nat p) mod 2 ^ 32) mod Z.of_nat n).

(** Selections of the health-aware balancer, one per clock reading. *)
Fixpoint IntermediateBalancer_calls (nows : list Time) (b : IntermediateBalancer)
    : list (option nat) * IntermediateBalancer :=
  match nows with
  | [] => ([], b)
  | now :: nows' =>
      let '(r, b1) := IntermediateBalancer_GetNextServer now b in
      let '(rs, b2) := IntermediateBalancer_calls nows' b1 in
      (r :: rs, b2)
  end.

(** A window of [n] results returns one handle at two places and leaves
    another handle out. *)
Definition repeats_and_skips (n : nat) (w : list (option nat)) : Prop :=
  (∃ p q i : nat, (p < q < n)%nat ∧ w !! p = Some (Some i) ∧ w !! q = Some (Some i))
  ∧ (∃ j : nat, (j < n)%nat ∧ Some j ∉ w).

(** ** What goroutines do to one backend

    Calls on one backend overlap: each is an [EvEnter], later its
    [EvCall], later its [EvLeave]; between them the balancer's own accesses
    to the backend can happen. *)
Inductive BackendEvent : Type :=
| EvEnter
| EvCall (o : Outcome) (now : Time)
| EvLeave
| EvIsHealthy (now : Time)
| EvMarkUnhealthy
| EvFailureCountInc.     (* [backend.failureCount++] of AdvancedBalancer.Invoke *)

Definition apply_event (ev : BackendEvent) (b : BackendImpl) : BackendImpl :=
  match ev with
  | EvEnter => BackendImpl_Invoke_enter b
  | EvCall o now => (BackendImpl_Invoke_call o now b).2
  | EvLeave => BackendImpl_Invoke_leave b
  | EvIsHealthy now => (BackendImpl_IsHealthy now b).2
  | EvMarkUnhealthy => BackendImpl_MarkUnhealthy b
  | EvFailureCountInc => set_failureCount (int32 (failureCount b + 1)) b
  end.

(** Runs a history of events with [k] calls in flight at its start; the
    result is the backend and the number of calls in flight at its end.
    [None]: some call would leave, or do its exchange, without being in
    flight, which no execution does. *)
Fixpoint run_events (evs : list BackendEvent) (b : BackendImpl) (k : nat)
    : option (BackendImpl * nat) :=
  match evs with
  | [] => Some (b, k)
  | ev :: evs' =>
      match ev, k with
      | EvLeave, O | EvCall _ _, O => None
      | EvLeave, S k' => run_events evs' (apply_event ev b) k'
      | EvEnter, _ => run_events evs' (apply_event ev b) (S k)
      | _, _ => run_events evs' (apply_event ev b) k
      end
  end.

(** The loads of all backends, in list order. *)
Definition loads (bs : list BackendImpl) : list Z :=
  BackendImpl_GetLoad <$> bs.

(** ** Exclusion, and calls one after the other *)

(** A backend [IsHealthy] answers false for: flag clear, still cooling
    down. *)
Definition excluded_at (now : Time) (be : BackendImpl) : Prop :=
  healthy be ≠ 1 ∧ time_Since now (lastFailure be) ≤ coolDown.


Fixpoint AdvancedBalancer_invokes (calls : list (Outcome * Time * Time))
    (b : AdvancedBalancer) : list result * AdvancedBalancer :=
  match calls with
  | [] => ([], b)
  | (o, now, now') :: calls' =>
      let '(r, b1) := AdvancedBalancer_Invoke o now now' b in
      let '(rs, b2) := AdvancedBalancer_invokes calls' b1 in
      (r :: rs, b2)
  end.



(** ** Wrapped errors *)

(** [errors.Unwrap], repeated: the error and the package errors it wraps.
    The causes of [ErrCreateRequest] and [ErrBackendFailed] come from
    net/url and net/http. *)
Fixpoint error_chain (e : error) : list error :=
  e :: match e with
       | ErrAdvancedFailed cause => error_chain cause
       | _ => []
       end.

(** ** Properties of the priority structure *)

(** Every handle in the heap points into the backend list. *)
Definition handles_valid (bs : list BackendImpl) (h : backendHeap) : Prop :=
  Forall (λ x, (x < length bs)%nat) h.

(** The invariant of container/heap: no element is less than its parent,
    the parent of position [j] being position [(j - 1) / 2]. *)
Definition heap_ordered (bs : list BackendImpl) (h : backendHeap) : Prop :=
  ∀ j : nat, (0 < j < length h)%nat →
    backendHeap_Less bs h j ((j - 1) / 2) = false.

(** [IsHealthy] answers true for the backend at time [now]. *)
Definition accepts (now : Time) (be : BackendImpl) : Prop :=
  (BackendImpl_IsHealthy now be).1 = true.

(** Position [c] is a child of position [p] in the array of the heap. *)
Definition is_child (p c : nat) : Prop :=
  (c = 2 * p + 1 ∨ c = 2 * p + 2)%nat.

(** The positions exchanged by [Swap(i, j)]. *)
Definition transpose (i j k : nat) : nat :=
  if decide (k = i) then j else if decide (k = j) then i else k.

(** ** Keys and candidates of the load-aware selection *)

(** The key the heap compares: load first, address second. *)
Definition key (be : BackendImpl) : Z * string :=
  (BackendImpl_GetLoad be, addr be).

(** [a]'s key is below [b]'s in the ascending lexicographic order. *)
Definition key_lt (a b : Z * string) : Prop :=
  a.1 < b.1 ∨ (a.1 = b.1 ∧ String.ltb a.2 b.2 = true).

(** The backends a selection chooses among: the handles in the priority
    structure, or all backends when the structure is empty and gets
    refilled, that [IsHealthy] answers true for. *)
Definition candidate (now : Time) (b : AdvancedBalancer) (j : nat) : Prop :=
  (adv_heap b = [] ∨ j ∈ adv_heap b)
  ∧ ∃ be, adv_backends b !! j = Some be ∧ accepts now be.

(** Selections of the load-aware balancer, one per clock reading. *)
Fixpoint AdvancedBalancer_calls (nows : list Time) (b : AdvancedBalancer)
    : list (option nat) * AdvancedBalancer :=
  match nows with
  | [] => ([], b)
  | now :: nows' =>
      let '(r, b1) := AdvancedBalancer_GetNextServer now b in
      let '(rs, b2) := AdvancedBalancer_calls nows' b1 in
      (r :: rs, b2)
  end.

(** The state of the refill loop after it has gone through the first [k]
    backends of [bs]. *)
Definition refilled (now : Time) (bs : list BackendImpl) (k : nat)
    (st : list BackendImpl * list nat) : Prop :=
  length st.1 = length bs
  ∧ (∀ j, st.1 !! j =
          if decide (j < k)%nat
          then (λ be, (BackendImpl_IsHealthy now be).2) <$> bs !! j
          else bs !! j)
  ∧ handles_valid bs st.2
  ∧ heap_ordered bs st.2
  ∧ NoDup st.2
  ∧ (∀ j, j ∈ st.2 ↔ (j < k)%nat ∧ ∃ be, bs !! j = Some be ∧ accepts now be).

(** The selection at [now] returns a backend that [IsHealthy] answers true
    for and whose key is minimal among all such backends of the balancer,
    whenever there is one. *)
Definition selects_minimal_healthy (now : Time) (b : AdvancedBalancer) : Prop :=
  (∃ j be, adv_backends b !! j = Some be ∧ accepts now be) →
  ∃ i bei,
    (AdvancedBalancer_GetNextServer now b).1 = Some i
    ∧ adv_backends b !! i = Some bei ∧ accepts now bei
    ∧ ∀ j bej, adv_backends b !! j = Some bej → accepts now bej →
        ¬ key_lt (key bej) (key bei).

(** ** Goroutines on the load-aware balancer

    A goroutine in [AdvancedBalancer.Invoke] goes through the atomic parts
    of the call one by one; other goroutines, and the ticks of
    [healthChecker], come in between.  A goroutine that calls
    [GetNextServer] on its own stays [GSelected]. *)
Inductive Goroutine : Type :=
| GSelected (i : nat)              (* GetNextServer returned handle i *)
| GEntered (i : nat)               (* activeRequests incremented *)
| GAnswered (i : nat) (r : result) (* exchange done, outcome recorded *)
| GReturned (i : nat) (r : result) (* backend.Invoke has returned *)
| GDone (r : result).              (* Invoke has returned *)

Record Pool : Type := mkPool {
  pool_balancer : AdvancedBalancer;
  pool_goroutines : list Goroutine
}.

Inductive PoolStep : Type :=
| StepSelect (now : Time)
| StepEnter (g : nat)
| StepExchange (g : nat) (o : Outcome) (now : Time)
| StepLeave (g : nat)
| StepSettle (g : nat)
| StepSweep (now : Time).

(** Applies [f] to the backend handle [i] points to. *)
Definition with_backend (i : nat) (f : BackendImpl → BackendImpl)
    (b : AdvancedBalancer) : AdvancedBalancer :=
  match adv_backends b !! i with
  | Some be => {| adv_backends := <[i := f be]> (adv_backends b);
                  adv_heap := adv_heap b |}
  | None => b
  end.

(** One step of the pool; [None] when the goroutine is not at that point
    of its call. *)
Definition pool_step (s : PoolStep) (p : Pool) : option Pool :=
  let b := pool_balancer p in
  let gs := pool_goroutines p in
  match s with
  | StepSelect now =>
      let '(sel, b1) := AdvancedBalancer_GetNextServer now b in
      let g := match sel with
               | Some i => GSelected i
               | None => GDone (Err ErrBackendServersEmpty)
               end in
      Some (mkPool b1 (gs ++ [g]))
  | StepEnter g =>
      match gs !! g with
      | Some (GSelected i) =>
          Some (mkPool (with_backend i BackendImpl_Invoke_enter b)
                       (<[g := GEntered i]> gs))
      | _ => None
      end
  | StepExchange g o now =>
      match gs !! g with
      | Some (GEntered i) =>
          match adv_backends b !! i with
          | Some be =>
              let '(r, be') := BackendImpl_Invoke_call o now be in
              Some (mkPool {| adv_backends := <[i := be']> (adv_backends b);
                              adv_heap := adv_heap b |}
                           (<[g := GAnswered i r]> gs))
          | None => None
          end
      | _ => None
      end
  | StepLeave g =>
      match gs !! g with
      | Some (GAnswered i r) =>
          Some (mkPool (with_backend i BackendImpl_Invoke_leave b)
                       (<[g := GReturned i r]> gs))
      | _ => None
      end
  | StepSettle g =>
      match gs !! g with
      | Some (GReturned i r) =>
          let '(r', b1) := AdvancedBalancer_settle i r b in
          Some (mkPool b1 (<[g := GDone r']> gs))
      | _ => None
      end
  | StepSweep now =>
      Some (mkPool (AdvancedBalancer_healthChecker_tick now b) gs)
  end.

Fixpoint pool_run (steps : list PoolStep) (p : Pool) : option Pool :=
  match steps with
  | [] => Some p
  | s :: steps' =>
      match pool_step s p with
      | Some p' => pool_run steps' p'
      | None => None
      end
  end.

(** ** Sequential use of the load-aware balancer

    Operations that do not overlap: every call of [Invoke] returns before
    the next operation starts; ticks of [healthChecker] and direct calls of
    [GetNextServer] come between calls, never inside one. *)
Inductive AdvancedOp : Type :=
| OpInvoke (o : Outcome) (now now' : Time)
| OpGetNextServer (now : Time)
| OpTick (now : Time).

Definition AdvancedBalancer_apply (op : AdvancedOp) (b : AdvancedBalancer)
    : AdvancedBalancer :=
  match op with
  | OpInvoke o now now' => (AdvancedBalancer_Invoke o now now' b).2
  | OpGetNextServer now => (AdvancedBalancer_GetNextServer now b).2
  | OpTick now => AdvancedBalancer_healthChecker_tick now b
  end.

(** What container/heap needs of the priority structure, and the loads
    within [int64]. *)
Definition heap_invariant (b : AdvancedBalancer) : Prop :=
  handles_valid (adv_backends b) (adv_heap b)
  ∧ heap_ordered (adv_backends b) (adv_heap b)
  ∧ Forall (λ l, - 2 ^ 63 ≤ l < 2 ^ 63) (loads (adv_backends b)).

(** ** Package loader, and the loop of cmd/main *)

(** [backendImpl.Host] of package selector. *)
Definition selector_Host (b : selector.backendImpl) : string := selector.addr b.

Module loader.

(** [switch level { case "basic": return selector.NewBasicLoadBalancer(urls) }
     return nil] *)
Definition NewBalancer (level : string) (hosts : list string)
    : option selector.BasicBalancer :=
  if String.eqb level "basic" then Some (selector.NewBasicLoadBalancer hosts)
  else None.

End loader.

(** Calls of [selector.BasicBalancer.Invoke], one after the other, one per
    request. *)
Fixpoint selector_invokes (reqs : list string) (b : selector.BasicBalancer)
    : list (string + option selector.error) * selector.BasicBalancer :=
  match reqs with
  | [] => ([], b)
  | req :: reqs' =>
      let '(r, b1) := selector.Invoke req b in
      let '(rs, b2) := selector_invokes reqs' b1 in
      (r :: rs, b2)
  end.

(** [fmt.Println(b.GetNextServer().Host())], [k] times: the hosts printed.
    [None] stands for the nil pointer a selection returned. *)
Definition BasicBalancer_hosts (k : nat) (b : BasicBalancer)
    : list (option string) :=
  (λ r : option nat,
     r ≫= λ i, BackendImpl_Host <$> basic_backends b !! i)
  <$> (BasicBalancer_calls k b).1.

(** ** The health flag and the failure count *)

(** The flag is set and the count below the threshold, or the flag is clear
    and the count between the threshold and [m]. *)
Definition count_bounded (m : Z) (be : BackendImpl) : Prop :=
  (healthy be = 1 ∧ 0 ≤ failureCount be < maxFailureCount)
  ∨ (healthy be = 0 ∧ maxFailureCount ≤ failureCount be ≤ m).

(** Sequential use of the health-aware balancer: calls of [Invoke] and
    direct calls of [GetNextServer], one after the other. *)
Inductive IntermediateOp : Type :=
| IOpInvoke (o : Outcome) (now now' : Time)
| IOpGetNextServer (now : Time).

Definition IntermediateBalancer_apply (op : IntermediateOp)
    (b : IntermediateBalancer) : IntermediateBalancer :=
  match op with
  | IOpInvoke o now now' => (IntermediateBalancer_Invoke o now now' b).2
  | IOpGetNextServer now => (IntermediateBalancer_GetNextServer now b).2
  end.

(** ** AdvancedBalancer, the revision that rebuilds the heap

    The revision of advanced.go without [healthChecker]: the constructor
    appends every backend and calls [heap.Init]; [GetNextServer] pushes
    every healthy backend after it has selected one; [Invoke] neither
    counts the failure a second time nor pushes the backend back.  Its
    [backendHeap] and its struct are those of the other revision. *)
Module Rebuild.

Definition NewAdvancedLoadBalancer (hosts : list string) : AdvancedBalancer :=
  let bs := NewBackend <$> hosts in
  {| adv_backends := bs; adv_heap := heap_Init bs (seq 0 (length hosts)) |}.

Definition GetNextServer (now : Time) (b : AdvancedBalancer)
    : option nat * AdvancedBalancer :=
  let '(bs1, h1) :=
    if (backendHeap_Len (adv_heap b) =? 0)%nat
    then refill now (adv_backends b) (adv_heap b)
    else (adv_backends b, adv_heap b) in
  if (backendHeap_Len h1 =? 0)%nat
  then (None, {| adv_backends := bs1; adv_heap := h1 |})
  else
    let '(sel, (bs2, h2)) := pop_healthy (backendHeap_Len h1) now bs1 h1 in
    (* Rebuild heap with all healthy backends. *)
    let '(bs3, h3) := refill now bs2 h2 in
    (sel, {| adv_backends := bs3; adv_heap := h3 |}).

Definition Invoke (o : Outcome) (now now' : Time) (b : AdvancedBalancer)
    : result * AdvancedBalancer :=
  match GetNextServer now b with
  | (None, b1) => (Err ErrBackendServersEmpty, b1)
  | (Some i, b1) =>
      match adv_backends b1 !! i with
      | None => (Panic, b1)
      | Some be =>
          let '(r, be') := BackendImpl_Invoke o now' be in
          let be'' :=
            if is_Err r then
              if failureCount be' >=? maxFailureCount
              then BackendImpl_MarkUnhealthy be' else be'
            else be' in
          (r, {| adv_backends := <[i := be'']> (adv_backends b1);
                 adv_heap := adv_heap b1 |})
      end
  end.

(** Sequential use: calls of [Invoke] and direct calls of
    [GetNextServer]. *)
Inductive Op : Type :=
| OpInvoke (o : Outcome) (now now' : Time)
| OpGetNextServer (now : Time).

Definition apply_op (op : Op) (b : AdvancedBalancer) : AdvancedBalancer :=
  match op with
  | OpInvoke o now now' => (Invoke o now now' b).2
  | OpGetNextServer now => (GetNextServer now b).2
  end.

End Rebuild.

(** ** Calls in flight *)

(** The goroutine is between the increment and the decrement of the load
    of backend [i]. *)
Definition in_flight_on (i : nat) (g : Goroutine) : bool :=
  match g with
  | GEntered j | GAnswered j _ => bool_decide (j = i)
  | _ => false
  end.

(** The number of goroutines in flight on backend [i]. *)
Definition in_flight (i : nat) (gs : list Goroutine) : nat :=
  length (List.filter (in_flight_on i) gs).

(** The handle a goroutine holds. *)
Definition goroutine_handle (g : Goroutine) : option nat :=
  match g with
  | GSelected i | GEntered i | GAnswered i _ | GReturned i _ => Some i
  | GDone _ => None
  end.

(** What every interleaving keeps: handles point to backends, in the
    priority structure and in the goroutines, and every load is the number
    of calls in flight. *)
Definition pool_invariant (p : Pool) : Prop :=
  handles_valid (adv_backends (pool_balancer p)) (adv_heap (pool_balancer p))
  ∧ Forall (λ g, ∀ i, goroutine_handle g = Some i →
                 (i < length (adv_backends (pool_balancer p)))%nat)
      (pool_goroutines p)
  ∧ (∀ i be, adv_backends (pool_balancer p) !! i = Some be →
       BackendImpl_GetLoad be = Z.of_nat (in_flight i (pool_goroutines p))).

(** ** Operations without a failed exchange *)

(** The exchange of the operation failed: only a call of [Invoke] has
    one. *)
Definition op_exchange_failed (op : AdvancedOp) : bool :=
  match op with
  | OpInvoke o _ _ => exchange_failed o
  | _ => false
  end.

(** * Theorems *)

(** ** Machine arithmetic *)

Lemma uint32_small (x : Z) : 0 ≤ x < 2 ^ 32 → uint32 x = x.
Proof. intros H. unfold uint32. by apply Z.mod_small. Qed.

Lemma uint32_range (x : Z) : 0 ≤ uint32 x < 2 ^ 32.
Proof. unfold uint32. apply Z.mod_pos_bound. lia. Qed.

Lemma int32_small (x : Z) : - 2 ^ 31 ≤ x < 2 ^ 31 → int32 x = x.
Proof. intros H. unfold int32. rewrite Z.mod_small; lia. Qed.

Lemma int64_small (x : Z) : - 2 ^ 63 ≤ x < 2 ^ 63 → int64 x = x.
Proof. intros H. unfold int64. rewrite Z.mod_small; lia. Qed.

Lemma int64_range (x : Z) : - 2 ^ 63 ≤ int64 x < 2 ^ 63.
Proof.
  unfold int64. pose proof (Z.mod_pos_bound (x + 2 ^ 63) (2 ^ 64)). lia.
Qed.

(** Adding one and taking one away is the identity on [int64], wrap or no
    wrap. *)
Lemma int64_inc_dec (x : Z) :
  - 2 ^ 63 ≤ x < 2 ^ 63 → int64 (int64 (x + 1) + -1) = x.
Proof.
  intros H. unfold int64.
  replace ((x + 1 + 2 ^ 63) mod 2 ^ 64 - 2 ^ 63 + -1 + 2 ^ 63)
    with ((x + 1 + 2 ^ 63) mod 2 ^ 64 - 1) by lia.
  rewrite Zminus_mod_idemp_l.
  replace (x + 1 + 2 ^ 63 - 1) with (x + 2 ^ 63) by lia.
  rewrite Z.mod_small; lia.
Qed.

(** ** BackendImpl *)

Lemma IsHealthy_load now b :
  activeRequests (BackendImpl_IsHealthy now b).2 = activeRequests b.
Proof. unfold BackendImpl_IsHealthy. repeat case_match; done. Qed.

Lemma IsHealthy_addr now b :
  addr (BackendImpl_IsHealthy now b).2 = addr b.
Proof. unfold BackendImpl_IsHealthy. repeat case_match; done. Qed.

Lemma Invoke_call_load o now b :
  activeRequests (BackendImpl_Invoke_call o now b).2 = activeRequests b.
Proof. unfold BackendImpl_Invoke_call. repeat case_match; done. Qed.

Lemma Invoke_call_addr o now b :
  addr (BackendImpl_Invoke_call o now b).2 = addr b.
Proof. unfold BackendImpl_Invoke_call. repeat case_match; done. Qed.

Lemma Invoke_unfold o now b :
  BackendImpl_Invoke o now b =
  ((BackendImpl_Invoke_call o now (BackendImpl_Invoke_enter b)).1,
   BackendImpl_Invoke_leave
     (BackendImpl_Invoke_call o now (BackendImpl_Invoke_enter b)).2).
Proof. unfold BackendImpl_Invoke. by case_match. Qed.

Lemma Invoke_load o now b :
  - 2 ^ 63 ≤ activeRequests b < 2 ^ 63 →
  activeRequests (BackendImpl_Invoke o now b).2 = activeRequests b.
Proof.
  intros H. rewrite Invoke_unfold. cbn.
  rewrite Invoke_call_load. cbn. unfold atomic_AddInt64.
  by apply int64_inc_dec.
Qed.

(** When the exchange answers with success, the failure counter is left as
    it was. *)
Lemma Invoke_success_failureCount code now b :
  exchange_failed (DoStatus code) = false →
  failureCount (BackendImpl_Invoke (DoStatus code) now b).2 = failureCount b.
Proof.
  intros H. rewrite Invoke_unfold. cbn in *. by rewrite H.
Qed.

(** C3. [IsHealthy] has exactly three behaviours: with the healthy flag set
    it answers true and leaves the backend as it is; with the flag clear and
    more than the cool-down (2s) elapsed since [lastFailure] it sets the
    flag, resets [failureCount] to 0, keeps the other fields and answers
    true; with the flag clear and at most the cool-down elapsed it answers
    false and changes nothing. *)
Theorem C3_IsHealthy_cases (now : Time) (b : BackendImpl) :
  let r := BackendImpl_IsHealthy now b in
  coolDown = 2 * 1000000000 ∧
  ((healthy b = 1 ∧ r = (true, b))
   ∨ (healthy b ≠ 1 ∧ coolDown < time_Since now (lastFailure b)
      ∧ r.1 = true
      ∧ healthy r.2 = 1 ∧ failureCount r.2 = 0
      ∧ addr r.2 = addr b ∧ lastFailure r.2 = lastFailure b
      ∧ activeRequests r.2 = activeRequests b)
   ∨ (healthy b ≠ 1 ∧ time_Since now (lastFailure b) ≤ coolDown
      ∧ r = (false, b))).
Proof.
  cbn zeta. split; [reflexivity|]. unfold BackendImpl_IsHealthy.
  destruct (Z.eqb_spec (healthy b) 1) as [Hh|Hh]; [left; done|].
  destruct (Z.ltb_spec coolDown (time_Since now (lastFailure b))) as [Hc|Hc].
  - right; left. cbn. done.
  - right; right. done.
Qed.

(** ** Round-robin selection *)

Lemma mod_eq (a b q r : Z) : 0 ≤ r < b → a = q * b + r → a mod b = r.
Proof.
  intros Hr ->. rewrite Z.add_comm, Z.mod_add by lia. by apply Z.mod_small.
Qed.

Lemma next_index_spec (c : Z) (n : nat) :
  0 ≤ c < 2 ^ 32 → (0 < n)%nat →
  next_index c n = (Z.to_nat (c mod Z.of_nat n), (c + 1) mod 2 ^ 32).
Proof.
  intros Hc Hn. unfold next_index, atomic_AddUint32, uint32.
  rewrite Zminus_mod_idemp_l.
  replace (c + 1 - 1) with c by lia.
  rewrite (Z.mod_small c) by lia.
  rewrite int64_small by lia.
  rewrite Z.rem_mod_nonneg by lia. done.
Qed.

(** The index is within the list, whatever the counter holds. *)
Lemma next_index_lt (c : Z) (n : nat) :
  (0 < n)%nat → ((next_index c n).1 < n)%nat.
Proof.
  intros Hn. unfold next_index. cbn [fst].
  pose proof (uint32_range (atomic_AddUint32 c 1 - 1)) as Hu.
  rewrite int64_small by lia. rewrite Z.rem_mod_nonneg by lia.
  pose proof (Z.mod_pos_bound (uint32 (atomic_AddUint32 c 1 - 1))
                (Z.of_nat n) ltac:(lia)). lia.
Qed.

Lemma window_index_step (c : Z) (n p : nat) :
  window_index ((c + 1) mod 2 ^ 32) n p = window_index c n (S p).
Proof.
  unfold window_index. rewrite Zplus_mod_idemp_l.
  do 3 f_equal. lia.
Qed.

Lemma BasicBalancer_GetNextServer_spec (b : BasicBalancer) :
  (0 < length (basic_backends b))%nat → 0 ≤ basic_counter b < 2 ^ 32 →
  BasicBalancer_GetNextServer b =
  (Some (Z.to_nat (basic_counter b mod Z.of_nat (length (basic_backends b)))),
   {| basic_backends := basic_backends b;
      basic_counter := (basic_counter b + 1) mod 2 ^ 32 |}).
Proof.
  intros Hn Hc. unfold BasicBalancer_GetNextServer.
  destruct (Nat.eqb_spec (length (basic_backends b)) 0) as [?|_]; [lia|].
  by rewrite next_index_spec.
Qed.

Lemma selector_NextServer_spec (b : selector.BasicBalancer) :
  (0 < length (selector.backends b))%nat → 0 ≤ selector.counter b < 2 ^ 32 →
  selector.NextServer b =
  (Some (Z.to_nat (selector.counter b mod Z.of_nat (length (selector.backends b)))),
   {| selector.backends := selector.backends b;
      selector.counter := (selector.counter b + 1) mod 2 ^ 32 |}).
Proof.
  intros Hn Hc. unfold selector.NextServer.
  destruct (Nat.eqb_spec (length (selector.backends b)) 0) as [?|_]; [lia|].
  by rewrite next_index_spec.
Qed.

Lemma window_index_0 (c : Z) (n : nat) :
  0 ≤ c < 2 ^ 32 → window_index c n 0 = Z.to_nat (c mod Z.of_nat n).
Proof.
  intros Hc. unfold window_index.
  replace (c + Z.of_nat 0) with c by lia. by rewrite (Z.mod_small c).
Qed.

Lemma BasicBalancer_calls_spec (k : nat) (b : BasicBalancer) :
  (0 < length (basic_backends b))%nat → 0 ≤ basic_counter b < 2 ^ 32 →
  BasicBalancer_calls k b =
  ((λ p, Some (window_index (basic_counter b) (length (basic_backends b)) p))
     <$> seq 0 k,
   {| basic_backends := basic_backends b;
      basic_counter := (basic_counter b + Z.of_nat k) mod 2 ^ 32 |}).
Proof.
  revert b. induction k as [|k IH]; intros b Hn Hc.
  - cbn. destruct b as [bs c]. cbn in *. f_equal. f_equal.
    rewrite Z.add_0_r. by rewrite Z.mod_small.
  - cbn [BasicBalancer_calls]. rewrite BasicBalancer_GetNextServer_spec by done.
    rewrite IH; cbn [basic_backends basic_counter]; [|done|].
    2:{ apply Z.mod_pos_bound. lia. }
    f_equal.
    + cbn [seq fmap list_fmap]. rewrite window_index_0 by done. f_equal.
      rewrite <- fmap_S_seq, <- list_fmap_compose.
      apply list_fmap_ext. intros _ p _. cbn. f_equal.
      apply window_index_step.
    + f_equal. rewrite Zplus_mod_idemp_l. f_equal. lia.
Qed.

Lemma selector_calls_spec (k : nat) (b : selector.BasicBalancer) :
  (0 < length (selector.backends b))%nat → 0 ≤ selector.counter b < 2 ^ 32 →
  selector_calls k b =
  ((λ p, Some (window_index (selector.counter b) (length (selector.backends b)) p))
     <$> seq 0 k,
   {| selector.backends := selector.backends b;
      selector.counter := (selector.counter b + Z.of_nat k) mod 2 ^ 32 |}).
Proof.
  revert b. induction k as [|k IH]; intros b Hn Hc.
  - cbn. destruct b as [bs c]. cbn in *. f_equal. f_equal.
    rewrite Z.add_0_r. by rewrite Z.mod_small.
  - cbn [selector_calls]. rewrite selector_NextServer_spec by done.
    rewrite IH; cbn [selector.backends selector.counter]; [|done|].
    2:{ apply Z.mod_pos_bound. lia. }
    f_equal.
    + cbn [seq fmap list_fmap]. rewrite window_index_0 by done. f_equal.
      rewrite <- fmap_S_seq, <- list_fmap_compose.
      apply list_fmap_ext. intros _ p _. cbn. f_equal.
      apply window_index_step.
    + f_equal. rewrite Zplus_mod_idemp_l. f_equal. lia.
Qed.

(** A window of [n] selections that spans the wrap of the counter returns
    one index at two places... *)
Lemma wrap_window_dup (c : Z) (n : nat) :
  0 ≤ c < 2 ^ 32 → (0 < n)%nat →
  ¬ (Z.of_nat n | 2 ^ 32) → 2 ^ 32 < c + Z.of_nat n →
  ∃ p q : nat, (p < q < n)%nat ∧ window_index c n p = window_index c n q.
Proof.
  intros Hc Hn Hdiv Hspan.
  set (M := 2 ^ 32) in *. set (N := Z.of_nat n) in *.
  assert (HN : 0 < N) by lia.
  pose proof (Z.div_mod M N ltac:(lia)) as HM.
  pose proof (Z.mod_pos_bound M N HN) as Hr.
  set (r := M mod N) in *. set (d := M / N) in *.
  assert (r ≠ 0).
  { intros Hr0. apply Hdiv. exists d. lia. }
  assert (HMpos : 0 < M) by (unfold M; lia).
  assert (Hd : 0 ≤ d).
  { unfold d. apply Z.div_pos; lia. }
  assert (HrM : r ≤ M) by nia.
  set (k := M - c).
  destruct (Z.le_gt_cases r k) as [Hrk|Hrk].
  - (* the counter value M - r is in the window, and is a multiple of n *)
    exists (Z.to_nat (k - r)), (Z.to_nat k). split; [lia|].
    unfold window_index. f_equal.
    rewrite !Z2Nat.id by lia. fold M N.
    replace (c + (k - r)) with (M - r) by lia.
    replace (c + k) with (1 * M + 0) by lia.
    rewrite (Z.mod_small (M - r)) by lia.
    rewrite (mod_eq (1 * M + 0) M 1 0) by lia.
    rewrite (mod_eq (M - r) N d 0) by lia.
    by rewrite Z.mod_0_l by lia.
  - (* the first index of the window comes back after the wrap *)
    exists 0%nat, (Z.to_nat r). split; [lia|].
    unfold window_index. f_equal.
    rewrite !Z2Nat.id by lia. fold M N.
    replace (c + Z.of_nat 0) with c by lia.
    rewrite (Z.mod_small c) by lia.
    rewrite (mod_eq (c + r) M 1 (r - k)) by lia.
    rewrite (mod_eq c N d (r - k)) by lia.
    rewrite Z.mod_small by lia. done.
Qed.

(** ... and never returns some other index. *)
Lemma wrap_window_skip (c : Z) (n : nat) :
  0 ≤ c < 2 ^ 32 → (0 < n)%nat →
  ¬ (Z.of_nat n | 2 ^ 32) → 2 ^ 32 < c + Z.of_nat n →
  ∃ j : nat, (j < n)%nat ∧ ∀ p : nat, (p < n)%nat → window_index c n p ≠ j.
Proof.
  intros Hc Hn Hdiv Hspan.
  set (M := 2 ^ 32) in *. set (N := Z.of_nat n) in *.
  assert (HN : 0 < N) by lia.
  pose proof (Z.div_mod M N ltac:(lia)) as HM.
  pose proof (Z.mod_pos_bound M N HN) as Hr.
  set (r := M mod N) in *. set (d := M / N) in *.
  assert (r ≠ 0).
  { intros Hr0. apply Hdiv. exists d. lia. }
  assert (HMpos : 0 < M) by (unfold M; lia).
  assert (Hd : 0 ≤ d).
  { unfold d. apply Z.div_pos; lia. }
  assert (HrM : r ≤ M) by nia.
  assert (HNM : N ≠ M).
  { intros HNM. apply Hdiv. exists 1. lia. }
  set (k := M - c).
  destruct (Z.lt_ge_cases M N) as [Hbig|Hsmall].
  { (* more backends than counter values: the last one is out of reach *)
    exists (n - 1)%nat. split; [lia|]. intros p Hp. unfold window_index.
    fold M N.
    pose proof (Z.mod_pos_bound (c + Z.of_nat p) M HMpos) as Hv.
    rewrite (Z.mod_small _ N) by lia. lia. }
  assert (Hidx : ∀ p : nat, (p < n)%nat →
            Z.of_nat (window_index c n p) =
              if decide (k ≤ Z.of_nat p) then Z.of_nat p - k
              else if decide (0 ≤ r - k + Z.of_nat p) then r - k + Z.of_nat p
              else r - k + Z.of_nat p + N).
  { intros p Hp. unfold window_index. fold M N.
    rewrite Z2Nat.id by (apply Z.mod_pos_bound; lia).
    destruct (decide (k ≤ Z.of_nat p)).
    - rewrite (mod_eq (c + Z.of_nat p) M 1 (Z.of_nat p - k)) by lia.
      apply Z.mod_small. lia.
    - rewrite (Z.mod_small (c + Z.of_nat p)) by lia.
      destruct (decide (0 ≤ r - k + Z.of_nat p)).
      + apply (mod_eq _ N d). lia. lia.
      + apply (mod_eq _ N (d - 1)). lia. lia. }
  destruct (Z.le_gt_cases r k) as [Hrk|Hrk].
  - exists (Z.to_nat (N - k + r - 1)). split; [lia|]. intros p Hp.
    specialize (Hidx p Hp). repeat case_decide; lia.
  - exists (n - 1)%nat. split; [lia|]. intros p Hp.
    specialize (Hidx p Hp). repeat case_decide; lia.
Qed.



(** With every healthy flag set, the health-aware selection is the plain
    round-robin step. *)
Lemma IntermediateBalancer_GetNextServer_all_healthy now (b : IntermediateBalancer) :
  (0 < length (inter_backends b))%nat → 0 ≤ inter_counter b < 2 ^ 32 →
  Forall (λ be, healthy be = 1) (inter_backends b) →
  IntermediateBalancer_GetNextServer now b =
  (Some (Z.to_nat (inter_counter b mod Z.of_nat (length (inter_backends b)))),
   {| inter_backends := inter_backends b;
      inter_counter := (inter_counter b + 1) mod 2 ^ 32 |}).
Proof.
  intros Hn Hc Hall. unfold IntermediateBalancer_GetNextServer.
  destruct (Nat.eqb_spec (length (inter_backends b)) 0) as [?|_]; [lia|].
  destruct (length (inter_backends b)) as [|n'] eqn:Hlen; [lia|].
  cbn [inter_scan]. rewrite Hlen, next_index_spec by (done || lia).
  pose proof (Z.mod_pos_bound (inter_counter b) (Z.of_nat (S n')) ltac:(lia)).
  destruct (lookup_lt_is_Some_2 (inter_backends b)
              (Z.to_nat (inter_counter b mod Z.of_nat (S n')))) as [be Hbe];
    [lia|].
  rewrite Hbe.
  rewrite Forall_lookup in Hall. specialize (Hall _ _ Hbe). cbn in Hall.
  unfold BackendImpl_IsHealthy. rewrite Hall. cbn.
  by rewrite list_insert_id.
Qed.

Lemma IntermediateBalancer_calls_all_healthy nows (b : IntermediateBalancer) :
  (0 < length (inter_backends b))%nat → 0 ≤ inter_counter b < 2 ^ 32 →
  Forall (λ be, healthy be = 1) (inter_backends b) →
  IntermediateBalancer_calls nows b =
  ((λ p, Some (window_index (inter_counter b) (length (inter_backends b)) p))
     <$> seq 0 (length nows),
   {| inter_backends := inter_backends b;
      inter_counter := (inter_counter b + Z.of_nat (length nows)) mod 2 ^ 32 |}).
Proof.
  revert b. induction nows as [|now nows IH]; intros b Hn Hc Hall.
  - cbn. destruct b as [bs c]. cbn in *. f_equal. f_equal.
    rewrite Z.add_0_r. by rewrite Z.mod_small.
  - cbn [IntermediateBalancer_calls length].
    rewrite IntermediateBalancer_GetNextServer_all_healthy by done.
    rewrite IH; cbn [inter_backends inter_counter]; [|done| |done].
    2:{ apply Z.mod_pos_bound. lia. }
    f_equal.
    + cbn [seq fmap list_fmap]. rewrite window_index_0 by done. f_equal.
      rewrite <- fmap_S_seq, <- list_fmap_compose.
      apply list_fmap_ext. intros _ p _. cbn. f_equal.
      apply window_index_step.
    + f_equal. rewrite Zplus_mod_idemp_l. f_equal. lia.
Qed.

Lemma wrap_window_repeats_and_skips (c : Z) (n : nat) :
  0 ≤ c < 2 ^ 32 → (0 < n)%nat →
  ¬ (Z.of_nat n | 2 ^ 32) → 2 ^ 32 < c + Z.of_nat n →
  repeats_and_skips n ((λ p, Some (window_index c n p)) <$> seq 0 n).
Proof.
  intros Hc Hn Hdiv Hspan. split.
  - destruct (wrap_window_dup c n Hc Hn Hdiv Hspan) as (p & q & Hpq & Heq).
    exists p, q, (window_index c n p).
    split; [done|]. rewrite !list_lookup_fmap, !lookup_seq_lt by lia.
    cbn. by rewrite Heq.
  - destruct (wrap_window_skip c n Hc Hn Hdiv Hspan) as (j & Hj & Hskip).
    exists j. split; [done|]. intros Hin.
    apply list_elem_of_fmap in Hin as (p & Hp & Hpin).
    apply elem_of_seq in Hpin. inversion Hp as [Hp'].
    by apply (Hskip p ltac:(lia)).
Qed.

(** C10. The round-robin selectors return index
    [((c + 1 - 1) mod 2^32) mod N] and leave the counter at
    [(c + 1) mod 2^32]; hence, when [N] does not divide [2^32], a window of
    [N] consecutive single-threaded selections that spans the wrap of the
    counter ([c < 2^32 < c + N]) returns some backend twice and never
    returns some other backend.  This holds for [golb.BasicBalancer], for
    [selector.BasicBalancer] and, while every backend is flagged healthy,
    for [IntermediateBalancer]. *)
Theorem C10_counter_wrap_breaks_cycle (n : nat) (c : Z)
    (Hn : (0 < n)%nat) (Hc : 0 ≤ c < 2 ^ 32) :
  let idx := Z.to_nat (((c + 1 - 1) mod 2 ^ 32) mod Z.of_nat n) in
  let c' := (c + 1) mod 2 ^ 32 in
  (∀ bs, length bs = n →
     BasicBalancer_GetNextServer (mkBasic bs c) = (Some idx, mkBasic bs c'))
  ∧ (∀ sbs, length sbs = n →
     selector.NextServer (selector.Build_BasicBalancer sbs c)
     = (Some idx, selector.Build_BasicBalancer sbs c'))
  ∧ (∀ now bs, length bs = n → Forall (λ be, healthy be = 1) bs →
     IntermediateBalancer_GetNextServer now (mkIntermediate bs c)
     = (Some idx, mkIntermediate bs c'))
  ∧ (¬ (Z.of_nat n | 2 ^ 32) → 2 ^ 32 < c + Z.of_nat n →
     (∀ bs, length bs = n →
        repeats_and_skips n (BasicBalancer_calls n (mkBasic bs c)).1)
     ∧ (∀ sbs, length sbs = n →
        repeats_and_skips n
          (selector_calls n (selector.Build_BasicBalancer sbs c)).1)
     ∧ (∀ nows bs, length nows = n → length bs = n →
        Forall (λ be, healthy be = 1) bs →
        repeats_and_skips n
          (IntermediateBalancer_calls nows (mkIntermediate bs c)).1)).
Proof.
  cbn zeta. replace (c + 1 - 1) with c by lia.
  rewrite (Z.mod_small c) by lia.
  split_and!.
  - intros bs <-. by rewrite BasicBalancer_GetNextServer_spec.
  - intros sbs <-. by rewrite selector_NextServer_spec.
  - intros now bs <- Hall.
    by rewrite IntermediateBalancer_GetNextServer_all_healthy.
  - intros Hdiv Hspan.
    pose proof (wrap_window_repeats_and_skips c n Hc Hn Hdiv Hspan) as Hw.
    split_and!.
    + intros bs <-. by rewrite BasicBalancer_calls_spec.
    + intros sbs <-. by rewrite selector_calls_spec.
    + intros nows bs Hnows <- Hall.
      rewrite IntermediateBalancer_calls_all_healthy by done.
      cbn. by rewrite Hnows.
Qed.

(** C10, at three backends with the counter at its last value. *)
Lemma C10_counter_wrap_breaks_cycle_witness :
  repeats_and_skips 3
    (BasicBalancer_calls 3
       (mkBasic (NewBackend <$> ["a"; "b"; "c"]%string) (2 ^ 32 - 1))).1.
Proof.
  refine (proj1 (proj2 (proj2 (proj2
            (C10_counter_wrap_breaks_cycle 3 (2 ^ 32 - 1) _ _))) _ _)
            (NewBackend <$> ["a"; "b"; "c"]%string) _).
  - lia.
  - lia.
  - intros [d Hd]. lia.
  - lia.
  - reflexivity.
Defined.





(** ** The load counter *)

Lemma apply_event_load ev b :
  match ev with EvEnter | EvLeave => True | _ =>
    activeRequests (apply_event ev b) = activeRequests b end.
Proof.
  destruct ev; cbn; try done.
  - apply Invoke_call_load.
  - apply IsHealthy_load.
Qed.

Lemma run_events_load evs b k b' k' :
  run_events evs b k = Some (b', k') →
  activeRequests b = Z.of_nat k →
  Z.of_nat k + Z.of_nat (length evs) < 2 ^ 63 →
  activeRequests b' = Z.of_nat k'.
Proof.
  revert b k. induction evs as [|ev evs IH]; intros b k Hrun Hb Hlen.
  - cbn in Hrun. by simplify_eq.
  - cbn [length] in Hlen. pose proof (apply_event_load ev b) as Hev.
    destruct ev; cbn [run_events] in Hrun;
      try (destruct k as [|k0]; [done || (apply (IH _ _ Hrun); [congruence|lia])|]);
      try (apply (IH _ _ Hrun); [|lia]).
    + cbn. unfold atomic_AddInt64. rewrite Hb, int64_small; lia.
    + congruence.
    + cbn. unfold atomic_AddInt64. rewrite Hb, int64_small; lia.
    + congruence.
    + congruence.
    + congruence.
Qed.

Lemma loads_insert bs i be be' :
  bs !! i = Some be → activeRequests be' = activeRequests be →
  loads (<[i := be']> bs) = loads bs.
Proof.
  intros Hi Hl. unfold loads. rewrite list_fmap_insert.
  apply list_insert_id. rewrite list_lookup_fmap, Hi. cbn.
  unfold BackendImpl_GetLoad. by rewrite Hl.
Qed.

Lemma loads_lookup_range bs i be :
  Forall (λ l, - 2 ^ 63 ≤ l < 2 ^ 63) (loads bs) → bs !! i = Some be →
  - 2 ^ 63 ≤ activeRequests be < 2 ^ 63.
Proof.
  intros Hall Hi. rewrite Forall_lookup in Hall. apply (Hall i).
  unfold loads. by rewrite list_lookup_fmap, Hi.
Qed.

Lemma inter_scan_loads k now bs c :
  loads (inter_scan k now bs c).2.1 = loads bs.
Proof.
  revert bs c. induction k as [|k IH]; intros bs c; [done|].
  cbn [inter_scan]. destruct (next_index c (length bs)) as [idx c'].
  destruct (bs !! idx) as [be|] eqn:Hbe; [|done].
  destruct (BackendImpl_IsHealthy now be) as [ok be'] eqn:Hh.
  assert (loads (<[idx := be']> bs) = loads bs) as Hl.
  { apply (loads_insert _ _ be); [done|].
    change be' with (ok, be').2. rewrite <- Hh. apply IsHealthy_load. }
  destruct ok; [done|]. by rewrite IH.
Qed.

Lemma IntermediateBalancer_GetNextServer_loads now b :
  loads (inter_backends (IntermediateBalancer_GetNextServer now b).2)
  = loads (inter_backends b).
Proof.
  unfold IntermediateBalancer_GetNextServer. case_match; [done|].
  pose proof (inter_scan_loads (length (inter_backends b)) now
                (inter_backends b) (inter_counter b)) as Hscan.
  destruct inter_scan as [r [bs c]]. done.
Qed.

Lemma refill_step_loads now st i :
  loads (refill_step now st i).1 = loads st.1.
Proof.
  destruct st as [bs h]. cbn [refill_step].
  destruct (bs !! i) as [be|] eqn:Hbe; [|done].
  destruct (BackendImpl_IsHealthy now be) as [ok be'] eqn:Hh.
  assert (loads (<[i := be']> bs) = loads bs) as Hl.
  { apply (loads_insert _ _ be); [done|].
    change be' with (ok, be').2. rewrite <- Hh. apply IsHealthy_load. }
  by destruct ok.
Qed.

Lemma refill_loads now bs h : loads (refill now bs h).1 = loads bs.
Proof.
  unfold refill. generalize (seq 0 (length bs)). intros l.
  change bs with (bs, h).1 at 2. generalize (bs, h).
  induction l as [|i l IH]; intros st; [done|].
  cbn [foldl]. by rewrite IH, refill_step_loads.
Qed.

Lemma pop_healthy_loads fuel now bs h :
  loads (pop_healthy fuel now bs h).2.1 = loads bs.
Proof.
  revert bs h. induction fuel as [|fuel IH]; intros bs h; [done|].
  cbn [pop_healthy]. case_match; [done|].
  destruct (heap_Pop bs h) as [[x|] h']; [|done].
  destruct (bs !! x) as [be|] eqn:Hbe; [|done].
  destruct (BackendImpl_IsHealthy now be) as [ok be'] eqn:Hh.
  assert (loads (<[x := be']> bs) = loads bs) as Hl.
  { apply (loads_insert _ _ be); [done|].
    change be' with (ok, be').2. rewrite <- Hh. apply IsHealthy_load. }
  destruct ok; [done|]. by rewrite IH.
Qed.

Lemma AdvancedBalancer_GetNextServer_loads now b :
  loads (adv_backends (AdvancedBalancer_GetNextServer now b).2)
  = loads (adv_backends b).
Proof.
  unfold AdvancedBalancer_GetNextServer.
  destruct (backendHeap_Len (adv_heap b) =? 0)%nat.
  - pose proof (refill_loads now (adv_backends b) (adv_heap b)) as Hr.
    destruct refill as [bs1 h1]. cbn [fst] in Hr. case_match; [done|].
    pose proof (pop_healthy_loads (backendHeap_Len h1) now bs1 h1) as Hp.
    destruct pop_healthy as [sel [bs2 h2]].
    cbn [fst snd adv_backends] in *. congruence.
  - case_match; [done|].
    pose proof (pop_healthy_loads (backendHeap_Len (adv_heap b)) now
                  (adv_backends b) (adv_heap b)) as Hp.
    destruct pop_healthy as [sel [bs2 h2]]. done.
Qed.

Lemma AdvancedBalancer_call_loads i o now b :
  Forall (λ l, - 2 ^ 63 ≤ l < 2 ^ 63) (loads (adv_backends b)) →
  loads (adv_backends (AdvancedBalancer_call i o now b).2)
  = loads (adv_backends b).
Proof.
  intros Hr. unfold AdvancedBalancer_call.
  destruct (adv_backends b !! i) as [be|] eqn:Hbe; [|done].
  destruct (BackendImpl_Invoke o now be) as [r be'] eqn:Hi. cbn.
  apply (loads_insert _ _ be); [done|].
  change be' with (r, be').2. rewrite <- Hi. apply Invoke_load.
  by eapply loads_lookup_range.
Qed.

Lemma AdvancedBalancer_settle_loads i r b :
  loads (adv_backends (AdvancedBalancer_settle i r b).2)
  = loads (adv_backends b).
Proof.
  unfold AdvancedBalancer_settle. destruct r as [resp|e|]; [done| |done].
  destruct (adv_backends b !! i) as [be|] eqn:Hbe; [|done].
  case_match; cbn [snd adv_backends]; by apply (loads_insert _ _ be).
Qed.

Lemma BasicBalancer_Invoke_loads o now b :
  Forall (λ l, - 2 ^ 63 ≤ l < 2 ^ 63) (loads (basic_backends b)) →
  loads (basic_backends (BasicBalancer_Invoke o now b).2)
  = loads (basic_backends b).
Proof.
  intros Hr. unfold BasicBalancer_Invoke, BasicBalancer_GetNextServer.
  destruct (length (basic_backends b) =? 0)%nat; [done|].
  destruct next_index as [idx c']. cbn [basic_backends basic_counter].
  destruct (basic_backends b !! idx) as [be|] eqn:Hbe; [|done].
  destruct (BackendImpl_Invoke o now be) as [r be'] eqn:Hi. cbn.
  apply (loads_insert _ _ be); [done|].
  change be' with (r, be').2. rewrite <- Hi. apply Invoke_load.
  by eapply loads_lookup_range.
Qed.

Lemma IntermediateBalancer_Invoke_loads o now now' b :
  Forall (λ l, - 2 ^ 63 ≤ l < 2 ^ 63) (loads (inter_backends b)) →
  loads (inter_backends (IntermediateBalancer_Invoke o now now' b).2)
  = loads (inter_backends b).
Proof.
  intros Hr. unfold IntermediateBalancer_Invoke.
  pose proof (IntermediateBalancer_GetNextServer_loads now b) as Hs.
  destruct (IntermediateBalancer_GetNextServer now b) as [[i|] b1];
    cbn in Hs; [|done].
  destruct (inter_backends b1 !! i) as [be|] eqn:Hbe; [|done].
  destruct (BackendImpl_Invoke o now' be) as [r be'] eqn:Hi. cbn.
  rewrite <- Hs. apply (loads_insert _ _ be); [done|].
  transitivity (activeRequests be').
  - unfold inter_settle. by repeat case_match.
  - change be' with (r, be').2. rewrite <- Hi. apply Invoke_load.
    rewrite <- Hs in Hr. by eapply loads_lookup_range.
Qed.

Lemma AdvancedBalancer_Invoke_loads o now now' b :
  Forall (λ l, - 2 ^ 63 ≤ l < 2 ^ 63) (loads (adv_backends b)) →
  loads (adv_backends (AdvancedBalancer_Invoke o now now' b).2)
  = loads (adv_backends b).
Proof.
  intros Hr. unfold AdvancedBalancer_Invoke.
  pose proof (AdvancedBalancer_GetNextServer_loads now b) as Hs.
  destruct (AdvancedBalancer_GetNextServer now b) as [[i|] b1];
    cbn in Hs; [|done].
  rewrite <- Hs in Hr.
  pose proof (AdvancedBalancer_call_loads i o now' b1 Hr) as Hc.
  destruct (AdvancedBalancer_call i o now' b1) as [r b2]. cbn in Hc.
  rewrite AdvancedBalancer_settle_loads. congruence.
Qed.

(** C6. [BackendImpl.Invoke] adds one to [activeRequests] before the
    exchange and takes one away when it returns, whatever the exchange did
    (request not built, transport error or cancellation, bad status,
    success): after the call the load is what it was before.  In any
    history of overlapping calls on a backend, from its construction on,
    the load is the number of calls in flight, so it is never negative.  An
    [Invoke] of any of the three balancers leaves the load of every backend
    as it was. *)
Theorem C6_load_bracketed (o : Outcome) (now : Time) (b : BackendImpl)
    (a : string) (evs : list BackendEvent) (b' : BackendImpl) (k : nat)
    (Hb : 0 ≤ activeRequests b < 2 ^ 63 - 1)
    (Hrun : run_events evs (NewBackend a) 0 = Some (b', k))
    (Hlen : Z.of_nat (length evs) < 2 ^ 63) :
  let entered := BackendImpl_Invoke_enter b in
  let called := (BackendImpl_Invoke_call o now entered).2 in
  (BackendImpl_GetLoad entered = BackendImpl_GetLoad b + 1
   ∧ BackendImpl_GetLoad called = BackendImpl_GetLoad b + 1
   ∧ BackendImpl_GetLoad (BackendImpl_Invoke_leave called)
     = BackendImpl_GetLoad called - 1
   ∧ (BackendImpl_Invoke o now b).2 = BackendImpl_Invoke_leave called
   ∧ BackendImpl_GetLoad (BackendImpl_Invoke o now b).2 = BackendImpl_GetLoad b)
  ∧ (BackendImpl_GetLoad b' = Z.of_nat k ∧ 0 ≤ BackendImpl_GetLoad b')
  ∧ (∀ o1 t1 bal,
       Forall (λ l, - 2 ^ 63 ≤ l < 2 ^ 63) (loads (basic_backends bal)) →
       loads (basic_backends (BasicBalancer_Invoke o1 t1 bal).2)
       = loads (basic_backends bal))
  ∧ (∀ o1 t1 t2 bal,
       Forall (λ l, - 2 ^ 63 ≤ l < 2 ^ 63) (loads (inter_backends bal)) →
       loads (inter_backends (IntermediateBalancer_Invoke o1 t1 t2 bal).2)
       = loads (inter_backends bal))
  ∧ (∀ o1 t1 t2 bal,
       Forall (λ l, - 2 ^ 63 ≤ l < 2 ^ 63) (loads (adv_backends bal)) →
       loads (adv_backends (AdvancedBalancer_Invoke o1 t1 t2 bal).2)
       = loads (adv_backends bal)).
Proof.
  cbn zeta. unfold BackendImpl_GetLoad. split_and!.
  - cbn. unfold atomic_AddInt64. rewrite int64_small; lia.
  - rewrite Invoke_call_load. cbn. unfold atomic_AddInt64.
    rewrite int64_small; lia.
  - cbn. rewrite Invoke_call_load. cbn. unfold atomic_AddInt64.
    rewrite (int64_small (activeRequests b + 1)) by lia.
    rewrite int64_small; lia.
  - by rewrite Invoke_unfold.
  - apply Invoke_load. lia.
  - by apply (run_events_load evs (NewBackend a) 0%nat b' k); [| |lia].
  - rewrite (run_events_load evs (NewBackend a) 0%nat b' k); [lia|done..|lia].
  - intros. by apply BasicBalancer_Invoke_loads.
  - intros. by apply IntermediateBalancer_Invoke_loads.
  - intros. by apply AdvancedBalancer_Invoke_loads.
Qed.

(** C6 on a backend with four calls in flight whose fifth call is
    cancelled, and on a history of three overlapping calls of which two
    have returned. *)
Lemma C6_load_bracketed_witness :
  BackendImpl_GetLoad
    (BackendImpl_Invoke (DoError "context canceled") 10
       (mkBackend "a" 0 0 1 4)).2 = 4
  ∧ BackendImpl_GetLoad
      (mkBackend "a" 1 7 1 1) = 1.
Proof.
  pose proof (C6_load_bracketed (DoError "context canceled") 10
                (mkBackend "a" 0 0 1 4) "a"
                [EvEnter; EvEnter; EvCall (DoStatus 200) 5; EvEnter;
                 EvCall (DoError "reset") 7; EvLeave; EvLeave]
                (mkBackend "a" 1 7 1 1) 1
                ltac:(cbn; lia) eq_refl ltac:(cbn; lia)) as H.
  cbn zeta in H. split.
  - exact (proj2 (proj2 (proj2 (proj2 (proj1 H))))).
  - exact (proj1 (proj1 (proj2 H))).
Defined.

(** ** The failure counter *)

(** C4 fails on the code: nothing resets [failureCount] when a call
    succeeds.  A successful exchange leaves the counter of any backend as it
    was; so after two failed calls and one successful call through the
    health-aware balancer the counter is 2, and after one failed call and
    one successful call through the load-aware balancer it is 2 as well. *)
Theorem C4_success_keeps_failureCount :
  (∀ now b,
     (BackendImpl_Invoke (DoStatus 200) now b).1
     = Ok ("Success from " +:+ addr b)
     ∧ failureCount (BackendImpl_Invoke (DoStatus 200) now b).2
       = failureCount b)
  ∧ (let b0 := NewIntermediateLoadBalancer ["a"]%string in
     let '(r1, b1) := IntermediateBalancer_Invoke (DoError "refused") 1 2 b0 in
     let '(r2, b2) := IntermediateBalancer_Invoke (DoStatus 503) 3 4 b1 in
     let '(r3, b3) := IntermediateBalancer_Invoke (DoStatus 200) 5 6 b2 in
     r3 = Ok "Success from a"
     ∧ failureCount <$> inter_backends b3 = [2])
  ∧ (let b0 := NewAdvancedLoadBalancer 0 ["a"]%string in
     let '(r1, b1) := AdvancedBalancer_Invoke (DoError "refused") 1 2 b0 in
     let '(r2, b2) := AdvancedBalancer_Invoke (DoStatus 200) 3 4 b1 in
     r2 = Ok "Success from a"
     ∧ failureCount <$> adv_backends b2 = [2]).
Proof.
  split_and!.
  - intros now b. by rewrite Invoke_unfold.
  - vm_compute. done.
  - vm_compute. done.
Qed.

(** ** Exclusion by the health-aware balancer *)

Lemma IsHealthy_excluded now be :
  excluded_at now be → BackendImpl_IsHealthy now be = (false, be).
Proof.
  intros [Hh Hc]. unfold BackendImpl_IsHealthy.
  destruct (Z.eqb_spec (healthy be) 1); [done|].
  destruct (Z.ltb_spec coolDown (time_Since now (lastFailure be))); [lia|done].
Qed.

Lemma IsHealthy_flagged now be :
  healthy be = 1 → BackendImpl_IsHealthy now be = (true, be).
Proof. intros Hh. unfold BackendImpl_IsHealthy. by rewrite Hh. Qed.



(** The backend a selection returns is in the list. *)
Lemma inter_scan_selected k now bs c i :
  (inter_scan k now bs c).1 = Some i →
  is_Some ((inter_scan k now bs c).2.1 !! i).
Proof.
  revert bs c. induction k as [|k IH]; intros bs c; [done|].
  cbn [inter_scan]. destruct (next_index c (length bs)) as [idx c'].
  destruct (bs !! idx) as [be0|] eqn:Hidx; [|done].
  destruct (BackendImpl_IsHealthy now be0) as [ok be0'] eqn:Hh.
  destruct ok; [|by apply IH].
  cbn. intros [= ->]. apply lookup_lt_is_Some. rewrite length_insert.
  by eapply lookup_lt_Some.
Qed.

















(** ** Failure counting by the load-aware balancer *)

Lemma insert_keeps (bs : list BackendImpl) (x i : nat) (be0 be0' be : BackendImpl) now ok :
  bs !! x = Some be0 → BackendImpl_IsHealthy now be0 = (ok, be0') →
  bs !! i = Some be → (BackendImpl_IsHealthy now be).2 = be →
  <[x := be0']> bs !! i = Some be.
Proof.
  intros Hx Hh Hi Hkeep. destruct (decide (x = i)) as [->|Hne].
  - rewrite Hi in Hx. simplify_eq. rewrite Hh in Hkeep. cbn in Hkeep. subst.
    rewrite list_lookup_insert_eq; [done|]. by eapply lookup_lt_Some.
  - by rewrite list_lookup_insert_ne.
Qed.

Lemma refill_step_keeps now st x i be :
  st.1 !! i = Some be → (BackendImpl_IsHealthy now be).2 = be →
  (refill_step now st x).1 !! i = Some be.
Proof.
  destruct st as [bs h]. cbn [fst refill_step]. intros Hi Hkeep.
  destruct (bs !! x) as [be0|] eqn:Hx; [|done].
  destruct (BackendImpl_IsHealthy now be0) as [ok be0'] eqn:Hh.
  pose proof (insert_keeps bs x i be0 be0' be now ok Hx Hh Hi Hkeep).
  by destruct ok.
Qed.

Lemma refill_keeps now bs h i be :
  bs !! i = Some be → (BackendImpl_IsHealthy now be).2 = be →
  (refill now bs h).1 !! i = Some be.
Proof.
  unfold refill. generalize (seq 0 (length bs)). intros l.
  change bs with (bs, h).1 at 1. generalize (bs, h).
  induction l as [|x l IH]; intros st Hi Hkeep; [done|].
  cbn [foldl]. apply IH; [|done]. by apply refill_step_keeps.
Qed.

Lemma pop_healthy_keeps fuel now bs h i be :
  bs !! i = Some be → (BackendImpl_IsHealthy now be).2 = be →
  (pop_healthy fuel now bs h).2.1 !! i = Some be.
Proof.
  revert bs h. induction fuel as [|fuel IH]; intros bs h Hi Hkeep; [done|].
  cbn [pop_healthy]. destruct (backendHeap_Len h =? 0)%nat; [done|].
  destruct (heap_Pop bs h) as [[x|] h']; [|done].
  destruct (bs !! x) as [be0|] eqn:Hx; [|done].
  destruct (BackendImpl_IsHealthy now be0) as [ok be0'] eqn:Hh.
  pose proof (insert_keeps bs x i be0 be0' be now ok Hx Hh Hi Hkeep).
  destruct ok; [done|]. by apply IH.
Qed.

Lemma AdvancedBalancer_GetNextServer_keeps now b i be :
  adv_backends b !! i = Some be → (BackendImpl_IsHealthy now be).2 = be →
  adv_backends (AdvancedBalancer_GetNextServer now b).2 !! i = Some be.
Proof.
  intros Hi Hkeep. unfold AdvancedBalancer_GetNextServer.
  destruct (backendHeap_Len (adv_heap b) =? 0)%nat.
  - pose proof (refill_keeps now (adv_backends b) (adv_heap b) i be Hi Hkeep)
      as Hr.
    destruct refill as [bs1 h1]. cbn [fst] in Hr.
    destruct (backendHeap_Len h1 =? 0)%nat; [done|].
    pose proof (pop_healthy_keeps (backendHeap_Len h1) now bs1 h1 i be Hr Hkeep)
      as Hp.
    by destruct pop_healthy as [sel [bs2 h2]].
  - destruct (backendHeap_Len (adv_heap b) =? 0)%nat; [done|].
    pose proof (pop_healthy_keeps (backendHeap_Len (adv_heap b)) now
                  (adv_backends b) (adv_heap b) i be Hi Hkeep) as Hp.
    by destruct pop_healthy as [sel [bs2 h2]].
Qed.

(** The effect of [Invoke] on the backend it selected, split as the code
    is: selection, [backend.Invoke], bookkeeping under [b.mu]. *)
Lemma AdvancedBalancer_Invoke_unfold o now now' b i b1 be :
  AdvancedBalancer_GetNextServer now b = (Some i, b1) →
  adv_backends b1 !! i = Some be →
  AdvancedBalancer_Invoke o now now' b =
  AdvancedBalancer_settle i (BackendImpl_Invoke o now' be).1
    {| adv_backends := <[i := (BackendImpl_Invoke o now' be).2]> (adv_backends b1);
       adv_heap := adv_heap b1 |}.
Proof.
  intros Hs Hi. unfold AdvancedBalancer_Invoke. rewrite Hs.
  unfold AdvancedBalancer_call. rewrite Hi.
  by destruct (BackendImpl_Invoke o now' be) as [r be'].
Qed.

Lemma Invoke_exchange_failed o now be :
  exchange_failed o = true →
  ∃ e, BackendImpl_Invoke o now be
       = (Err e, BackendImpl_Invoke_leave
                   (record_failure now (BackendImpl_Invoke_enter be))).
Proof.
  intros Hf. rewrite Invoke_unfold. destruct o as [c|c|code]; [done| |].
  - by eexists.
  - cbn in *. rewrite Hf. by eexists.
Qed.

Lemma AdvancedBalancer_failed_call o now now' b i b1 be :
  exchange_failed o = true →
  AdvancedBalancer_GetNextServer now b = (Some i, b1) →
  adv_backends b1 !! i = Some be →
  - 2 ^ 31 ≤ failureCount be < 2 ^ 31 - 2 →
  let res := AdvancedBalancer_Invoke o now now' b in
  is_Err res.1 = true
  ∧ failureCount (BackendImpl_Invoke o now' be).2 = failureCount be + 1
  ∧ ∃ be',
      adv_backends res.2 !! i = Some be'
      ∧ failureCount be' = failureCount be + 2
      ∧ lastFailure be' = now'
      ∧ healthy be' = (if failureCount be + 2 >=? maxFailureCount then 0
                       else healthy be).
Proof.
  intros Hf Hs Hi Hfc. cbn zeta.
  rewrite (AdvancedBalancer_Invoke_unfold o now now' b i b1 be Hs Hi).
  destruct (Invoke_exchange_failed o now' be Hf) as [e ->].
  cbn [fst snd]. unfold AdvancedBalancer_settle. cbn [adv_backends adv_heap].
  assert (i < length (adv_backends b1))%nat as Hlt by (by eapply lookup_lt_Some).
  rewrite list_lookup_insert_eq by done.
  cbn [failureCount set_failureCount BackendImpl_Invoke_leave
       BackendImpl_Invoke_enter record_failure set_activeRequests
       set_lastFailure].
  rewrite (int32_small (failureCount be + 1)) by lia.
  rewrite (int32_small (failureCount be + 1 + 1)) by lia.
  replace (failureCount be + 1 + 1) with (failureCount be + 2) by lia.
  split; [|split; [done|]].
  - by case_match.
  - destruct (failureCount be + 2 >=? maxFailureCount); cbn [snd adv_backends];
      rewrite list_insert_insert_eq, list_lookup_insert_eq by done;
      eexists; split_and!; done.
Qed.

(** What a call that fails while the request is built does to the backend
    that was selected for it: [BackendImpl.Invoke] returns before its
    bookkeeping, [AdvancedBalancer.Invoke] counts the failure. *)
Lemma AdvancedBalancer_request_error e now now' b i b1 be :
  AdvancedBalancer_GetNextServer now b = (Some i, b1) →
  adv_backends b1 !! i = Some be →
  - 2 ^ 31 ≤ failureCount be < 2 ^ 31 - 1 →
  let res := AdvancedBalancer_Invoke (RequestError e) now now' b in
  res.1 = Err (ErrAdvancedFailed (ErrCreateRequest e))
  ∧ failureCount (BackendImpl_Invoke (RequestError e) now' be).2
    = failureCount be
  ∧ ∃ be',
      adv_backends res.2 !! i = Some be'
      ∧ failureCount be' = failureCount be + 1
      ∧ lastFailure be' = lastFailure be
      ∧ healthy be' = (if failureCount be + 1 >=? maxFailureCount then 0
                       else healthy be).
Proof.
  intros Hs Hi Hfc. cbn zeta.
  rewrite (AdvancedBalancer_Invoke_unfold (RequestError e) now now' b i b1 be Hs Hi).
  rewrite Invoke_unfold.
  cbn [fst snd BackendImpl_Invoke_call]. unfold AdvancedBalancer_settle.
  cbn [adv_backends adv_heap].
  assert (i < length (adv_backends b1))%nat as Hlt by (by eapply lookup_lt_Some).
  rewrite list_lookup_insert_eq by done.
  cbn [failureCount set_failureCount BackendImpl_Invoke_leave
       BackendImpl_Invoke_enter set_activeRequests].
  rewrite (int32_small (failureCount be + 1)) by lia.
  split; [|split; [done|]].
  - by case_match.
  - destruct (failureCount be + 1 >=? maxFailureCount); cbn [snd adv_backends];
      rewrite list_insert_insert_eq, list_lookup_insert_eq by done;
      eexists; split_and!; done.
Qed.

(** C8 as stated fails for a call that fails before the exchange: when the
    request cannot be built, [BackendImpl.Invoke] returns early without
    counting, and only [AdvancedBalancer.Invoke] counts.  Such a failed call
    raises the counter by 1, and after two of them in a row the counter is 2
    and the backend is still flagged healthy. *)
Lemma C8_counterexample_request_error :
  (AdvancedBalancer_invokes
     [(RequestError "invalid character in host name", 1, 1)]
     (NewAdvancedLoadBalancer 0 ["bad host"]%string))
  = ([Err (ErrAdvancedFailed
             (ErrCreateRequest "invalid character in host name"))],
     {| adv_backends := [mkBackend "bad host" 1 0 1 0]; adv_heap := [0%nat] |})
  ∧ (AdvancedBalancer_invokes
       [(RequestError "invalid character in host name", 1, 1);
        (RequestError "invalid character in host name", 2, 2)]
       (NewAdvancedLoadBalancer 0 ["bad host"]%string)).2
    = {| adv_backends := [mkBackend "bad host" 2 0 1 0]; adv_heap := [0%nat] |}.
Proof. vm_compute. done. Qed.

(** C8, amended.  A call of [AdvancedBalancer.Invoke] that fails in the
    HTTP exchange (transport error, or a status outside 2xx) raises the
    [failureCount] of the backend it selected by exactly 2: by one inside
    [BackendImpl.Invoke] and by one more in [AdvancedBalancer.Invoke].  So a
    backend with no failure on record is past the threshold of 3, and
    flagged unhealthy, after two such calls in a row.  A call that fails
    while the request is built raises the count by exactly 1:
    [BackendImpl.Invoke] returns before its bookkeeping, leaving count and
    failure time as they were, and only [AdvancedBalancer.Invoke] counts. *)
Theorem C8_failed_call_counts_twice
    (b : AdvancedBalancer) (i : nat) (b' : AdvancedBalancer) (be : BackendImpl)
    (now now' : Time)
    (Hsel : AdvancedBalancer_GetNextServer now b = (Some i, b'))
    (Hbe : adv_backends b' !! i = Some be)
    (Hfc : - 2 ^ 31 ≤ failureCount be < 2 ^ 31 - 4) :
  (∀ o,
     exchange_failed o = true →
     let res := AdvancedBalancer_Invoke o now now' b in
     is_Err res.1 = true
     ∧ failureCount (BackendImpl_Invoke o now' be).2 = failureCount be + 1
     ∧ (∃ be1,
          adv_backends res.2 !! i = Some be1
          ∧ failureCount be1 = failureCount be + 2)
     ∧ (failureCount be = 0 → healthy be = 1 →
        ∀ o2 s2 t2,
          exchange_failed o2 = true →
          (AdvancedBalancer_GetNextServer s2 res.2).1 = Some i →
          let res2 := AdvancedBalancer_Invoke o2 s2 t2 res.2 in
          is_Err res2.1 = true
          ∧ healthy <$> adv_backends res.2 !! i = Some 1
          ∧ failureCount <$> adv_backends res.2 !! i = Some 2
          ∧ failureCount <$> adv_backends res2.2 !! i = Some 4
          ∧ healthy <$> adv_backends res2.2 !! i = Some 0))
  ∧ (∀ e,
       let res := AdvancedBalancer_Invoke (RequestError e) now now' b in
       res.1 = Err (ErrAdvancedFailed (ErrCreateRequest e))
       ∧ failureCount (BackendImpl_Invoke (RequestError e) now' be).2
         = failureCount be
       ∧ ∃ be1,
           adv_backends res.2 !! i = Some be1
           ∧ failureCount be1 = failureCount be + 1
           ∧ lastFailure be1 = lastFailure be
           ∧ healthy be1 = (if failureCount be + 1 >=? maxFailureCount then 0
                            else healthy be)).
Proof.
  split.
  - intros o Hf. cbn zeta.
    destruct (AdvancedBalancer_failed_call o now now' b i b' be Hf Hsel Hbe
                ltac:(lia)) as (He & Hone & be1 & Hi1 & Hfc1 & _ & Hh1).
    split_and!; [done|done|by exists be1|].
    intros Hzero Hh o2 s2 t2 Hf2 Hsel2.
    rewrite Hzero in Hh1, Hfc1. rewrite Hh in Hh1.
    assert (healthy be1 = 1) as Hh1' by exact Hh1.
    pose proof (AdvancedBalancer_GetNextServer_keeps s2 _ i be1 Hi1) as Hk.
    rewrite IsHealthy_flagged in Hk by exact Hh1'. specialize (Hk eq_refl).
    destruct (AdvancedBalancer_GetNextServer s2
                (AdvancedBalancer_Invoke o now now' b).2) as [sel2 b2] eqn:Hs2.
    cbn in Hsel2, Hk. subst sel2.
    destruct (AdvancedBalancer_failed_call o2 s2 t2 _ i b2 be1 Hf2 Hs2 Hk
                ltac:(lia)) as (He2 & _ & be2 & Hi2 & Hfc2 & _ & Hh2).
    rewrite Hfc1 in Hh2, Hfc2.
    change (0 + 2 >=? maxFailureCount) with false in Hh1.
    change (0 + 2 + 2 >=? maxFailureCount) with true in Hh2.
    rewrite Hi1, Hi2. cbn. rewrite Hh1, Hh2, Hfc1, Hfc2. done.
  - intros e.
    apply (AdvancedBalancer_request_error e now now' b i b' be Hsel Hbe). lia.
Qed.

(** C8 on a balancer over one backend, a refused connection and then a
    status 502. *)
Lemma C8_failed_call_counts_twice_witness :
  failureCount <$>
    adv_backends
      (AdvancedBalancer_Invoke (DoStatus 502) 3 4
         (AdvancedBalancer_Invoke (DoError "connection refused") 1 2
            (NewAdvancedLoadBalancer 0 ["a"]%string)).2).2 !! 0%nat
  = Some 4.
Proof.
  pose proof (proj1 (C8_failed_call_counts_twice
                (NewAdvancedLoadBalancer 0 ["a"]%string) 0
                {| adv_backends := [NewBackend "a"]; adv_heap := [] |}
                (NewBackend "a") 1 2
                eq_refl eq_refl ltac:(cbn; lia))
                (DoError "connection refused") eq_refl) as H.
  cbn zeta in H.
  destruct H as (_ & _ & _ & H).
  exact (proj1 (proj2 (proj2 (proj2
           (H eq_refl eq_refl (DoStatus 502) 3 4 eq_refl eq_refl))))).
Defined.

(** ** The error for "no backend" *)

Lemma inter_scan_all_excluded k now bs c :
  Forall (excluded_at now) bs → (inter_scan k now bs c).1 = None.
Proof.
  intros Hall. revert c. induction k as [|k IH]; intros c; [done|].
  cbn [inter_scan]. destruct (next_index c (length bs)) as [idx c'].
  destruct (bs !! idx) as [be|] eqn:Hidx; [|done].
  rewrite IsHealthy_excluded by (by eapply Forall_lookup_1).
  rewrite list_insert_id by done. apply IH.
Qed.

Lemma refill_all_excluded now bs h :
  Forall (excluded_at now) bs → refill now bs h = (bs, h).
Proof.
  intros Hall. unfold refill. generalize (seq 0 (length bs)). intros l.
  induction l as [|x l IH]; [done|].
  cbn [foldl]. replace (refill_step now (bs, h) x) with (bs, h); [done|].
  cbn [refill_step]. destruct (bs !! x) as [be|] eqn:Hx; [|done].
  rewrite IsHealthy_excluded by (by eapply Forall_lookup_1).
  by rewrite list_insert_id.
Qed.

Lemma pop_healthy_all_excluded fuel now bs h :
  Forall (excluded_at now) bs → (pop_healthy fuel now bs h).1 = None.
Proof.
  intros Hall. revert h. induction fuel as [|fuel IH]; intros h; [done|].
  cbn [pop_healthy]. destruct (backendHeap_Len h =? 0)%nat; [done|].
  destruct (heap_Pop bs h) as [[x|] h']; [|done].
  destruct (bs !! x) as [be|] eqn:Hx; [|done].
  rewrite IsHealthy_excluded by (by eapply Forall_lookup_1).
  rewrite list_insert_id by done. apply IH.
Qed.

Lemma AdvancedBalancer_GetNextServer_all_excluded now b :
  Forall (excluded_at now) (adv_backends b) →
  (AdvancedBalancer_GetNextServer now b).1 = None.
Proof.
  intros Hall. unfold AdvancedBalancer_GetNextServer.
  rewrite refill_all_excluded by done.
  assert ((if (backendHeap_Len (adv_heap b) =? 0)%nat
           then (adv_backends b, adv_heap b)
           else (adv_backends b, adv_heap b)) = (adv_backends b, adv_heap b))
    as -> by (by case_match).
  destruct (backendHeap_Len (adv_heap b) =? 0)%nat; [done|].
  pose proof (pop_healthy_all_excluded (backendHeap_Len (adv_heap b)) now
                (adv_backends b) (adv_heap b) Hall) as Hp.
  by destruct pop_healthy as [sel [bs2 h2]].
Qed.

(** The errors [BackendImpl.Invoke] makes wrap no error of the package. *)
Lemma Invoke_error o now be e :
  (BackendImpl_Invoke o now be).1 = Err e →
  error_chain e = [e] ∧ e ≠ ErrNoAvailableBackends ∧ e ≠ ErrBackendServersEmpty.
Proof.
  rewrite Invoke_unfold. cbn [fst]. unfold BackendImpl_Invoke_call.
  destruct o as [c|c|code]; [| |case_match];
    intros [= <-]; done.
Qed.

Lemma AdvancedBalancer_settle_error i r b e :
  (AdvancedBalancer_settle i r b).1 = Err e →
  ∃ e0, r = Err e0 ∧ e = ErrAdvancedFailed e0.
Proof.
  unfold AdvancedBalancer_settle. destruct r as [resp|e0|]; [done| |done].
  destruct (adv_backends b !! i); [|done].
  case_match; intros [= <-]; by eexists.
Qed.

(** C9. For the three balancers of package golb, whenever the selection
    returns no backend, [Invoke] returns [ErrBackendServersEmpty], whose
    message is "backend server list is empty"; this is so for an empty
    backend list and, for the health-aware and load-aware balancers, when
    every backend is excluded.  No [Invoke], of a backend or of a balancer,
    returns [ErrNoAvailableBackends], bare or wrapped.
    [selector.BasicBalancer.Invoke] returns the sentinel of its own package,
    with the same message. *)
Theorem C9_no_backend_error :
  error_message ErrBackendServersEmpty = Some "backend server list is empty"%string
  ∧ (∀ o now b,
       (BasicBalancer_GetNextServer b).1 = None →
       (BasicBalancer_Invoke o now b).1 = Err ErrBackendServersEmpty)
  ∧ (∀ o now now' b,
       (IntermediateBalancer_GetNextServer now b).1 = None →
       (IntermediateBalancer_Invoke o now now' b).1 = Err ErrBackendServersEmpty)
  ∧ (∀ o now now' b,
       (AdvancedBalancer_GetNextServer now b).1 = None →
       (AdvancedBalancer_Invoke o now now' b).1 = Err ErrBackendServersEmpty)
  ∧ (∀ c, (BasicBalancer_GetNextServer (mkBasic [] c)).1 = None)
  ∧ (∀ now c,
       (IntermediateBalancer_GetNextServer now (mkIntermediate [] c)).1 = None)
  ∧ (∀ now, (AdvancedBalancer_GetNextServer now (mkAdvanced [] [])).1 = None)
  ∧ (∀ now bs c,
       Forall (excluded_at now) bs →
       (IntermediateBalancer_GetNextServer now (mkIntermediate bs c)).1 = None)
  ∧ (∀ now bs h,
       Forall (excluded_at now) bs →
       (AdvancedBalancer_GetNextServer now (mkAdvanced bs h)).1 = None)
  ∧ (∀ o now be e,
       (BackendImpl_Invoke o now be).1 = Err e →
       ErrNoAvailableBackends ∉ error_chain e)
  ∧ (∀ o now b e,
       (BasicBalancer_Invoke o now b).1 = Err e →
       ErrNoAvailableBackends ∉ error_chain e)
  ∧ (∀ o now now' b e,
       (IntermediateBalancer_Invoke o now now' b).1 = Err e →
       ErrNoAvailableBackends ∉ error_chain e)
  ∧ (∀ o now now' b e,
       (AdvancedBalancer_Invoke o now now' b).1 = Err e →
       ErrNoAvailableBackends ∉ error_chain e)
  ∧ (∀ req b,
       (selector.NextServer b).1 = None →
       (selector.Invoke req b).1 = inr (Some selector.ErrBackendServersEmpty))
  ∧ selector.error_message selector.ErrBackendServersEmpty
    = "backend server list is empty"%string.
Proof.
  assert (Hnot : ∀ o now be e, (BackendImpl_Invoke o now be).1 = Err e →
                   ErrNoAvailableBackends ∉ error_chain e).
  { intros o now be e He. apply Invoke_error in He as (-> & Hne & _).
    intros Hin. apply list_elem_of_singleton in Hin. done. }
  split_and!.
  - done.
  - intros o now b Hs. unfold BasicBalancer_Invoke.
    destruct (BasicBalancer_GetNextServer b) as [sel b1]. cbn in Hs. by subst.
  - intros o now now' b Hs. unfold IntermediateBalancer_Invoke.
    destruct (IntermediateBalancer_GetNextServer now b) as [sel b1].
    cbn in Hs. by subst.
  - intros o now now' b Hs. unfold AdvancedBalancer_Invoke.
    destruct (AdvancedBalancer_GetNextServer now b) as [sel b1].
    cbn in Hs. by subst.
  - done.
  - done.
  - done.
  - intros now bs c Hall. unfold IntermediateBalancer_GetNextServer. cbn.
    destruct (length bs =? 0)%nat; [done|].
    pose proof (inter_scan_all_excluded (length bs) now bs c Hall) as Hs.
    by destruct inter_scan as [r [bs' c']].
  - intros now bs h Hall.
    by apply AdvancedBalancer_GetNextServer_all_excluded.
  - done.
  - intros o now b e. unfold BasicBalancer_Invoke.
    destruct (BasicBalancer_GetNextServer b) as [[i|] b1]; cbn.
    + destruct (basic_backends b1 !! i) as [be|]; [|done].
      pose proof (Hnot o now be) as Hn.
      destruct (BackendImpl_Invoke o now be) as [r be']. cbn in *. apply Hn.
    + intros [= <-]. cbn. intros Hin.
      apply list_elem_of_singleton in Hin. done.
  - intros o now now' b e. unfold IntermediateBalancer_Invoke.
    destruct (IntermediateBalancer_GetNextServer now b) as [[i|] b1]; cbn.
    + destruct (inter_backends b1 !! i) as [be|]; [|done].
      pose proof (Hnot o now' be) as Hn.
      destruct (BackendImpl_Invoke o now' be) as [r be']. cbn in *. apply Hn.
    + intros [= <-]. cbn. intros Hin.
      apply list_elem_of_singleton in Hin. done.
  - intros o now now' b e. unfold AdvancedBalancer_Invoke.
    destruct (AdvancedBalancer_GetNextServer now b) as [[i|] b1]; cbn.
    + unfold AdvancedBalancer_call.
      destruct (adv_backends b1 !! i) as [be|].
      * pose proof (Invoke_error o now' be) as Hn.
        destruct (BackendImpl_Invoke o now' be) as [r be']. cbn in Hn.
        intros He. apply AdvancedBalancer_settle_error in He as (e0 & -> & ->).
        destruct (Hn e0 eq_refl) as (Hc & Hne & _).
        cbn [error_chain]. rewrite Hc. intros Hin.
        apply elem_of_cons in Hin as [?|Hin]; [done|].
        apply list_elem_of_singleton in Hin. done.
      * intros He. by apply AdvancedBalancer_settle_error in He as (e0 & ? & _).
    + intros [= <-]. cbn. intros Hin.
      apply list_elem_of_singleton in Hin. done.
  - intros req b Hs. unfold selector.Invoke.
    destruct (selector.NextServer b) as [sel b1]. cbn in Hs. by subst.
  - done.
Qed.

(** C9 on balancers without a backend, and on one whose only backend is
    excluded. *)
Lemma C9_no_backend_error_witness :
  (IntermediateBalancer_Invoke (DoStatus 200) 5 6
     (mkIntermediate [mkBackend "a" 3 4 0 0] 0)).1
  = Err ErrBackendServersEmpty
  ∧ (AdvancedBalancer_Invoke (DoStatus 200) 5 6 (mkAdvanced [] [])).1
    = Err ErrBackendServersEmpty.
Proof.
  split.
  - apply (proj1 (proj2 (proj2 C9_no_backend_error))). reflexivity.
  - apply (proj1 (proj2 (proj2 (proj2 C9_no_backend_error)))). reflexivity.
Defined.

(** ** The order of the heap *)

Lemma string_ltb_lt (s1 s2 : string) :
  String.ltb s1 s2 = true ↔ String_as_OT.lt s1 s2.
Proof.
  unfold String.ltb. rewrite <- String_as_OT.cmp_lt. unfold String_as_OT.cmp.
  destruct (String.compare s1 s2); split; congruence.
Qed.

Lemma string_ltb_irrefl (s : string) : String.ltb s s = false.
Proof.
  destruct (String.ltb s s) eqn:H; [|done].
  apply string_ltb_lt in H. by apply String_as_OT.lt_not_eq in H.
Qed.

Lemma string_ltb_trans (a b c : string) :
  String.ltb a b = true → String.ltb b c = true → String.ltb a c = true.
Proof.
  rewrite !string_ltb_lt. apply String_as_OT.lt_trans.
Qed.

Lemma string_ltb_total (a b : string) :
  String.ltb a b = false → String.ltb b a = false → a = b.
Proof.
  unfold String.ltb. rewrite (String.compare_antisym a b).
  destruct (String.compare b a) eqn:Hc; cbn; try done.
  intros _ _. symmetry. by apply String.compare_eq_iff.
Qed.

Lemma string_ltb_asym (a b : string) :
  String.ltb a b = true → String.ltb b a = false.
Proof.
  intros Hab. destruct (String.ltb b a) eqn:Hba; [|done].
  pose proof (string_ltb_trans a b a Hab Hba) as H.
  by rewrite string_ltb_irrefl in H.
Qed.

Lemma string_le_trans (a b c : string) :
  String.ltb b a = false → String.ltb c b = false → String.ltb c a = false.
Proof.
  intros Hba Hcb. destruct (String.ltb c a) eqn:Hca; [|done].
  destruct (String.ltb a b) eqn:Hab.
  - by rewrite (string_ltb_trans c a b Hca Hab) in Hcb.
  - pose proof (string_ltb_total a b Hab Hba). subst. congruence.
Qed.

Lemma backend_less_spec (a b : BackendImpl) :
  backend_less a b = true ↔
  activeRequests a < activeRequests b
  ∨ (activeRequests a = activeRequests b ∧ String.ltb (addr a) (addr b) = true).
Proof.
  unfold backend_less, BackendImpl_GetLoad.
  rewrite orb_true_iff, andb_true_iff, Z.ltb_lt, Z.eqb_eq. done.
Qed.

Lemma backend_less_asym (a b : BackendImpl) :
  backend_less a b = true → backend_less b a = false.
Proof.
  intros Hab. destruct (backend_less b a) eqn:Hba; [|done].
  apply backend_less_spec in Hab, Hba.
  destruct Hab as [?|[? Hs1]], Hba as [?|[? Hs2]]; try lia.
  by rewrite (string_ltb_asym _ _ Hs1) in Hs2.
Qed.

(** "Not less" is transitive: it is the order [≤] on keys. *)
Lemma backend_le_trans (a b c : BackendImpl) :
  backend_less b a = false → backend_less c b = false →
  backend_less c a = false.
Proof.
  intros Hba Hcb. destruct (backend_less c a) eqn:Hca; [|done].
  apply backend_less_spec in Hca.
  assert (¬ (activeRequests b < activeRequests a
             ∨ activeRequests b = activeRequests a
               ∧ String.ltb (addr b) (addr a) = true)) as Hba'.
  { rewrite <- backend_less_spec. congruence. }
  assert (¬ (activeRequests c < activeRequests b
             ∨ activeRequests c = activeRequests b
               ∧ String.ltb (addr c) (addr b) = true)) as Hcb'.
  { rewrite <- backend_less_spec. congruence. }
  assert (activeRequests a ≤ activeRequests b) as Hab.
  { destruct (Z.lt_ge_cases (activeRequests b) (activeRequests a)); [|lia].
    exfalso. apply Hba'. by left. }
  assert (activeRequests b ≤ activeRequests c) as Hbc.
  { destruct (Z.lt_ge_cases (activeRequests c) (activeRequests b)); [|lia].
    exfalso. apply Hcb'. by left. }
  destruct Hca as [?|[Heq Hs]]; [lia|].
  assert (String.ltb (addr b) (addr a) = false) as H1.
  { destruct (String.ltb (addr b) (addr a)) eqn:E; [|done].
    exfalso. apply Hba'. right. split; [lia|done]. }
  assert (String.ltb (addr c) (addr b) = false) as H2.
  { destruct (String.ltb (addr c) (addr b)) eqn:E; [|done].
    exfalso. apply Hcb'. right. split; [lia|done]. }
  by rewrite (string_le_trans _ _ _ H1 H2) in Hs.
Qed.

Section heap_theory.
Local Open Scope nat_scope.
Context (bs : list BackendImpl).

Lemma handle_less_asym (x y : nat) :
  handle_less bs x y = true → handle_less bs y x = false.
Proof.
  unfold handle_less. destruct (bs !! x), (bs !! y); try done.
  apply backend_less_asym.
Qed.

Lemma handle_le_trans (x y z : nat) :
  y < length bs →
  handle_less bs y x = false → handle_less bs z y = false →
  handle_less bs z x = false.
Proof.
  intros Hy. destruct (lookup_lt_is_Some_2 bs y Hy) as [b Hb].
  unfold handle_less. rewrite Hb.
  destruct (bs !! x), (bs !! z); try done.
  apply backend_le_trans.
Qed.

Lemma Less_asym (h : backendHeap) (a b : nat) :
  backendHeap_Less bs h a b = true → backendHeap_Less bs h b a = false.
Proof.
  unfold backendHeap_Less. destruct (h !! a), (h !! b); try done.
  apply handle_less_asym.
Qed.

Lemma Less_le_trans (h : backendHeap) (a b c : nat) :
  handles_valid bs h → b < length h →
  backendHeap_Less bs h b a = false → backendHeap_Less bs h c b = false →
  backendHeap_Less bs h c a = false.
Proof.
  intros Hv Hb. destruct (lookup_lt_is_Some_2 h b Hb) as [y Hy].
  unfold backendHeap_Less. rewrite Hy.
  destruct (h !! a), (h !! c); try done.
  apply handle_le_trans. by eapply (Forall_lookup_1 _ _ _ _ Hv).
Qed.

Lemma transpose_inj (i j : nat) : Inj (=) (=) (transpose i j).
Proof. intros a b. unfold transpose. repeat case_decide; congruence. Qed.

Lemma Swap_lookup (h : backendHeap) (i j k : nat) :
  i < length h → j < length h →
  backendHeap_Swap h i j !! k = h !! transpose i j k.
Proof.
  intros Hi Hj. unfold backendHeap_Swap, transpose.
  destruct (lookup_lt_is_Some_2 h i Hi) as [x Hx].
  destruct (lookup_lt_is_Some_2 h j Hj) as [y Hy].
  rewrite Hx, Hy. case_decide as Hki.
  - subst k. rewrite list_lookup_insert_eq; [done|]. by rewrite length_insert.
  - rewrite list_lookup_insert_ne by done. case_decide as Hkj.
    + subst k. by rewrite list_lookup_insert_eq.
    + by rewrite list_lookup_insert_ne.
Qed.

Lemma Swap_length (h : backendHeap) (i j : nat) :
  length (backendHeap_Swap h i j) = length h.
Proof.
  unfold backendHeap_Swap. destruct (h !! i), (h !! j); try done.
  by rewrite !length_insert.
Qed.

Lemma Swap_Permutation (h : backendHeap) (i j : nat) :
  backendHeap_Swap h i j ≡ₚ h.
Proof.
  destruct (decide (i < length h)) as [Hi|Hi];
    [destruct (decide (j < length h)) as [Hj|Hj]|].
  - apply Permutation_inj. split; [apply Swap_length|].
    exists (transpose i j). split; [apply transpose_inj|].
    intros k. by apply Swap_lookup.
  - unfold backendHeap_Swap. rewrite (lookup_ge_None_2 h j) by lia.
    by destruct (h !! i).
  - unfold backendHeap_Swap. by rewrite (lookup_ge_None_2 h i) by lia.
Qed.

Lemma Less_Swap (h : backendHeap) (i j a b : nat) :
  i < length h → j < length h →
  backendHeap_Less bs (backendHeap_Swap h i j) a b
  = backendHeap_Less bs h (transpose i j a) (transpose i j b).
Proof.
  intros Hi Hj. unfold backendHeap_Less. by rewrite !Swap_lookup.
Qed.

Lemma handles_valid_Permutation (h h' : backendHeap) :
  h ≡ₚ h' → handles_valid bs h → handles_valid bs h'.
Proof. intros Hp. unfold handles_valid. by rewrite Hp. Qed.

Lemma parent_is_child (j : nat) : 0 < j → is_child ((j - 1) / 2) j.
Proof.
  intros Hj. unfold is_child.
  pose proof (Nat.div_mod_eq (j - 1) 2) as Hd.
  pose proof (Nat.mod_upper_bound (j - 1) 2 ltac:(lia)) as Hm. lia.
Qed.

Lemma is_child_parent (p c : nat) : is_child p c → (c - 1) / 2 = p ∧ 0 < c.
Proof.
  unfold is_child. intros Hc.
  pose proof (Nat.div_mod_eq (c - 1) 2) as Hd.
  pose proof (Nat.mod_upper_bound (c - 1) 2 ltac:(lia)) as Hm. lia.
Qed.

(** The heap order, said with children. *)
Lemma heap_ordered_children (h : backendHeap) :
  heap_ordered bs h ↔
  ∀ p c, c < length h → is_child p c → backendHeap_Less bs h c p = false.
Proof.
  split.
  - intros Ho p c Hc Hpc. destruct (is_child_parent p c Hpc) as [<- Hpos].
    apply Ho. lia.
  - intros Ho j Hj. apply Ho; [lia|]. apply parent_is_child. lia.
Qed.

Lemma Less_irrefl (h : backendHeap) (a : nat) :
  backendHeap_Less bs h a a = false.
Proof.
  destruct (backendHeap_Less bs h a a) eqn:H; [|done].
  pose proof (Less_asym h a a H). congruence.
Qed.

(** [heap.down] repairs a heap whose order is broken only between
    position [i] and its children. *)
Lemma heap_down_spec (fuel : nat) (h : backendHeap) (i n : nat) :
  n ≤ length h → handles_valid bs h → n ≤ fuel + i →
  (∀ p c, c < n → is_child p c → p ≠ i →
     backendHeap_Less bs h c p = false) →
  (∀ g c, c < n → is_child g i → is_child i c →
     backendHeap_Less bs h c g = false) →
  length (heap_down fuel bs h i n) = length h
  ∧ heap_down fuel bs h i n ≡ₚ h
  ∧ (∀ k, n ≤ k → heap_down fuel bs h i n !! k = h !! k)
  ∧ (∀ p c, c < n → is_child p c →
       backendHeap_Less bs (heap_down fuel bs h i n) c p = false).
Proof.
  revert h i. induction fuel as [|fuel IH]; intros h i Hn Hv Hfuel Hinv1 Hinv2.
  { cbn. split_and!; try done. intros p c Hc Hpc.
    destruct (decide (p = i)) as [->|Hne]; [|by apply Hinv1].
    unfold is_child in Hpc. lia. }
  cbn [heap_down]. destruct (Nat.leb_spec n (2 * i + 1)) as [Hleaf|Hj1].
  { split_and!; try done. intros p c Hc Hpc.
    destruct (decide (p = i)) as [->|Hne]; [|by apply Hinv1].
    unfold is_child in Hpc. lia. }
  set (j := if (2 * i + 1 + 1 <? n) && backendHeap_Less bs h (2 * i + 1 + 1) (2 * i + 1)
            then 2 * i + 1 + 1 else 2 * i + 1).
  assert (is_child i j ∧ j < n
          ∧ ∀ c, c < n → is_child i c → backendHeap_Less bs h c j = false)
    as (Hij & Hjn & Hmin).
  { unfold j, is_child.
    destruct (Nat.ltb_spec (2 * i + 1 + 1) n) as [Hj2|Hj2]; cbn [andb].
    - destruct (backendHeap_Less bs h (2 * i + 1 + 1) (2 * i + 1)) eqn:Hl.
      + split_and!; [lia|lia|]. intros c Hc [->| ->].
        * by apply Less_asym.
        * replace (2 * i + 2) with (2 * i + 1 + 1) by lia. apply Less_irrefl.
      + split_and!; [lia|lia|]. intros c Hc [->| ->].
        * apply Less_irrefl.
        * by replace (2 * i + 2) with (2 * i + 1 + 1) by lia.
    - split_and!; [lia|lia|]. intros c Hc [->| ->]; [apply Less_irrefl|lia]. }
  clearbody j.
  assert (i < j) as Hlt by (unfold is_child in Hij; lia).
  destruct (backendHeap_Less bs h j i) eqn:Hji; cbn [negb].
  - (* the smaller child is less than the hole: exchange, go down *)
    destruct (IH (backendHeap_Swap h i j) j) as (Hlen & Hperm & Hsuf & Hord).
    + rewrite Swap_length. lia.
    + eapply handles_valid_Permutation; [|exact Hv].
      symmetry. apply Swap_Permutation.
    + lia.
    + intros p c Hc Hpc Hpj. rewrite Less_Swap by lia. unfold transpose.
      repeat case_decide; subst; unfold is_child in *; try lia.
      * apply (Hinv2 p j); unfold is_child; lia.
      * by apply Less_asym.
      * apply Hmin; unfold is_child; lia.
      * apply Hinv1; unfold is_child; lia.
    + intros g c Hc Hgj Hjc. rewrite Less_Swap by lia. unfold transpose.
      repeat case_decide; subst; unfold is_child in *; try lia.
      apply Hinv1; unfold is_child; lia.
    + split_and!.
      * by rewrite Hlen, Swap_length.
      * by rewrite Hperm, Swap_Permutation.
      * intros k Hk. rewrite Hsuf by done. rewrite Swap_lookup by lia.
        unfold transpose. repeat case_decide; (done || lia).
      * done.
  - (* the hole is not above a smaller child: done *)
    split_and!; try done. intros p c Hc Hpc.
    destruct (decide (p = i)) as [->|Hne]; [|by apply Hinv1].
    apply (Less_le_trans h i j c); [done|lia|done|by apply Hmin].
Qed.

(** [heap.up] repairs a heap whose order is broken only between
    position [j] and its parent. *)
Lemma heap_up_spec (fuel : nat) (h : backendHeap) (j : nat) :
  handles_valid bs h → j < fuel → j < length h →
  (∀ p c, c < length h → is_child p c → c ≠ j →
     backendHeap_Less bs h c p = false) →
  (∀ g c, c < length h → is_child g j → is_child j c →
     backendHeap_Less bs h c g = false) →
  length (heap_up fuel bs h j) = length h
  ∧ heap_up fuel bs h j ≡ₚ h
  ∧ (∀ p c, c < length h → is_child p c →
       backendHeap_Less bs (heap_up fuel bs h j) c p = false).
Proof.
  revert h j. induction fuel as [|fuel IH]; intros h j Hv Hfuel Hj Hinv1 Hinv2;
    [lia|].
  cbn [heap_up]. set (i := (j - 1) / 2).
  destruct (Nat.eqb_spec i j) as [Hroot|Hnot]; cbn [orb].
  { split_and!; try done. intros p c Hc Hpc.
    destruct (decide (c = j)) as [->|Hne]; [|by apply Hinv1].
    destruct (is_child_parent p j Hpc) as [Hp _]. unfold i in Hroot.
    rewrite Hp in Hroot. subst p. unfold is_child in Hpc. lia. }
  assert (0 < j) as Hpos.
  { destruct j; [|lia]. by cbn in Hnot. }
  pose proof (parent_is_child j Hpos) as Hij. fold i in Hij.
  assert (i < j) as Hlt by (unfold is_child in Hij; lia).
  destruct (backendHeap_Less bs h j i) eqn:Hji; cbn [negb].
  - (* the element is less than its parent: exchange, go up *)
    destruct (IH (backendHeap_Swap h i j) i) as (Hlen & Hperm & Hord).
    + eapply handles_valid_Permutation; [|exact Hv].
      symmetry. apply Swap_Permutation.
    + lia.
    + rewrite Swap_length. lia.
    + rewrite Swap_length. intros p c Hc Hpc Hci.
      rewrite Less_Swap by lia. unfold transpose.
      repeat case_decide; subst; unfold is_child in *; try lia.
      * by apply Less_asym.
      * apply (Less_le_trans h j i c); [done|lia|by apply Less_asym|].
        apply Hinv1; unfold is_child; lia.
      * apply (Hinv2 i c); unfold is_child; lia.
      * apply Hinv1; unfold is_child; lia.
    + rewrite Swap_length. intros g c Hc Hgi Hic.
      rewrite Less_Swap by lia. unfold transpose.
      repeat case_decide; subst; unfold is_child in *; try lia.
      * apply Hinv1; unfold is_child; lia.
      * apply (Less_le_trans h g i c); [done|lia| |].
        -- apply Hinv1; unfold is_child; lia.
        -- apply Hinv1; unfold is_child; lia.
    + split_and!.
      * by rewrite Hlen, Swap_length.
      * by rewrite Hperm, Swap_Permutation.
      * intros p c Hc Hpc. apply Hord; [|done]. by rewrite Swap_length.
  - split_and!; try done. intros p c Hc Hpc.
    destruct (decide (c = j)) as [->|Hne]; [|by apply Hinv1].
    destruct (is_child_parent p j Hpc) as [<- _]. done.
Qed.

(** [heap.Push] keeps the heap order and adds the handle. *)
Lemma heap_Push_spec (h : backendHeap) (x : nat) :
  handles_valid bs h → x < length bs → heap_ordered bs h →
  handles_valid bs (heap_Push bs h x)
  ∧ heap_Push bs h x ≡ₚ x :: h
  ∧ heap_ordered bs (heap_Push bs h x).
Proof.
  intros Hv Hx Ho. unfold heap_Push, backendHeap_Push, backendHeap_Len.
  rewrite length_app. cbn [length].
  replace (length h + 1 - 1) with (length h) by lia.
  assert (handles_valid bs (h ++ [x])) as Hv'.
  { apply Forall_app. split; [done|]. by apply Forall_singleton. }
  rewrite heap_ordered_children in Ho.
  destruct (heap_up_spec (length h + 1) (h ++ [x]) (length h))
    as (Hlen & Hperm & Hord).
  - done.
  - lia.
  - rewrite length_app. cbn. lia.
  - rewrite length_app. cbn [length]. intros p c Hc Hpc Hne.
    assert (c < length h) as Hc' by lia.
    assert (p < length h) as Hp' by (unfold is_child in Hpc; lia).
    unfold backendHeap_Less. rewrite !lookup_app_l by done.
    by apply Ho.
  - rewrite length_app. cbn [length]. intros g c Hc _ Hjc.
    unfold is_child in Hjc. lia.
  - split_and!.
    + by eapply handles_valid_Permutation.
    + rewrite Hperm. by rewrite Permutation_app_comm.
    + apply heap_ordered_children. rewrite Hlen. done.
Qed.

(** [heap.Pop] of a heap that is not empty returns its root and keeps the
    heap order of the rest. *)
Lemma heap_Pop_spec (h : backendHeap) (x : nat) :
  handles_valid bs h → heap_ordered bs h → h !! 0 = Some x →
  ∃ h', heap_Pop bs h = (Some x, h')
        ∧ h ≡ₚ x :: h'
        ∧ handles_valid bs h'
        ∧ heap_ordered bs h'.
Proof.
  intros Hv Ho Hx. unfold heap_Pop, backendHeap_Len.
  assert (0 < length h) as Hlen0 by (by eapply lookup_lt_Some).
  set (n := length h - 1).
  assert (length h = n + 1) as Hn by lia. clearbody n.
  rewrite heap_ordered_children in Ho.
  destruct (heap_down_spec (length h) (backendHeap_Swap h 0 n) 0 n)
    as (Hlen & Hperm & Hsuf & Hord).
  - rewrite Swap_length. lia.
  - eapply handles_valid_Permutation; [|exact Hv].
    symmetry. apply Swap_Permutation.
  - lia.
  - intros p c Hc Hpc Hp. rewrite Less_Swap by lia. unfold transpose.
    repeat case_decide; subst; unfold is_child in *; try lia.
    apply Ho; unfold is_child; lia.
  - intros g c Hc Hg. unfold is_child in Hg. lia.
  - set (h2 := heap_down (length h) bs (backendHeap_Swap h 0 n) 0 n) in *.
    rewrite Swap_length in Hlen.
    assert (h2 !! n = Some x) as Hlast.
    { rewrite Hsuf by lia. rewrite Swap_lookup by lia. unfold transpose.
      repeat case_decide; subst; (done || lia). }
    unfold backendHeap_Pop. rewrite Hlen.
    replace (length h - 1) with n by lia. rewrite Hlast.
    exists (take n h2).
    assert (h2 = take n h2 ++ [x]) as Hsplit.
    { rewrite <- (take_drop n h2) at 1. f_equal.
      apply list_eq. intros k. rewrite lookup_drop.
      destruct k as [|k]; cbn.
      - by rewrite Nat.add_0_r.
      - apply lookup_ge_None_2. lia. }
    assert (h ≡ₚ x :: take n h2) as Hp.
    { rewrite <- (Swap_Permutation h 0 n), <- Hperm. rewrite Hsplit at 1.
      by rewrite Permutation_app_comm. }
    split_and!; [done|done| |].
    + apply (handles_valid_Permutation h (x :: take n h2) Hp) in Hv.
      by apply Forall_cons in Hv as [_ ?].
    + apply heap_ordered_children. rewrite length_take, Hlen.
      intros p c Hc Hpc.
      assert (c < n) as Hc' by lia.
      assert (p < n) as Hp' by (unfold is_child in Hpc; lia).
      unfold backendHeap_Less. rewrite !lookup_take_lt by done.
      by apply Hord.
Qed.

(** In a heap the root is not above any element. *)
Lemma heap_root_minimal (h : backendHeap) (k : nat) :
  handles_valid bs h → heap_ordered bs h → k < length h →
  backendHeap_Less bs h k 0 = false.
Proof.
  intros Hv Ho. induction k as [k IH] using lt_wf_ind. intros Hk.
  destruct (decide (k = 0)) as [->|Hne]; [apply Less_irrefl|].
  pose proof (parent_is_child k ltac:(lia)) as Hc.
  assert ((k - 1) / 2 < k) as Hlt by (unfold is_child in Hc; lia).
  apply (Less_le_trans h 0 ((k - 1) / 2) k); [done|lia| |].
  - apply IH; lia.
  - apply Ho. lia.
Qed.

(** The bound on the rounds of [heap.up] and [heap.down] is never what
    stops them: with enough of it, more changes nothing. *)
Lemma heap_up_fuel (fuel fuel' : nat) (h : backendHeap) (j : nat) :
  j < fuel → j < fuel' → heap_up fuel bs h j = heap_up fuel' bs h j.
Proof.
  revert fuel' h j. induction fuel as [|fuel IH]; intros fuel' h j Hf Hf';
    [lia|].
  destruct fuel' as [|fuel']; [lia|]. cbn [heap_up].
  destruct (Nat.eqb_spec ((j - 1) / 2) j) as [|Hne]; cbn [orb]; [done|].
  destruct (negb (backendHeap_Less bs h j ((j - 1) / 2))); [done|].
  assert (0 < j) as Hpos by (destruct j; [by cbn in Hne|lia]).
  pose proof (parent_is_child j Hpos) as Hc. unfold is_child in Hc.
  apply IH; lia.
Qed.

Lemma heap_down_fuel (fuel fuel' : nat) (h : backendHeap) (i n : nat) :
  n ≤ fuel + i → n ≤ fuel' + i →
  heap_down fuel bs h i n = heap_down fuel' bs h i n.
Proof.
  revert fuel' h i. induction fuel as [|fuel IH]; intros fuel' h i Hf Hf'.
  - destruct fuel' as [|fuel']; [done|]. cbn [heap_down].
    destruct (Nat.leb_spec n (2 * i + 1)); [done|lia].
  - destruct fuel' as [|fuel'].
    + cbn [heap_down]. destruct (Nat.leb_spec n (2 * i + 1)); [done|lia].
    + cbn [heap_down]. destruct (Nat.leb_spec n (2 * i + 1)); [done|].
      set (j := if (2 * i + 1 + 1 <? n)
                   && backendHeap_Less bs h (2 * i + 1 + 1) (2 * i + 1)
                then 2 * i + 1 + 1 else 2 * i + 1).
      assert (i < j) as Hj by (unfold j; case_match; lia).
      clearbody j.
      destruct (negb (backendHeap_Less bs h j i)); [done|].
      apply IH; lia.
Qed.

End heap_theory.

(** ** Selection by the load-aware balancer *)

Lemma backend_less_key (a b : BackendImpl) :
  backend_less a b = true ↔ key_lt (key a) (key b).
Proof. apply backend_less_spec. Qed.

Lemma backend_less_key_ext (a a' b b' : BackendImpl) :
  key a = key a' → key b = key b' → backend_less a b = backend_less a' b'.
Proof.
  unfold key, backend_less. intros [= -> ->] [= -> ->]. done.
Qed.

(** The comparisons of the heap read the store through the keys only. *)
Lemma handle_less_ext (bs bs' : list BackendImpl) (x y : nat) :
  key <$> bs = key <$> bs' → handle_less bs x y = handle_less bs' x y.
Proof.
  intros Hk. unfold handle_less.
  assert (∀ z, key <$> bs !! z = key <$> bs' !! z) as Hz.
  { intros z. by rewrite <- !list_lookup_fmap, Hk. }
  pose proof (Hz x) as Hx. pose proof (Hz y) as Hy.
  destruct (bs !! x) as [a|], (bs' !! x) as [a'|]; try done;
    destruct (bs !! y) as [b|], (bs' !! y) as [b'|]; try done.
  cbn in Hx, Hy. apply backend_less_key_ext; congruence.
Qed.

Lemma Less_ext (bs bs' : list BackendImpl) (h : backendHeap) (i j : nat) :
  key <$> bs = key <$> bs' →
  backendHeap_Less bs h i j = backendHeap_Less bs' h i j.
Proof.
  intros Hk. unfold backendHeap_Less.
  destruct (h !! i), (h !! j); try done. by apply handle_less_ext.
Qed.

Lemma heap_up_ext (bs bs' : list BackendImpl) fuel (h : backendHeap) j :
  key <$> bs = key <$> bs' → heap_up fuel bs h j = heap_up fuel bs' h j.
Proof.
  intros Hk. revert h j. induction fuel as [|fuel IH]; intros h j; [done|].
  cbn [heap_up]. rewrite (Less_ext bs bs') by done. by rewrite IH.
Qed.

Lemma heap_down_ext (bs bs' : list BackendImpl) fuel (h : backendHeap) i n :
  key <$> bs = key <$> bs' → heap_down fuel bs h i n = heap_down fuel bs' h i n.
Proof.
  intros Hk. revert h i. induction fuel as [|fuel IH]; intros h i; [done|].
  cbn [heap_down]. rewrite !(Less_ext bs bs') by done. by rewrite IH.
Qed.

Lemma heap_Push_ext (bs bs' : list BackendImpl) (h : backendHeap) x :
  key <$> bs = key <$> bs' → heap_Push bs h x = heap_Push bs' h x.
Proof. intros Hk. unfold heap_Push. by apply heap_up_ext. Qed.

Lemma heap_ordered_ext (bs bs' : list BackendImpl) (h : backendHeap) :
  key <$> bs = key <$> bs' → heap_ordered bs h → heap_ordered bs' h.
Proof.
  intros Hk Ho j Hj. rewrite <- (Less_ext bs bs') by done. by apply Ho.
Qed.

Lemma handles_valid_ext (bs bs' : list BackendImpl) (h : backendHeap) :
  length bs = length bs' → handles_valid bs h → handles_valid bs' h.
Proof. unfold handles_valid. by intros ->. Qed.

Lemma IsHealthy_key now be : key (BackendImpl_IsHealthy now be).2 = key be.
Proof.
  unfold key, BackendImpl_GetLoad. by rewrite IsHealthy_load, IsHealthy_addr.
Qed.

Lemma IsHealthy_rejected now be :
  (BackendImpl_IsHealthy now be).1 = false →
  (BackendImpl_IsHealthy now be).2 = be.
Proof. unfold BackendImpl_IsHealthy. by repeat case_match. Qed.

Lemma IsHealthy_accepted_again now be :
  accepts now be → accepts now (BackendImpl_IsHealthy now be).2.
Proof.
  unfold accepts, BackendImpl_IsHealthy.
  destruct (healthy be =? 1) eqn:Hh; cbn; [by rewrite Hh|].
  destruct (coolDown <? time_Since now (lastFailure be)); cbn; done.
Qed.

(** The loop of [GetNextServer] on a heap: it returns the least handle,
    in the order of the keys, among those [IsHealthy] answers true for. *)
Lemma pop_healthy_spec fuel now (bs : list BackendImpl) (h : backendHeap) :
  handles_valid bs h → heap_ordered bs h → (length h ≤ fuel)%nat →
  match (pop_healthy fuel now bs h).1 with
  | Some i =>
      i ∈ h
      ∧ (∃ be, bs !! i = Some be ∧ accepts now be)
      ∧ ∀ j be, j ∈ h → bs !! j = Some be → accepts now be →
          handle_less bs j i = false
  | None => ∀ j be, j ∈ h → bs !! j = Some be → ¬ accepts now be
  end.
Proof.
  revert h. induction fuel as [|fuel IH]; intros h Hv Ho Hfuel.
  { destruct h; [|cbn in Hfuel; lia]. cbn. intros j be Hj.
    by apply not_elem_of_nil in Hj. }
  cbn [pop_healthy]. unfold backendHeap_Len.
  destruct h as [|x0 h0] eqn:Hh.
  { cbn. intros j be Hj. by apply not_elem_of_nil in Hj. }
  rewrite <- Hh in *. replace (length h =? 0)%nat with false
    by (rewrite Hh; done).
  assert (h !! 0%nat = Some x0) as Hroot by (by rewrite Hh).
  destruct (heap_Pop_spec bs h x0 Hv Ho Hroot) as (h' & -> & Hperm & Hv' & Ho').
  assert (x0 < length bs)%nat as Hx0.
  { by eapply (Forall_lookup_1 _ _ _ _ Hv). }
  destruct (lookup_lt_is_Some_2 bs x0 Hx0) as [be0 Hbe0]. rewrite Hbe0.
  destruct (BackendImpl_IsHealthy now be0) as [ok be0'] eqn:Hih.
  destruct ok.
  - cbn [fst]. split_and!.
    + rewrite Hperm. left.
    + exists be0. split; [done|]. unfold accepts. by rewrite Hih.
    + intros j be Hj _ _. apply list_elem_of_lookup in Hj as [k Hk].
      pose proof (heap_root_minimal bs h k Hv Ho
                    ltac:(by eapply lookup_lt_Some)) as Hmin.
      unfold backendHeap_Less in Hmin. by rewrite Hk, Hroot in Hmin.
  - assert (be0' = be0) as ->.
    { change be0' with (false, be0').2. rewrite <- Hih.
      apply IsHealthy_rejected. by rewrite Hih. }
    rewrite list_insert_id by done.
    assert (length h' ≤ fuel)%nat as Hfuel'.
    { apply Permutation_length in Hperm. cbn in Hperm. lia. }
    specialize (IH h' Hv' Ho' Hfuel').
    assert (¬ accepts now be0) as Hrej.
    { unfold accepts. by rewrite Hih. }
    destruct (pop_healthy fuel now bs h').1 as [i|].
    + destruct IH as (Hin & Hacc & Hmin). split_and!.
      * rewrite Hperm. by right.
      * done.
      * intros j be Hj Hbe Hacc'. rewrite Hperm in Hj.
        apply elem_of_cons in Hj as [->|Hj]; [|by eapply Hmin].
        rewrite Hbe0 in Hbe. by simplify_eq.
    + intros j be Hj Hbe. rewrite Hperm in Hj.
      apply elem_of_cons in Hj as [->|Hj]; [|by eapply IH].
      rewrite Hbe0 in Hbe. by simplify_eq.
Qed.

Lemma refilled_keys now bs k st :
  refilled now bs k st → key <$> st.1 = key <$> bs.
Proof.
  intros (Hlen & Hlook & _). apply list_eq. intros j.
  rewrite !list_lookup_fmap, Hlook. case_decide; [|done].
  destruct (bs !! j); [|done]. cbn. by rewrite IsHealthy_key.
Qed.

Lemma refill_step_refilled now bs k st :
  (k < length bs)%nat → refilled now bs k st →
  refilled now bs (S k) (refill_step now st k).
Proof.
  intros Hk Hst. pose proof (refilled_keys now bs k st Hst) as Hkeys.
  destruct st as [bsk hk]. destruct Hst as (Hlen & Hlook & Hv & Ho & Hnd & Hin).
  cbn [fst snd] in *. cbn [refill_step].
  destruct (lookup_lt_is_Some_2 bs k Hk) as [be Hbe].
  assert (bsk !! k = Some be) as Hbek.
  { rewrite Hlook. case_decide; [lia|done]. }
  rewrite Hbek.
  destruct (BackendImpl_IsHealthy now be) as [ok be'] eqn:Hih.
  assert (key <$> <[k := be']> bsk = key <$> bs) as Hkeys'.
  { rewrite list_fmap_insert, <- Hkeys. apply list_insert_id.
    rewrite list_lookup_fmap, Hbek. cbn. f_equal.
    change be' with (ok, be').2. rewrite <- Hih. symmetry. apply IsHealthy_key. }
  assert (∀ j, <[k := be']> bsk !! j =
               if decide (j < S k)%nat
               then (λ be, (BackendImpl_IsHealthy now be).2) <$> bs !! j
               else bs !! j) as Hlook'.
  { intros j. destruct (decide (j = k)) as [->|Hne].
    - rewrite list_lookup_insert_eq by lia. case_decide; [|lia].
      rewrite Hbe. cbn. by rewrite Hih.
    - rewrite list_lookup_insert_ne by done. rewrite Hlook.
      repeat case_decide; (done || lia). }
  destruct ok.
  - rewrite (heap_Push_ext _ bs) by done.
    destruct (heap_Push_spec bs hk k Hv Hk Ho) as (Hv' & Hperm & Ho').
    split_and!; cbn [fst snd]; try done.
    + by rewrite length_insert.
    + rewrite Hperm. apply NoDup_cons. split; [|done].
      rewrite Hin. intros [? _]. lia.
    + intros j. rewrite Hperm, elem_of_cons, Hin. split.
      * intros [->|[? ?]]; [|split; [lia|done]].
        split; [lia|]. exists be. split; [done|]. unfold accepts. by rewrite Hih.
      * intros [Hj Hacc]. destruct (decide (j = k)); [by left|].
        right. split; [lia|done].
  - split_and!; cbn [fst snd]; try done.
    + by rewrite length_insert.
    + intros j. rewrite Hin. split.
      * intros [? ?]. split; [lia|done].
      * intros [Hj (be1 & Hbe1 & Hacc)]. split; [|by exists be1].
        destruct (decide (j = k)) as [->|]; [|lia].
        rewrite Hbe in Hbe1. simplify_eq. unfold accepts in Hacc.
        by rewrite Hih in Hacc.
Qed.

Lemma refill_fold_refilled now bs m k st :
  (k + m = length bs)%nat → refilled now bs k st →
  refilled now bs (k + m) (foldl (refill_step now) st (seq k m)).
Proof.
  revert k st. induction m as [|m IH]; intros k st Hkm Hst.
  - cbn. by rewrite Nat.add_0_r.
  - cbn [seq foldl]. replace (k + S m)%nat with (S k + m)%nat by lia.
    apply IH; [lia|]. apply refill_step_refilled; [lia|done].
Qed.

(** Refilling an empty heap: every backend has been asked [IsHealthy] once,
    and the heap holds, in heap order, the handles of those it answered
    true for. *)
Lemma refill_spec now (bs : list BackendImpl) :
  (refill now bs []).1 = (λ be, (BackendImpl_IsHealthy now be).2) <$> bs
  ∧ handles_valid (refill now bs []).1 (refill now bs []).2
  ∧ heap_ordered (refill now bs []).1 (refill now bs []).2
  ∧ (∀ j, j ∈ (refill now bs []).2 ↔ ∃ be, bs !! j = Some be ∧ accepts now be)
  ∧ NoDup (refill now bs []).2.
Proof.
  assert (refilled now bs 0 (bs, [])) as H0.
  { split_and!; cbn [fst snd]; try done.
    - apply Forall_nil_2.
    - apply NoDup_nil_2.
    - intros j. split; [by intros ?%not_elem_of_nil|]. intros [? _]. lia. }
  pose proof (refill_fold_refilled now bs (length bs) 0 (bs, []) eq_refl H0)
    as Hr.
  pose proof (refilled_keys _ _ _ _ Hr) as Hkeys.
  unfold refill. cbn [Nat.add] in *.
  destruct (foldl (refill_step now) (bs, []) (seq 0 (length bs))) as [bs1 h1].
  destruct Hr as (Hlen & Hlook & Hv & Ho & Hnd & Hin). cbn [fst snd] in *.
  split_and!.
  - apply list_eq. intros j. rewrite list_lookup_fmap, Hlook.
    case_decide; [done|]. by rewrite lookup_ge_None_2 by lia.
  - by apply (handles_valid_ext bs).
  - by apply (heap_ordered_ext bs).
  - intros j. rewrite Hin. split; [by intros [_ ?]|].
    intros (be & Hbe & Hacc). split; [by eapply lookup_lt_Some|by exists be].
  - done.
Qed.

(** C5 as stated fails as soon as a selection has taken a handle out of
    the priority structure: that backend is still healthy, but the next
    selection chooses among the handles left.  With two fresh backends "a"
    and "b", the first selection returns "a"; the second returns "b",
    although "a" is healthy, as loaded as "b", and has the lower address. *)
Lemma C5_counterexample_selected_handle_left_out :
  (AdvancedBalancer_calls [1; 1]
     (NewAdvancedLoadBalancer 0 ["a"; "b"]%string)).1
  = [Some 0; Some 1]%nat
  ∧ ¬ selects_minimal_healthy 1
        (AdvancedBalancer_GetNextServer 1
           (NewAdvancedLoadBalancer 0 ["a"; "b"]%string)).2.
Proof.
  split; [reflexivity|].
  intros Hclaim. destruct Hclaim as (i & bei & Hsel & Hi & _ & Hmin).
  - exists 0%nat, (NewBackend "a"). split; reflexivity.
  - vm_compute in Hsel. injection Hsel as <-.
    vm_compute in Hi. injection Hi as <-.
    apply (Hmin 0%nat (NewBackend "a")); [reflexivity|reflexivity|].
    right. split; reflexivity.
Qed.

Lemma not_key_lt (a b : BackendImpl) :
  backend_less a b = false → ¬ key_lt (key a) (key b).
Proof. intros Hl Hk. apply backend_less_key in Hk. congruence. Qed.

(** C5, amended.  When the priority structure holds handles of the backend
    list and is in heap order for the current loads, [GetNextServer]
    returns a backend that [IsHealthy] answers true for and whose
    (activeLoad, address) pair is minimal, in ascending lexicographic
    order, among the candidates: the backends [IsHealthy] answers true for
    whose handle is in the structure or, when the structure is empty and is
    refilled, among all backends.  It returns none only if there is no
    candidate.  With healthy backends at loads A:5, B:2, C:2 and an empty
    structure, three selections return B, then C, then A. *)
Theorem C5_selects_minimal_candidate (now : Time) (b : AdvancedBalancer)
    (Hvalid : handles_valid (adv_backends b) (adv_heap b))
    (Hheap : heap_ordered (adv_backends b) (adv_heap b)) :
  match (AdvancedBalancer_GetNextServer now b).1 with
  | Some i =>
      candidate now b i
      ∧ ∀ j bej bei,
          candidate now b j →
          adv_backends b !! j = Some bej → adv_backends b !! i = Some bei →
          ¬ key_lt (key bej) (key bei)
  | None => ∀ j, ¬ candidate now b j
  end
  ∧ (AdvancedBalancer_calls [now; now; now]
       (mkAdvanced [mkBackend "A" 0 0 1 5; mkBackend "B" 0 0 1 2;
                    mkBackend "C" 0 0 1 2] [])).1
    = [Some 1; Some 2; Some 0]%nat.
Proof.
  split; [|reflexivity].
  destruct b as [bs h]. cbn [adv_backends adv_heap] in *.
  unfold AdvancedBalancer_GetNextServer, candidate, backendHeap_Len.
  cbn [adv_backends adv_heap].
  destruct h as [|x0 h0] eqn:Hh.
  - (* the structure is empty and is refilled *)
    cbn [length Nat.eqb].
    destruct (refill_spec now bs) as (Hbs1 & Hv1 & Ho1 & Hin1 & _).
    destruct (refill now bs []) as [bs1 h1]. cbn [fst snd] in *.
    assert (key <$> bs1 = key <$> bs) as Hkeys.
    { rewrite Hbs1, <- list_fmap_compose. apply list_fmap_ext.
      intros _ be _. apply IsHealthy_key. }
    assert (∀ j bej, bs !! j = Some bej → accepts now bej →
              j ∈ h1 ∧ ∃ be1, bs1 !! j = Some be1 ∧ accepts now be1) as Hcand.
    { intros j bej Hj Hacc. split; [apply Hin1; by exists bej|].
      exists (BackendImpl_IsHealthy now bej).2. split.
      - by rewrite Hbs1, list_lookup_fmap, Hj.
      - by apply IsHealthy_accepted_again. }
    destruct (Nat.eqb_spec (length h1) 0) as [Hempty|Hne].
    { cbn [fst]. intros j [_ (bej & Hj & Hacc)].
      destruct (Hcand j bej Hj Hacc) as [Hjin _].
      destruct h1; [by apply not_elem_of_nil in Hjin|done]. }
    pose proof (pop_healthy_spec (length h1) now bs1 h1 Hv1 Ho1 ltac:(lia))
      as Hpop.
    destruct (pop_healthy (length h1) now bs1 h1) as [[i|] [bs2 h2]];
      cbn [fst] in *.
    + destruct Hpop as (Hi & _ & Hmin). split.
      * split; [by left|]. by apply Hin1.
      * intros j bej bei [_ (bej' & Hj' & Hacc)] Hj Hbei.
        assert (bej' = bej) as -> by congruence.
        destruct (Hcand j bej Hj Hacc) as (Hjin & be1 & Hj1 & Hacc1).
        specialize (Hmin j be1 Hjin Hj1 Hacc1).
        rewrite (handle_less_ext bs1 bs) in Hmin by done.
        unfold handle_less in Hmin. rewrite Hj, Hbei in Hmin.
        by apply not_key_lt.
    + intros j [_ (bej & Hj & Hacc)].
      destruct (Hcand j bej Hj Hacc) as (Hjin & be1 & Hj1 & Hacc1).
      by apply (Hpop j be1).
  - (* the structure holds handles *)
    cbn [length Nat.eqb].
    pose proof (pop_healthy_spec (length (x0 :: h0)) now bs (x0 :: h0)
                  Hvalid Hheap ltac:(lia)) as Hpop.
    cbn [length] in Hpop.
    destruct (pop_healthy (S (length h0)) now bs (x0 :: h0))
      as [[i|] [bs2 h2]]; cbn [fst] in *.
    + destruct Hpop as (Hi & Hacc & Hmin). split.
      * split; [by right|done].
      * intros j bej bei [[?|Hjin] (bej' & Hj' & Hacc')] Hj Hbei; [done|].
        assert (bej' = bej) as -> by congruence.
        specialize (Hmin j bej Hjin Hj Hacc').
        unfold handle_less in Hmin. rewrite Hj, Hbei in Hmin.
        by apply not_key_lt.
    + intros j [[?|Hjin] (bej & Hj & Hacc)]; [done|].
      by apply (Hpop j bej).
Qed.

(** C5 on a structure that holds B above A and C. *)
Lemma C5_selects_minimal_candidate_witness :
  candidate 7
    (mkAdvanced [mkBackend "A" 0 0 1 5; mkBackend "B" 0 0 1 2;
                 mkBackend "C" 0 0 1 2] [1; 0; 2]%nat) 1.
Proof.
  assert (handles_valid [mkBackend "A" 0 0 1 5; mkBackend "B" 0 0 1 2;
                         mkBackend "C" 0 0 1 2] [1; 0; 2]%nat) as Hv.
  { repeat constructor; cbn; lia. }
  assert (heap_ordered [mkBackend "A" 0 0 1 5; mkBackend "B" 0 0 1 2;
                        mkBackend "C" 0 0 1 2] [1; 0; 2]%nat) as Ho.
  { intros j Hj. destruct j as [|[|[|j]]]; cbn in Hj; try lia; reflexivity. }
  exact (proj1 (proj1 (C5_selects_minimal_candidate 7
           (mkAdvanced [mkBackend "A" 0 0 1 5; mkBackend "B" 0 0 1 2;
                        mkBackend "C" 0 0 1 2] [1; 0; 2]%nat) Hv Ho))).
Defined.

(** ** Goroutines on the priority structure *)

Lemma pool_run_cons (s : PoolStep) (steps : list PoolStep) (p p' : Pool) :
  pool_step s p = Some p' → pool_run (s :: steps) p = pool_run steps p'.
Proof. intros H. cbn [pool_run]. by rewrite H. Qed.

Lemma lookup_at_end {A} (l : list A) (x : A) : (l ++ [x]) !! length l = Some x.
Proof. by rewrite list_lookup_middle. Qed.

Lemma insert_at_end {A} (l : list A) (x y : A) :
  <[length l := y]> (l ++ [x]) = l ++ [y].
Proof. rewrite insert_app_r_alt by done. by rewrite Nat.sub_diag. Qed.

(** A goroutine that runs its five steps with nothing in between does
    what [AdvancedBalancer.Invoke] does. *)
Lemma pool_run_Invoke (p : Pool) (o : Outcome) (now now' : Time) (i : nat) :
  (AdvancedBalancer_GetNextServer now (pool_balancer p)).1 = Some i →
  is_Some (adv_backends (AdvancedBalancer_GetNextServer now (pool_balancer p)).2 !! i) →
  let g := length (pool_goroutines p) in
  pool_run [StepSelect now; StepEnter g; StepExchange g o now'; StepLeave g;
            StepSettle g] p
  = Some (mkPool (AdvancedBalancer_Invoke o now now' (pool_balancer p)).2
            (pool_goroutines p
             ++ [GDone (AdvancedBalancer_Invoke o now now' (pool_balancer p)).1])).
Proof.
  destruct p as [b gs]. cbn [pool_balancer pool_goroutines].
  intros Hsel [be Hbe]. cbn zeta.
  unfold AdvancedBalancer_Invoke.
  destruct (AdvancedBalancer_GetNextServer now b) as [sel [bs1 h1]] eqn:Hs.
  cbn [fst snd adv_backends] in *. subst sel.
  assert (i < length bs1)%nat as Hi by (by eapply lookup_lt_Some).
  destruct (BackendImpl_Invoke_call o now' (BackendImpl_Invoke_enter be))
    as [r be'] eqn:Hcall.
  unfold AdvancedBalancer_call. cbn [adv_backends adv_heap].
  rewrite Hbe, Invoke_unfold, Hcall. cbn [fst snd].
  destruct (AdvancedBalancer_settle i r
              {| adv_backends := <[i := BackendImpl_Invoke_leave be']> bs1;
                 adv_heap := h1 |}) as [r' b2] eqn:Hsettle.
  cbn [fst snd].
  rewrite (pool_run_cons _ _ _ (mkPool (mkAdvanced bs1 h1) (gs ++ [GSelected i]))).
  2:{ cbn [pool_step pool_balancer pool_goroutines]. by rewrite Hs. }
  rewrite (pool_run_cons _ _ _
             (mkPool (mkAdvanced (<[i := BackendImpl_Invoke_enter be]> bs1) h1)
                     (gs ++ [GEntered i]))).
  2:{ cbn [pool_step pool_balancer pool_goroutines].
      rewrite lookup_at_end. cbv beta iota. rewrite ?insert_at_end. unfold with_backend.
      cbn [adv_backends adv_heap]. rewrite Hbe. reflexivity. }
  rewrite (pool_run_cons _ _ _
             (mkPool (mkAdvanced (<[i := be']> bs1) h1)
                     (gs ++ [GAnswered i r]))).
  2:{ cbn [pool_step pool_balancer pool_goroutines adv_backends adv_heap].
      rewrite lookup_at_end. cbv beta iota.
      rewrite list_lookup_insert_eq by done. rewrite Hcall.
      by rewrite insert_at_end, list_insert_insert_eq. }
  rewrite (pool_run_cons _ _ _
             (mkPool (mkAdvanced (<[i := BackendImpl_Invoke_leave be']> bs1) h1)
                     (gs ++ [GReturned i r]))).
  2:{ cbn [pool_step pool_balancer pool_goroutines].
      rewrite lookup_at_end. cbv beta iota. rewrite ?insert_at_end. unfold with_backend.
      cbn [adv_backends adv_heap].
      rewrite list_lookup_insert_eq by done.
      by rewrite list_insert_insert_eq. }
  rewrite (pool_run_cons _ _ _ (mkPool b2 (gs ++ [GDone r']))).
  2:{ cbn [pool_step pool_balancer pool_goroutines].
      rewrite lookup_at_end. cbv beta iota. rewrite Hsettle.
      by rewrite insert_at_end. }
  done.
Qed.

(** C7 fails on the code: a handle can be in the priority structure twice.
    With one backend and two calls of [Invoke] that overlap, the second
    selection finds the structure empty, refills it with the backend that
    is in flight and takes it; both calls then push the handle back.  The
    same happens when a tick of [healthChecker], which finds the handle
    absent, comes between a selection and its push-back. *)
Theorem C7_handle_twice_in_heap :
  (pool_balancer <$>
     pool_run [StepSelect 1; StepSelect 2;
               StepEnter 0; StepExchange 0 (DoStatus 200) 3; StepLeave 0;
               StepSettle 0;
               StepEnter 1; StepExchange 1 (DoStatus 200) 4; StepLeave 1;
               StepSettle 1]
       (mkPool (NewAdvancedLoadBalancer 0 ["a"]%string) []))
  = Some {| adv_backends := [NewBackend "a"]; adv_heap := [0; 0]%nat |}
  ∧ (pool_balancer <$>
       pool_run [StepSelect 1; StepSweep 2;
                 StepEnter 0; StepExchange 0 (DoStatus 200) 3; StepLeave 0;
                 StepSettle 0]
         (mkPool (NewAdvancedLoadBalancer 0 ["a"]%string) []))
    = Some {| adv_backends := [NewBackend "a"]; adv_heap := [0; 0]%nat |}
  ∧ ¬ NoDup [0; 0]%nat.
Proof.
  split_and!; [reflexivity|reflexivity|].
  intros Hnd. apply NoDup_cons_1_1 in Hnd. apply Hnd. left.
Qed.

(** ** The heap order in sequential use *)

Lemma keys_insert (bs : list BackendImpl) (i : nat) (be be' : BackendImpl) :
  bs !! i = Some be → key be' = key be →
  key <$> <[i := be']> bs = key <$> bs.
Proof.
  intros Hi Hk. rewrite list_fmap_insert. apply list_insert_id.
  by rewrite list_lookup_fmap, Hi, Hk.
Qed.

Lemma keys_loads (bs bs' : list BackendImpl) :
  key <$> bs = key <$> bs' → loads bs = loads bs'.
Proof.
  intros Hk. unfold loads.
  assert (∀ l : list BackendImpl, BackendImpl_GetLoad <$> l = fst <$> (key <$> l))
    as Hfst.
  { intros l. rewrite <- list_fmap_compose. by apply list_fmap_ext. }
  by rewrite !Hfst, Hk.
Qed.

Lemma keys_length (bs bs' : list BackendImpl) :
  key <$> bs = key <$> bs' → length bs = length bs'.
Proof. intros Hk. by rewrite <- (length_fmap key bs), Hk, length_fmap. Qed.

(** A store with the same keys keeps the invariant of the heap. *)
Lemma heap_invariant_ext (bs bs' : list BackendImpl) (h : backendHeap) :
  key <$> bs = key <$> bs' →
  heap_invariant (mkAdvanced bs h) → heap_invariant (mkAdvanced bs' h).
Proof.
  intros Hk (Hv & Ho & Hl). unfold heap_invariant.
  cbn [adv_backends adv_heap] in *. split_and!.
  - apply (handles_valid_ext bs); [by apply keys_length|done].
  - by apply (heap_ordered_ext bs).
  - by rewrite <- (keys_loads bs bs').
Qed.

Lemma pop_healthy_heap fuel now (bs : list BackendImpl) (h : backendHeap) :
  handles_valid bs h → heap_ordered bs h →
  key <$> (pop_healthy fuel now bs h).2.1 = key <$> bs
  ∧ handles_valid bs (pop_healthy fuel now bs h).2.2
  ∧ heap_ordered bs (pop_healthy fuel now bs h).2.2
  ∧ (∀ i, (pop_healthy fuel now bs h).1 = Some i → (i < length bs)%nat).
Proof.
  revert bs h. induction fuel as [|fuel IH]; intros bs h Hv Ho; [done|].
  cbn [pop_healthy]. unfold backendHeap_Len.
  destruct h as [|x0 h0] eqn:Hh; [done|].
  rewrite <- Hh in *. replace (length h =? 0)%nat with false
    by (rewrite Hh; done).
  assert (h !! 0%nat = Some x0) as Hroot by (by rewrite Hh).
  destruct (heap_Pop_spec bs h x0 Hv Ho Hroot) as (h' & -> & Hperm & Hv' & Ho').
  assert (x0 < length bs)%nat as Hx0.
  { by eapply (Forall_lookup_1 _ _ _ _ Hv). }
  destruct (lookup_lt_is_Some_2 bs x0 Hx0) as [be0 Hbe0]. rewrite Hbe0.
  destruct (BackendImpl_IsHealthy now be0) as [ok be0'] eqn:Hih.
  assert (key <$> <[x0 := be0']> bs = key <$> bs) as Hk.
  { apply (keys_insert _ _ be0); [done|].
    change be0' with (ok, be0').2. rewrite <- Hih. apply IsHealthy_key. }
  destruct ok.
  - cbn [fst snd]. split_and!; try done. by intros i [= <-].
  - destruct (IH (<[x0 := be0']> bs) h') as (Hk' & Hv'' & Ho'' & Hsel).
    + apply (handles_valid_ext bs); [by rewrite length_insert|done].
    + apply (heap_ordered_ext bs); done.
    + split_and!.
      * by rewrite Hk'.
      * apply (handles_valid_ext (<[x0 := be0']> bs));
          [by rewrite length_insert|done].
      * by apply (heap_ordered_ext (<[x0 := be0']> bs)).
      * intros i Hi. specialize (Hsel i Hi). by rewrite length_insert in Hsel.
Qed.

Lemma AdvancedBalancer_GetNextServer_invariant now (b : AdvancedBalancer) :
  heap_invariant b →
  heap_invariant (AdvancedBalancer_GetNextServer now b).2
  ∧ (∀ i, (AdvancedBalancer_GetNextServer now b).1 = Some i →
       (i < length (adv_backends (AdvancedBalancer_GetNextServer now b).2))%nat).
Proof.
  intros Hinv. destruct b as [bs h].
  unfold AdvancedBalancer_GetNextServer, backendHeap_Len.
  cbn [adv_backends adv_heap].
  assert (∀ bs1 h1, heap_invariant (mkAdvanced bs1 h1) →
            let r := (if (length h1 =? 0)%nat
                      then (None, mkAdvanced bs1 h1)
                      else let '(sel, (bs2, h2)) :=
                             pop_healthy (length h1) now bs1 h1 in
                           (sel, mkAdvanced bs2 h2)) in
            heap_invariant r.2
            ∧ ∀ i, r.1 = Some i → (i < length (adv_backends r.2))%nat) as Hrest.
  { intros bs1 h1 Hinv1. cbn zeta.
    destruct (length h1 =? 0)%nat; [done|].
    pose proof Hinv1 as (Hv1 & Ho1 & Hl1). cbn [adv_backends adv_heap] in *.
    destruct (pop_healthy_heap (length h1) now bs1 h1 Hv1 Ho1)
      as (Hk2 & Hv2 & Ho2 & Hsel).
    destruct (pop_healthy (length h1) now bs1 h1) as [sel [bs2 h2]].
    cbn [fst snd adv_backends] in *. split.
    - apply (heap_invariant_ext bs1); [done|]. by split_and!.
    - intros i Hi. rewrite (keys_length bs2 bs1) by done. by apply Hsel. }
  destruct h as [|x0 h0]; cbn [length Nat.eqb].
  - destruct (refill_spec now bs) as (Hbs1 & Hv1 & Ho1 & _ & _).
    destruct (refill now bs []) as [bs1 h1]. cbn [fst snd] in *.
    apply Hrest. destruct Hinv as (_ & _ & Hl). cbn [adv_backends] in Hl.
    split_and!; cbn [adv_backends adv_heap]; [done|done|].
    rewrite (keys_loads bs1 bs); [done|].
    rewrite Hbs1, <- list_fmap_compose. apply list_fmap_ext.
    intros _ be _. apply IsHealthy_key.
  - by apply (Hrest bs (x0 :: h0)).
Qed.

Lemma Invoke_key o now be :
  - 2 ^ 63 ≤ activeRequests be < 2 ^ 63 →
  key (BackendImpl_Invoke o now be).2 = key be.
Proof.
  intros Hr. unfold key, BackendImpl_GetLoad. rewrite Invoke_load by done.
  f_equal. rewrite Invoke_unfold. cbn [snd]. cbn [BackendImpl_Invoke_leave addr set_activeRequests].
  by rewrite Invoke_call_addr.
Qed.

Lemma heap_invariant_push (bs : list BackendImpl) (h : backendHeap) (i : nat) :
  (i < length bs)%nat →
  heap_invariant (mkAdvanced bs h) →
  heap_invariant (mkAdvanced bs (heap_Push bs h i)).
Proof.
  intros Hi (Hv & Ho & Hl). cbn [adv_backends adv_heap] in *.
  destruct (heap_Push_spec bs h i Hv Hi Ho) as (Hv' & _ & Ho').
  by split_and!.
Qed.

Lemma AdvancedBalancer_call_invariant i o now (b : AdvancedBalancer) :
  heap_invariant b → heap_invariant (AdvancedBalancer_call i o now b).2.
Proof.
  intros Hinv. destruct b as [bs h]. unfold AdvancedBalancer_call.
  cbn [adv_backends adv_heap].
  destruct (bs !! i) as [be|] eqn:Hbe; [|done].
  pose proof (Invoke_key o now be) as Hk.
  destruct (BackendImpl_Invoke o now be) as [r be']. cbn [snd] in *.
  apply (heap_invariant_ext bs); [|done].
  symmetry. apply (keys_insert _ _ be); [done|]. apply Hk.
  destruct Hinv as (_ & _ & Hl). by eapply loads_lookup_range.
Qed.

Lemma AdvancedBalancer_settle_invariant i r (b : AdvancedBalancer) :
  (i < length (adv_backends b))%nat →
  heap_invariant b → heap_invariant (AdvancedBalancer_settle i r b).2.
Proof.
  intros Hi Hinv. destruct b as [bs h]. unfold AdvancedBalancer_settle.
  cbn [adv_backends adv_heap] in *.
  destruct r as [resp|e|]; cbn [snd]; try by apply heap_invariant_push.
  destruct (bs !! i) as [be|] eqn:Hbe; [|done].
  set (be1 := set_failureCount (int32 (failureCount be + 1)) be).
  destruct (failureCount be1 >=? maxFailureCount); cbn [snd].
  - apply (heap_invariant_ext bs); [|done].
    symmetry. by apply (keys_insert _ _ be).
  - apply heap_invariant_push; [by rewrite length_insert|].
    apply (heap_invariant_ext bs); [|done].
    symmetry. by apply (keys_insert _ _ be).
Qed.

Lemma AdvancedBalancer_Invoke_invariant o now now' (b : AdvancedBalancer) :
  heap_invariant b → heap_invariant (AdvancedBalancer_Invoke o now now' b).2.
Proof.
  intros Hinv. unfold AdvancedBalancer_Invoke.
  destruct (AdvancedBalancer_GetNextServer_invariant now b Hinv) as [Hinv1 Hsel].
  destruct (AdvancedBalancer_GetNextServer now b) as [[i|] b1];
    cbn [fst snd] in *; [|done].
  specialize (Hsel i eq_refl).
  pose proof (AdvancedBalancer_call_invariant i o now' b1 Hinv1) as Hinv2.
  assert (length (adv_backends (AdvancedBalancer_call i o now' b1).2)
          = length (adv_backends b1)) as Hlen.
  { unfold AdvancedBalancer_call.
    destruct (adv_backends b1 !! i) as [be|]; [|done].
    destruct (BackendImpl_Invoke o now' be) as [r be']. cbn.
    by rewrite length_insert. }
  destruct (AdvancedBalancer_call i o now' b1) as [r b2]. cbn [snd] in *.
  apply AdvancedBalancer_settle_invariant; [lia|done].
Qed.

Lemma sweep_step_invariant now (st : list BackendImpl * list nat) (i : nat) :
  heap_invariant (mkAdvanced st.1 st.2) →
  heap_invariant (mkAdvanced (sweep_step now st i).1 (sweep_step now st i).2).
Proof.
  destruct st as [bs h]. cbn [fst snd sweep_step]. intros Hinv.
  destruct (bs !! i) as [be|] eqn:Hbe; [|done].
  assert (i < length bs)%nat as Hi by (by eapply lookup_lt_Some).
  destruct (BackendImpl_IsHealthy now be) as [ok1 be1] eqn:Hh1.
  assert (key be1 = key be) as Hk1.
  { change be1 with (ok1, be1).2. rewrite <- Hh1. apply IsHealthy_key. }
  destruct ok1; cbn [negb fst snd].
  - destruct (BackendImpl_IsHealthy now be1) as [ok2 be2] eqn:Hh2.
    assert (key be2 = key be) as Hk2.
    { rewrite <- Hk1. change be2 with (ok2, be2).2. rewrite <- Hh2.
      apply IsHealthy_key. }
    assert (heap_invariant (mkAdvanced (<[i := be2]> bs) h)) as Hinv'.
    { apply (heap_invariant_ext bs); [|done].
      symmetry. by apply (keys_insert _ _ be). }
    destruct ok2; [|done].
    destruct (bool_decide (i ∈ h)); cbn [negb fst snd]; [done|].
    apply heap_invariant_push; [by rewrite length_insert|done].
  - apply (heap_invariant_ext bs); [|done].
    symmetry. by apply (keys_insert _ _ be).
Qed.

Lemma AdvancedBalancer_healthChecker_tick_invariant now (b : AdvancedBalancer) :
  heap_invariant b → heap_invariant (AdvancedBalancer_healthChecker_tick now b).
Proof.
  destruct b as [bs h]. unfold AdvancedBalancer_healthChecker_tick.
  cbn [adv_backends adv_heap]. generalize (seq 0 (length bs)). intros l.
  change bs with (bs, h).1 at 1. change h with (bs, h).2 at 2.
  generalize (bs, h). clear bs h.
  induction l as [|i l IH]; intros st Hinv.
  - cbn [foldl]. by destruct st.
  - cbn [foldl]. apply IH. by apply sweep_step_invariant.
Qed.

Lemma heap_invariant_grow (bs : list BackendImpl) (h : backendHeap)
    (be : BackendImpl) :
  - 2 ^ 63 ≤ activeRequests be < 2 ^ 63 →
  heap_invariant (mkAdvanced bs h) →
  heap_invariant (mkAdvanced (bs ++ [be]) h).
Proof.
  intros Hr (Hv & Ho & Hl). unfold heap_invariant.
  cbn [adv_backends adv_heap] in *. split_and!.
  - eapply Forall_impl; [exact Hv|]. cbn. intros x Hx.
    rewrite length_app. lia.
  - intros j Hj. specialize (Ho j Hj). unfold backendHeap_Less in *.
    destruct (h !! j) as [x|] eqn:Hx; [|done].
    destruct (h !! ((j - 1) / 2)%nat) as [y|] eqn:Hy; [|done].
    unfold handle_less in *.
    rewrite !lookup_app_l; [done|..];
      by eapply (Forall_lookup_1 _ _ _ _ Hv).
  - unfold loads. rewrite fmap_app. apply Forall_app. split; [done|].
    by apply Forall_singleton.
Qed.

Lemma NewAdvancedLoadBalancer_invariant now hosts :
  heap_invariant (NewAdvancedLoadBalancer now hosts).
Proof.
  unfold NewAdvancedLoadBalancer.
  assert (heap_invariant (mkAdvanced [] (heap_Init [] []))) as H0.
  { split_and!; cbn; [apply Forall_nil_2| |apply Forall_nil_2].
    intros j Hj. cbn in Hj. lia. }
  revert H0. generalize (heap_Init [] []). generalize (@nil BackendImpl).
  induction hosts as [|host hosts IH]; intros bs h Hinv.
  - done.
  - cbn [foldl]. unfold new_advanced_step at 2.
    rewrite IsHealthy_flagged by done.
    apply IH. apply heap_invariant_push.
    + rewrite length_app. cbn. lia.
    + apply heap_invariant_grow; [cbn; lia|done].
Qed.

(** In sequential use the priority structure always holds handles of the
    backend list, in heap order for the current loads: the conditions of
    C5 are met before every selection. *)
Lemma heap_invariant_sequential now hosts (ops : list AdvancedOp) :
  heap_invariant
    (foldl (λ b op, AdvancedBalancer_apply op b)
           (NewAdvancedLoadBalancer now hosts) ops).
Proof.
  pose proof (NewAdvancedLoadBalancer_invariant now hosts) as H0.
  revert H0. generalize (NewAdvancedLoadBalancer now hosts).
  induction ops as [|op ops IH]; intros b Hinv; [done|].
  cbn [foldl]. apply IH. destruct op as [o t t'|t|t]; cbn.
  - by apply AdvancedBalancer_Invoke_invariant.
  - by apply AdvancedBalancer_GetNextServer_invariant.
  - by apply AdvancedBalancer_healthChecker_tick_invariant.
Qed.

(** ** No index out of range *)

(** [Invoke] never indexes outside the backend list: of the basic and
    health-aware balancers always, of the load-aware balancer as long as
    the priority structure holds handles of the list. *)
Lemma Invoke_never_panics :
  (∀ o now b, (BasicBalancer_Invoke o now b).1 ≠ Panic)
  ∧ (∀ o now now' b, (IntermediateBalancer_Invoke o now now' b).1 ≠ Panic)
  ∧ (∀ o now now' b,
       heap_invariant b → (AdvancedBalancer_Invoke o now now' b).1 ≠ Panic).
Proof.
  assert (∀ o now be, (BackendImpl_Invoke o now be).1 ≠ Panic) as Hbe.
  { intros o now be. rewrite Invoke_unfold. cbn [fst].
    unfold BackendImpl_Invoke_call. by repeat case_match. }
  split_and!.
  - intros o now b. unfold BasicBalancer_Invoke, BasicBalancer_GetNextServer.
    destruct (Nat.eqb_spec (length (basic_backends b)) 0) as [|Hn]; [done|].
    pose proof (next_index_lt (basic_counter b) (length (basic_backends b))
                  ltac:(lia)) as Hlt.
    destruct next_index as [idx c']. cbn [fst basic_backends] in *.
    destruct (lookup_lt_is_Some_2 _ _ Hlt) as [be ->].
    specialize (Hbe o now be).
    by destruct (BackendImpl_Invoke o now be).
  - intros o now now' b. unfold IntermediateBalancer_Invoke.
    destruct (IntermediateBalancer_GetNextServer now b) as [[i|] b1] eqn:Hs;
      [|done].
    assert (is_Some (inter_backends b1 !! i)) as [be ->].
    { revert Hs. unfold IntermediateBalancer_GetNextServer.
      destruct (length (inter_backends b) =? 0)%nat; [done|].
      pose proof (inter_scan_selected (length (inter_backends b)) now
                    (inter_backends b) (inter_counter b) i) as Hsel.
      destruct inter_scan as [r [bs c]]. cbn [fst snd] in *.
      intros [= -> <-]. by apply Hsel. }
    specialize (Hbe o now' be).
    by destruct (BackendImpl_Invoke o now' be).
  - intros o now now' b Hinv. unfold AdvancedBalancer_Invoke.
    destruct (AdvancedBalancer_GetNextServer_invariant now b Hinv) as [_ Hsel].
    destruct (AdvancedBalancer_GetNextServer now b) as [[i|] b1];
      cbn [fst snd] in *; [|done].
    specialize (Hsel i eq_refl).
    destruct (lookup_lt_is_Some_2 _ _ Hsel) as [be Hi].
    unfold AdvancedBalancer_call. rewrite Hi.
    specialize (Hbe o now' be).
    destruct (BackendImpl_Invoke o now' be) as [r be']. cbn [fst] in Hbe.
    unfold AdvancedBalancer_settle. cbn [adv_backends].
    destruct r as [resp|e|]; [done| |done].
    rewrite list_lookup_insert_eq by done. by case_match.
Qed.

(** ** Loads that change under the heap

    With overlapping calls a handle can be resident while its backend is in
    flight (the refill of an empty structure puts it there), and its load
    then changes under the heap.  Here "a" and "b" are resident with loads
    1 and 1, the call on "b" returns, and the next selection still takes
    the root "a", of load 1, though "b", of load 0, is resident: outside
    heap order the selection is not minimal. *)
Lemma stale_heap_order_example :
  pool_run [StepSelect 1; StepSelect 1; StepSelect 1;
            StepEnter 0; StepEnter 1;
            StepSelect 2;
            StepExchange 1 (DoStatus 200) 3; StepLeave 1;
            StepSelect 4]
    (mkPool (NewAdvancedLoadBalancer 0 ["a"; "b"; "c"]%string) [])
  = Some (mkPool
            {| adv_backends := [mkBackend "a" 0 0 1 1; mkBackend "b" 0 0 1 0;
                                mkBackend "c" 0 0 1 0];
               adv_heap := [1%nat] |}
            [GEntered 0; GReturned 1 (Ok "Success from b"); GSelected 2;
             GSelected 2; GSelected 0]).
Proof. reflexivity. Qed.

(** ** No handle twice in sequential use *)

Lemma pop_healthy_NoDup fuel now (bs : list BackendImpl) (h : backendHeap) :
  handles_valid bs h → heap_ordered bs h → NoDup h →
  NoDup (pop_healthy fuel now bs h).2.2
  ∧ ∀ i, (pop_healthy fuel now bs h).1 = Some i →
      i ∉ (pop_healthy fuel now bs h).2.2.
Proof.
  revert bs h. induction fuel as [|fuel IH]; intros bs h Hv Ho Hnd; [done|].
  cbn [pop_healthy]. unfold backendHeap_Len.
  destruct h as [|x0 h0] eqn:Hh; [done|].
  rewrite <- Hh in *. replace (length h =? 0)%nat with false
    by (rewrite Hh; done).
  assert (h !! 0%nat = Some x0) as Hroot by (by rewrite Hh).
  destruct (heap_Pop_spec bs h x0 Hv Ho Hroot) as (h' & -> & Hperm & Hv' & Ho').
  rewrite Hperm in Hnd. apply NoDup_cons in Hnd as [Hx0 Hnd'].
  assert (x0 < length bs)%nat as Hlt.
  { by eapply (Forall_lookup_1 _ _ _ _ Hv). }
  destruct (lookup_lt_is_Some_2 bs x0 Hlt) as [be0 Hbe0]. rewrite Hbe0.
  destruct (BackendImpl_IsHealthy now be0) as [ok be0'] eqn:Hih.
  destruct ok.
  - cbn [fst snd]. split; [done|]. by intros i [= <-].
  - assert (key <$> bs = key <$> <[x0 := be0']> bs) as Hk.
    { symmetry. apply (keys_insert _ _ be0); [done|].
      change be0' with (false, be0').2. rewrite <- Hih. apply IsHealthy_key. }
    apply IH; [|by apply (heap_ordered_ext bs)|done].
    apply (handles_valid_ext bs); [by rewrite length_insert|done].
Qed.

Lemma AdvancedBalancer_GetNextServer_NoDup now (b : AdvancedBalancer) :
  heap_invariant b → NoDup (adv_heap b) →
  NoDup (adv_heap (AdvancedBalancer_GetNextServer now b).2)
  ∧ ∀ i, (AdvancedBalancer_GetNextServer now b).1 = Some i →
      i ∉ adv_heap (AdvancedBalancer_GetNextServer now b).2.
Proof.
  intros (Hv & Ho & _) Hnd. destruct b as [bs h].
  cbn [adv_backends adv_heap] in *.
  unfold AdvancedBalancer_GetNextServer, backendHeap_Len.
  cbn [adv_backends adv_heap].
  assert (∀ bs1 h1, handles_valid bs1 h1 → heap_ordered bs1 h1 → NoDup h1 →
            let r := (if (length h1 =? 0)%nat
                      then (None, mkAdvanced bs1 h1)
                      else let '(sel, (bs2, h2)) :=
                             pop_healthy (length h1) now bs1 h1 in
                           (sel, mkAdvanced bs2 h2)) in
            NoDup (adv_heap r.2) ∧ ∀ i, r.1 = Some i → i ∉ adv_heap r.2)
    as Hrest.
  { intros bs1 h1 Hv1 Ho1 Hnd1. cbn zeta.
    destruct (length h1 =? 0)%nat; [done|].
    pose proof (pop_healthy_NoDup (length h1) now bs1 h1 Hv1 Ho1 Hnd1) as Hp.
    by destruct (pop_healthy (length h1) now bs1 h1) as [sel [bs2 h2]]. }
  destruct h as [|x0 h0]; cbn [length Nat.eqb].
  - destruct (refill_spec now bs) as (_ & Hv1 & Ho1 & _ & Hnd1).
    destruct (refill now bs []) as [bs1 h1]. by apply Hrest.
  - by apply (Hrest bs (x0 :: h0)).
Qed.

Lemma heap_Push_NoDup (bs : list BackendImpl) (h : backendHeap) (i : nat) :
  heap_invariant (mkAdvanced bs h) → (i < length bs)%nat →
  NoDup h → i ∉ h → NoDup (heap_Push bs h i).
Proof.
  intros (Hv & Ho & _) Hi Hnd Hni. cbn [adv_backends adv_heap] in *.
  destruct (heap_Push_spec bs h i Hv Hi Ho) as (_ & Hperm & _).
  rewrite Hperm. by apply NoDup_cons.
Qed.

Lemma AdvancedBalancer_Invoke_NoDup o now now' (b : AdvancedBalancer) :
  heap_invariant b → NoDup (adv_heap b) →
  NoDup (adv_heap (AdvancedBalancer_Invoke o now now' b).2).
Proof.
  intros Hinv Hnd. unfold AdvancedBalancer_Invoke.
  destruct (AdvancedBalancer_GetNextServer_invariant now b Hinv) as [Hinv1 Hsel].
  destruct (AdvancedBalancer_GetNextServer_NoDup now b Hinv Hnd) as [Hnd1 Hni].
  destruct (AdvancedBalancer_GetNextServer now b) as [[i|] b1];
    cbn [fst snd] in *; [|done].
  specialize (Hsel i eq_refl). specialize (Hni i eq_refl).
  pose proof (AdvancedBalancer_call_invariant i o now' b1 Hinv1) as Hinv2.
  destruct (lookup_lt_is_Some_2 _ _ Hsel) as [be Hbe].
  unfold AdvancedBalancer_call in *. rewrite Hbe in *.
  destruct (BackendImpl_Invoke o now' be) as [r be']. cbn [snd] in *.
  destruct b1 as [bs1 h1]. cbn [adv_backends adv_heap] in *.
  unfold AdvancedBalancer_settle. cbn [adv_backends adv_heap].
  assert (i < length (<[i := be']> bs1))%nat as Hi' by (by rewrite length_insert).
  destruct r as [resp|e|]; cbn [snd adv_heap];
    try by apply heap_Push_NoDup.
  rewrite list_lookup_insert_eq by done.
  set (be1 := set_failureCount (int32 (failureCount be' + 1)) be').
  destruct (failureCount be1 >=? maxFailureCount); cbn [snd adv_heap]; [done|].
  rewrite list_insert_insert_eq.
  apply heap_Push_NoDup; [|by rewrite length_insert|done..].
  apply (heap_invariant_ext (<[i := be']> bs1)); [|done].
  rewrite <- (list_insert_insert_eq bs1 i be1 be').
  symmetry. apply (keys_insert _ _ be'); [|done].
  by rewrite list_lookup_insert_eq.
Qed.

Lemma sweep_step_NoDup now (st : list BackendImpl * list nat) (i : nat) :
  heap_invariant (mkAdvanced st.1 st.2) → NoDup st.2 →
  NoDup (sweep_step now st i).2.
Proof.
  destruct st as [bs h]. cbn [fst snd sweep_step]. intros Hinv Hnd.
  destruct (bs !! i) as [be|] eqn:Hbe; [|done].
  assert (i < length bs)%nat as Hi by (by eapply lookup_lt_Some).
  destruct (BackendImpl_IsHealthy now be) as [ok1 be1] eqn:Hh1.
  destruct ok1; cbn [negb fst snd]; [|done].
  destruct (BackendImpl_IsHealthy now be1) as [ok2 be2] eqn:Hh2.
  destruct ok2; [|done].
  destruct (bool_decide_reflect (i ∈ h)) as [|Hni]; cbn [negb fst snd]; [done|].
  apply heap_Push_NoDup; [|by rewrite length_insert|done..].
  apply (heap_invariant_ext bs); [|done].
  symmetry. apply (keys_insert _ _ be); [done|].
  change be2 with (true, be2).2. rewrite <- Hh2, IsHealthy_key.
  change be1 with (true, be1).2. rewrite <- Hh1. apply IsHealthy_key.
Qed.

Lemma AdvancedBalancer_healthChecker_tick_NoDup now (b : AdvancedBalancer) :
  heap_invariant b → NoDup (adv_heap b) →
  NoDup (adv_heap (AdvancedBalancer_healthChecker_tick now b)).
Proof.
  destruct b as [bs h]. unfold AdvancedBalancer_healthChecker_tick.
  cbn [adv_backends adv_heap]. generalize (seq 0 (length bs)). intros l.
  change bs with (bs, h).1 at 1. change h with (bs, h).2 at 2 3.
  generalize (bs, h). clear bs h.
  induction l as [|i l IH]; intros st Hinv Hnd.
  - cbn [foldl]. by destruct st.
  - cbn [foldl]. apply IH.
    + by apply sweep_step_invariant.
    + by apply sweep_step_NoDup.
Qed.

Lemma NewAdvancedLoadBalancer_NoDup now hosts :
  NoDup (adv_heap (NewAdvancedLoadBalancer now hosts)).
Proof.
  unfold NewAdvancedLoadBalancer.
  assert (heap_invariant (mkAdvanced [] (heap_Init [] []))
          ∧ NoDup (heap_Init [] [])) as H0.
  { split; [|apply NoDup_nil_2].
    split_and!; cbn; [apply Forall_nil_2| |apply Forall_nil_2].
    intros j Hj. cbn in Hj. lia. }
  revert H0. generalize (heap_Init [] []). generalize (@nil BackendImpl).
  induction hosts as [|host hosts IH]; intros bs h [Hinv Hnd].
  - done.
  - cbn [foldl]. unfold new_advanced_step at 2.
    rewrite IsHealthy_flagged by done.
    assert (heap_invariant (mkAdvanced (bs ++ [NewBackend host]) h)) as Hinv'.
    { apply heap_invariant_grow; [cbn; lia|done]. }
    assert (length bs < length (bs ++ [NewBackend host]))%nat as Hlt.
    { rewrite length_app. cbn. lia. }
    apply IH. split.
    + by apply heap_invariant_push.
    + apply heap_Push_NoDup; [done..|].
      destruct Hinv as (Hv & _). cbn [adv_backends adv_heap] in Hv.
      intros Hin. unfold handles_valid in Hv. rewrite Forall_forall in Hv.
      specialize (Hv _ Hin). cbn in Hv. lia.
Qed.

(** In sequential use no handle is twice in the priority structure: the
    duplicates of C7 need calls that overlap, or a tick inside a call. *)
Lemma no_duplicate_sequential now hosts (ops : list AdvancedOp) :
  NoDup (adv_heap (foldl (λ b op, AdvancedBalancer_apply op b)
                         (NewAdvancedLoadBalancer now hosts) ops)).
Proof.
  pose proof (NewAdvancedLoadBalancer_invariant now hosts) as H0.
  pose proof (NewAdvancedLoadBalancer_NoDup now hosts) as H1.
  revert H0 H1. generalize (NewAdvancedLoadBalancer now hosts).
  induction ops as [|op ops IH]; intros b Hinv Hnd; [done|].
  cbn [foldl]. destruct op as [o t t'|t|t]; cbn [AdvancedBalancer_apply].
  - apply IH; [by apply AdvancedBalancer_Invoke_invariant|].
    by apply AdvancedBalancer_Invoke_NoDup.
  - apply IH; [by apply AdvancedBalancer_GetNextServer_invariant|].
    by apply AdvancedBalancer_GetNextServer_NoDup.
  - apply IH; [by apply AdvancedBalancer_healthChecker_tick_invariant|].
    by apply AdvancedBalancer_healthChecker_tick_NoDup.
Qed.

(** * Further properties of the code *)

(** ** The comparison of the heap *)

(** X1: [backendHeap.Less] compares backends by a strict weak order:
    it is irreflexive, asymmetric and transitive, so is its complement, and
    two backends neither of which is less than the other have the same load
    and the same address. *)
Theorem backend_less_strict_weak_order :
  (∀ a, backend_less a a = false)
  ∧ (∀ a b, backend_less a b = true → backend_less b a = false)
  ∧ (∀ a b c, backend_less a b = true → backend_less b c = true →
       backend_less a c = true)
  ∧ (∀ a b c, backend_less a b = false → backend_less b c = false →
       backend_less a c = false)
  ∧ (∀ a b, backend_less a b = false ∧ backend_less b a = false
            ↔ key a = key b).
Proof.
  assert (∀ a b, backend_less a b = false ↔
            ¬ (activeRequests a < activeRequests b
               ∨ (activeRequests a = activeRequests b
                  ∧ String.ltb (addr a) (addr b) = true))) as Hno.
  { intros a b. rewrite <- backend_less_spec. by destruct (backend_less a b). }
  split_and!.
  - intros a. apply Hno. intros [?|[_ H]]; [lia|].
    by rewrite string_ltb_irrefl in H.
  - apply backend_less_asym.
  - intros a b c [Hab|[Hab Hs1]]%backend_less_spec [Hbc|[Hbc Hs2]]%backend_less_spec;
      apply backend_less_spec; try (left; lia).
    right. split; [lia|]. by apply (string_ltb_trans _ (addr b)).
  - intros a b c Hab Hbc. by apply (backend_le_trans c b a).
  - intros a b. unfold key, BackendImpl_GetLoad. rewrite !Hno. split.
    + intros [H1 H2].
      assert (activeRequests a = activeRequests b) as Hl by lia.
      f_equal; [done|]. apply string_ltb_total.
      * destruct (String.ltb (addr a) (addr b)) eqn:E; [|done].
        destruct H1. by right.
      * destruct (String.ltb (addr b) (addr a)) eqn:E; [|done].
        destruct H2. by right.
    + intros [= Hl Ha]. rewrite Hl, Ha.
      split; intros [?|[_ H]]; try lia; by rewrite string_ltb_irrefl in H.
Qed.

(** ** container/heap on backendHeap *)

(** X2: [heap.Push] on a heap-ordered [backendHeap] of valid handles adds
    exactly the pushed handle and leaves the heap ordered. *)
Theorem heap_Push_keeps_heap (bs : list BackendImpl) (h : backendHeap) (x : nat) :
  handles_valid bs h → (x < length bs)%nat → heap_ordered bs h →
  handles_valid bs (heap_Push bs h x)
  ∧ heap_Push bs h x ≡ₚ x :: h
  ∧ heap_ordered bs (heap_Push bs h x).
Proof. apply heap_Push_spec. Qed.

(** X2 on a heap holding the backend with two calls in flight, pushing the
    one with a single call. *)
Lemma heap_Push_keeps_heap_witness :
  heap_Push [mkBackend "a" 0 0 1 2; mkBackend "b" 0 0 1 1] [0%nat] 1
  ≡ₚ [1; 0]%nat
  ∧ heap_ordered [mkBackend "a" 0 0 1 2; mkBackend "b" 0 0 1 1]
      (heap_Push [mkBackend "a" 0 0 1 2; mkBackend "b" 0 0 1 1] [0%nat] 1).
Proof.
  refine ((λ H, conj (proj1 (proj2 H)) (proj2 (proj2 H)))
            (heap_Push_keeps_heap
               [mkBackend "a" 0 0 1 2; mkBackend "b" 0 0 1 1] [0%nat] 1 _ _ _)).
  - repeat constructor.
  - simpl. lia.
  - intros j Hj. simpl in Hj. lia.
Defined.

(** X3: [heap.Pop] on a non-empty heap-ordered [backendHeap] of valid
    handles returns a handle no resident handle is less than, removes
    exactly that one, and leaves the heap ordered. *)
Theorem heap_Pop_returns_least (bs : list BackendImpl) (h : backendHeap) :
  handles_valid bs h → heap_ordered bs h → h ≠ [] →
  ∃ x h', heap_Pop bs h = (Some x, h')
          ∧ h ≡ₚ x :: h'
          ∧ handles_valid bs h'
          ∧ heap_ordered bs h'
          ∧ ∀ y, y ∈ h → handle_less bs y x = false.
Proof.
  intros Hv Ho Hne. destruct h as [|x h0] eqn:Eh; [done|]. rewrite <- Eh in *.
  assert (h !! 0%nat = Some x) as H0 by by rewrite Eh.
  destruct (heap_Pop_spec bs h x Hv Ho H0) as (h' & Hpop & Hperm & Hv' & Ho').
  exists x, h'. split_and!; try done.
  intros y [k Hk]%list_elem_of_lookup.
  pose proof (heap_root_minimal bs h k Hv Ho (lookup_lt_Some _ _ _ Hk)) as Hmin.
  unfold backendHeap_Less in Hmin. by rewrite Hk, H0 in Hmin.
Qed.

(** X3 on a heap of two backends with loads 1 and 2. *)
Lemma heap_Pop_returns_least_witness :
  ∃ x h', heap_Pop [mkBackend "a" 0 0 1 2; mkBackend "b" 0 0 1 1] [1; 0]%nat
          = (Some x, h')
          ∧ [1; 0]%nat ≡ₚ x :: h'
          ∧ handles_valid [mkBackend "a" 0 0 1 2; mkBackend "b" 0 0 1 1] h'
          ∧ heap_ordered [mkBackend "a" 0 0 1 2; mkBackend "b" 0 0 1 1] h'
          ∧ ∀ y, y ∈ [1; 0]%nat →
              handle_less [mkBackend "a" 0 0 1 2; mkBackend "b" 0 0 1 1] y x
              = false.
Proof.
  apply heap_Pop_returns_least.
  - repeat constructor.
  - intros j Hj. simpl in Hj. assert (j = 1%nat) as -> by lia. reflexivity.
  - discriminate.
Defined.

(** ** The load-aware balancer when operations do not overlap *)

(** X4: as long as the operations on a balancer from
    [NewAdvancedLoadBalancer] do not overlap (every call of [Invoke], every
    direct call of [GetNextServer] and every tick of [healthChecker] ends
    before the next one begins), every handle in the priority structure
    points to a backend of the balancer and the structure is heap-ordered by
    the current loads.  [healthChecker] runs in a goroutine of its own: a
    tick that falls between the selection and the push-back of a call is
    not among these runs, and can break the order. *)
Theorem sequential_use_keeps_heap (now : Time) (hosts : list string)
    (ops : list AdvancedOp) :
  let b := foldl (λ b op, AdvancedBalancer_apply op b)
                 (NewAdvancedLoadBalancer now hosts) ops in
  handles_valid (adv_backends b) (adv_heap b)
  ∧ heap_ordered (adv_backends b) (adv_heap b).
Proof.
  intros b. destruct (heap_invariant_sequential now hosts ops) as (Hv & Ho & _).
  done.
Qed.

(** X5: in the same runs, whose operations do not overlap, no handle is in
    the priority structure twice: [Invoke] pushes back only the handle its
    selection popped, and [healthChecker] pushes only handles that are not
    resident.  A tick that falls between the selection and the push-back of
    a call is not among these runs, and leaves the handle there twice. *)
Theorem sequential_use_no_duplicates (now : Time) (hosts : list string)
    (ops : list AdvancedOp) :
  NoDup (adv_heap (foldl (λ b op, AdvancedBalancer_apply op b)
                         (NewAdvancedLoadBalancer now hosts) ops)).
Proof. apply no_duplicate_sequential. Qed.

(** X6: [Invoke] never indexes out of range: the basic and the health-aware
    balancer on any state, the load-aware balancer on every state one
    goroutine can bring it to. *)
Theorem Invoke_index_in_range :
  (∀ o now b, (BasicBalancer_Invoke o now b).1 ≠ Panic)
  ∧ (∀ o now now' b, (IntermediateBalancer_Invoke o now now' b).1 ≠ Panic)
  ∧ (∀ t hosts ops o now now',
       (AdvancedBalancer_Invoke o now now'
          (foldl (λ b op, AdvancedBalancer_apply op b)
                 (NewAdvancedLoadBalancer t hosts) ops)).1 ≠ Panic).
Proof.
  destruct Invoke_never_panics as (H1 & H2 & H3). split_and!; [done..|].
  intros t hosts ops o now now'. apply H3, heap_invariant_sequential.
Qed.

(** ** Round-robin from the constructor *)

Lemma window_index_from_0 (n p : nat) :
  Z.of_nat p < 2 ^ 32 → window_index 0 n p = (p mod n)%nat.
Proof.
  intros Hp. unfold window_index. rewrite Z.add_0_l.
  rewrite (Z.mod_small (Z.of_nat p)) by lia.
  destruct n as [|n].
  - cbn [Z.of_nat]. rewrite Z.mod_0_r. cbn. lia.
  - rewrite <- Nat2Z.inj_mod. apply Nat2Z.id.
Qed.

(** X7: the hosts [cmd/main] prints: the first [k] selections of a basic
    balancer from [NewBasicLoadBalancer], asked for their [Host], give the
    hosts in the order of the URL list, again and again. *)
Theorem NewBasicLoadBalancer_hosts_in_order (hosts : list string) (k : nat) :
  hosts ≠ [] → Z.of_nat k ≤ 2 ^ 32 →
  BasicBalancer_hosts k (NewBasicLoadBalancer hosts)
  = (λ p, hosts !! (p mod length hosts)%nat) <$> seq 0 k.
Proof.
  intros Hne Hk. unfold BasicBalancer_hosts.
  rewrite BasicBalancer_calls_spec; cbn [NewBasicLoadBalancer basic_backends basic_counter fst].
  - rewrite <- list_fmap_compose. apply list_eq. intros i.
    rewrite !list_lookup_fmap.
    destruct (seq 0 k !! i) as [p|] eqn:Hp; [|done].
    apply lookup_seq in Hp as [-> Hi]. cbn.
    rewrite length_fmap, window_index_from_0 by lia.
    rewrite list_lookup_fmap. by destruct (hosts !! _).
  - rewrite length_fmap. destruct hosts; [done|cbn; lia].
  - lia.
Qed.

(** X7 on the four URLs and the six selections of cmd/main. *)
Lemma NewBasicLoadBalancer_hosts_in_order_witness :
  BasicBalancer_hosts 6
    (NewBasicLoadBalancer
       ["localhost:8081"; "localhost:8082"; "localhost:8083"; "localhost:8084"]%string)
  = [Some "localhost:8081"; Some "localhost:8082"; Some "localhost:8083";
     Some "localhost:8084"; Some "localhost:8081"; Some "localhost:8082"]%string.
Proof.
  exact (NewBasicLoadBalancer_hosts_in_order
           ["localhost:8081"; "localhost:8082"; "localhost:8083"; "localhost:8084"]%string
           6 ltac:(discriminate) ltac:(lia)).
Defined.

Lemma selector_Invoke_spec (req : string) (b : selector.BasicBalancer) :
  (0 < length (selector.backends b))%nat → 0 ≤ selector.counter b < 2 ^ 32 →
  ∃ be,
    selector.backends b
      !! Z.to_nat (selector.counter b mod Z.of_nat (length (selector.backends b)))
    = Some be
    ∧ selector.Invoke req b =
      (inl (selector.backendImpl_Invoke req be),
       {| selector.backends := selector.backends b;
          selector.counter := (selector.counter b + 1) mod 2 ^ 32 |}).
Proof.
  intros Hn Hc. unfold selector.Invoke.
  rewrite selector_NextServer_spec by done. cbn [selector.backends].
  destruct (lookup_lt_is_Some_2 (selector.backends b)
              (Z.to_nat (selector.counter b mod Z.of_nat (length (selector.backends b)))))
    as [be Hbe].
  { pose proof (Z.mod_pos_bound (selector.counter b)
                  (Z.of_nat (length (selector.backends b)))). lia. }
  exists be. by rewrite Hbe.
Qed.

Lemma selector_invokes_spec (reqs : list string) (b : selector.BasicBalancer) :
  (0 < length (selector.backends b))%nat → 0 ≤ selector.counter b < 2 ^ 32 →
  length (selector_invokes reqs b).1 = length reqs
  ∧ (selector_invokes reqs b).2
    = {| selector.backends := selector.backends b;
         selector.counter :=
           (selector.counter b + Z.of_nat (length reqs)) mod 2 ^ 32 |}
  ∧ ∀ p req, reqs !! p = Some req →
      ∃ be,
        selector.backends b
          !! window_index (selector.counter b) (length (selector.backends b)) p
        = Some be
        ∧ (selector_invokes reqs b).1 !! p
          = Some (inl (selector.backendImpl_Invoke req be)).
Proof.
  revert b. induction reqs as [|req reqs IH]; intros b Hn Hc.
  { cbn. split_and!; [done| |done]. destruct b as [bs c]. cbn in *.
    f_equal. rewrite Z.add_0_r, Z.mod_small; lia. }
  cbn [selector_invokes].
  destruct (selector_Invoke_spec req b Hn Hc) as (be & Hbe & ->).
  set (b1 := {| selector.backends := selector.backends b;
                selector.counter := (selector.counter b + 1) mod 2 ^ 32 |}).
  destruct (IH b1) as (Hlen & Hst & Hres).
  { done. }
  { cbn. apply Z.mod_pos_bound. lia. }
  destruct (selector_invokes reqs b1) as [rs b2]. cbn [fst snd] in *.
  split_and!.
  - cbn. by rewrite Hlen.
  - rewrite Hst. cbn. f_equal. rewrite Zplus_mod_idemp_l. f_equal. lia.
  - intros [|p] r Hp; cbn in Hp.
    + injection Hp as ->. exists be. split; [|done].
      by rewrite window_index_0.
    + destruct (Hres p r Hp) as (be' & Hbe' & Hr). exists be'. split; [|done].
      cbn in Hbe'. by rewrite window_index_step in Hbe'.
Qed.

(** X8: [loader.NewBalancer] knows only the level "basic"; the balancer it
    returns answers the [p]-th call of [Invoke] in the name of the host at
    position [p mod n] of the URL list, and with no error. *)
Theorem loader_NewBalancer_round_robin (level : string) (hosts reqs : list string)
    (b : selector.BasicBalancer) :
  loader.NewBalancer level hosts = Some b →
  hosts ≠ [] → Z.of_nat (length reqs) ≤ 2 ^ 32 →
  level = "basic"%string
  ∧ selector_Host <$> selector.backends b = hosts
  ∧ length (selector_invokes reqs b).1 = length reqs
  ∧ ∀ p req, reqs !! p = Some req →
      ∃ a, hosts !! (p mod length hosts)%nat = Some a
           ∧ (selector_invokes reqs b).1 !! p
             = Some (inl ("addr: " +:+ a +:+ ", req: " +:+ req)).
Proof.
  unfold loader.NewBalancer. intros Hb Hne Hlen.
  destruct (String.eqb_spec level "basic") as [->|]; [|done].
  injection Hb as <-. split; [done|].
  assert (0 < length hosts)%nat as Hn by (destruct hosts; [done|cbn; lia]).
  destruct (selector_invokes_spec reqs (selector.NewBasicLoadBalancer hosts))
    as (Hl & _ & Hres).
  { cbn. by rewrite length_fmap. }
  { cbn. lia. }
  split_and!.
  - cbn. rewrite <- list_fmap_compose. apply list_fmap_id.
  - done.
  - intros p req Hp. destruct (Hres p req Hp) as (be & Hbe & Hr).
    cbn in Hbe. rewrite length_fmap, window_index_from_0 in Hbe.
    2:{ apply lookup_lt_Some in Hp. lia. }
    rewrite list_lookup_fmap in Hbe.
    destruct (hosts !! (p mod length hosts)%nat) as [a|]; [|done].
    injection Hbe as <-. by exists a.
Qed.

(** X8 on two hosts: the third request goes to the first host again. *)
Lemma loader_NewBalancer_round_robin_witness :
  ∃ a, ["h1"; "h2"]%string !! (2 mod 2)%nat = Some a
       ∧ (selector_invokes ["r0"; "r1"; "r2"]%string
            (selector.NewBasicLoadBalancer ["h1"; "h2"]%string)).1 !! 2%nat
         = Some (inl ("addr: " +:+ a +:+ ", req: " +:+ "r2"))%string.
Proof.
  exact (proj2 (proj2 (proj2
           (loader_NewBalancer_round_robin "basic" ["h1"; "h2"]%string
              ["r0"; "r1"; "r2"]%string
              (selector.NewBasicLoadBalancer ["h1"; "h2"]%string)
              eq_refl ltac:(discriminate) ltac:(simpl; lia))))
           2%nat "r2"%string eq_refl).
Defined.

(** X9: the basic balancer does not look at health: which backend a
    selection returns depends on the counter and on the number of backends
    only, and [Invoke] leaves every health flag as it was, whatever the
    exchange did. *)
Theorem BasicBalancer_ignores_health :
  (∀ bs bs' c,
     length bs = length bs' →
     (BasicBalancer_GetNextServer (mkBasic bs c)).1
     = (BasicBalancer_GetNextServer (mkBasic bs' c)).1)
  ∧ (∀ o now b,
       healthy <$> basic_backends (BasicBalancer_Invoke o now b).2
       = healthy <$> basic_backends b).
Proof.
  split.
  - intros bs bs' c Hlen. unfold BasicBalancer_GetNextServer.
    cbn [basic_backends basic_counter]. rewrite <- Hlen.
    destruct (length bs =? 0)%nat; [done|].
    by destruct (next_index c (length bs)).
  - intros o now b. unfold BasicBalancer_Invoke.
    destruct (BasicBalancer_GetNextServer b) as [[i|] b1] eqn:Hsel.
    + assert (basic_backends b1 = basic_backends b) as Hbs.
      { unfold BasicBalancer_GetNextServer in Hsel.
        destruct (length (basic_backends b) =? 0)%nat; [congruence|].
        destruct (next_index _ _). by injection Hsel as _ <-. }
      destruct (basic_backends b1 !! i) as [be|] eqn:Hbe;
        [|by cbn; rewrite Hbs].
      destruct (BackendImpl_Invoke o now be) as [r be'] eqn:Hinv.
      cbn [snd basic_backends]. rewrite list_fmap_insert, <- Hbs.
      apply list_insert_id. rewrite list_lookup_fmap, Hbe. cbn. f_equal.
      rewrite Invoke_unfold in Hinv. injection Hinv as _ <-.
      unfold BackendImpl_Invoke_leave, BackendImpl_Invoke_enter.
      by destruct o; cbn; try case_match.
    + unfold BasicBalancer_GetNextServer in Hsel.
      destruct (length (basic_backends b) =? 0)%nat.
      * by injection Hsel as <-.
      * by destruct (next_index _ _).
Qed.

(** ** The health check of one backend *)

Lemma IsHealthy_twice (now : Time) (b : BackendImpl) :
  BackendImpl_IsHealthy now (BackendImpl_IsHealthy now b).2
  = ((BackendImpl_IsHealthy now b).1, (BackendImpl_IsHealthy now b).2).
Proof.
  unfold BackendImpl_IsHealthy.
  destruct (healthy b =? 1) eqn:Hh; cbn [fst snd].
  - by rewrite Hh.
  - destruct (coolDown <? time_Since now (lastFailure b)) eqn:Hc; cbn [fst snd].
    + done.
    + by rewrite Hh, Hc.
Qed.

(** X10: a second [IsHealthy] at the same clock reading gives the same
    answer and changes nothing: the two calls [healthChecker] makes in a
    row act like one. *)
Theorem IsHealthy_idempotent (now : Time) (b : BackendImpl) :
  BackendImpl_IsHealthy now (BackendImpl_IsHealthy now b).2
  = ((BackendImpl_IsHealthy now b).1, (BackendImpl_IsHealthy now b).2).
Proof. apply IsHealthy_twice. Qed.

Lemma Time_Sub_mono (t t' u : Time) : t ≤ t' → Time_Sub t u ≤ Time_Sub t' u.
Proof.
  intros Ht. unfold Time_Sub, minDuration, maxDuration.
  repeat case_match; lia.
Qed.

(** X11: availability does not expire: a backend [IsHealthy] answers true
    for stays one at every later clock reading, until something else
    changes it. *)
Theorem IsHealthy_later (now now' : Time) (b : BackendImpl) :
  now ≤ now' → accepts now b → accepts now' b.
Proof.
  unfold accepts, BackendImpl_IsHealthy, time_Since. intros Hle.
  destruct (healthy b =? 1); [done|].
  pose proof (Time_Sub_mono now now' (lastFailure b) Hle).
  destruct (coolDown <? Time_Sub now (lastFailure b)) eqn:H1; [|done].
  intros _. destruct (coolDown <? Time_Sub now' (lastFailure b)) eqn:H2; [done|].
  lia.
Qed.

(** X11 on a backend that failed at second 1: available after second 3,
    and still at second 5. *)
Lemma IsHealthy_later_witness :
  accepts 5000000001 (mkBackend "a" 3 1000000000 0 0).
Proof.
  apply (IsHealthy_later 3000000001 5000000001); [lia|reflexivity].
Defined.

(** ** Selection by the health-aware balancer *)

Lemma inter_scan_first_accepted (t k : nat) now (bs : list BackendImpl)
    (c : Z) (be : BackendImpl) :
  (0 < length bs)%nat → 0 ≤ c → c + Z.of_nat t < 2 ^ 32 → (t < k)%nat →
  (∀ p, (p < t)%nat →
     ∃ be', bs !! Z.to_nat ((c + Z.of_nat p) mod Z.of_nat (length bs)) = Some be'
            ∧ excluded_at now be') →
  bs !! Z.to_nat ((c + Z.of_nat t) mod Z.of_nat (length bs)) = Some be →
  accepts now be →
  inter_scan k now bs c
  = (Some (Z.to_nat ((c + Z.of_nat t) mod Z.of_nat (length bs))),
     (<[Z.to_nat ((c + Z.of_nat t) mod Z.of_nat (length bs))
        := (BackendImpl_IsHealthy now be).2]> bs,
      (c + Z.of_nat t + 1) mod 2 ^ 32)).
Proof.
  revert k c. induction t as [|t IH]; intros k c Hn Hc Hwrap Hk Hex Hbe Hacc.
  - destruct k as [|k]; [lia|]. cbn [inter_scan].
    rewrite next_index_spec by lia.
    rewrite Z.add_0_r in *. rewrite Hbe.
    unfold accepts in Hacc.
    destruct (BackendImpl_IsHealthy now be) as [ok be'] eqn:Hih.
    cbn in Hacc. subst ok. done.
  - destruct k as [|k]; [lia|]. cbn [inter_scan].
    rewrite next_index_spec by lia.
    destruct (Hex 0%nat) as (be0 & Hbe0 & Hex0); [lia|].
    rewrite Z.add_0_r in Hbe0. rewrite Hbe0.
    rewrite (IsHealthy_excluded _ _ Hex0).
    rewrite list_insert_id by done.
    rewrite (Z.mod_small (c + 1)) by lia.
    replace (c + Z.of_nat (S t)) with (c + 1 + Z.of_nat t) in * by lia.
    apply IH; try done; try lia.
    intros p Hp. destruct (Hex (S p)) as (be' & Hbe' & Hex'); [lia|].
    exists be'. split; [|done].
    by replace (c + 1 + Z.of_nat p) with (c + Z.of_nat (S p)) by lia.
Qed.

(** X12: away from the wrap of the counter, [GetNextServer] of the
    health-aware balancer goes through the backends in list order, cyclically
    from position [counter mod n], passes the excluded ones and returns the
    first one [IsHealthy] answers true for; that backend leaves with its
    flag set (and its failure count reset if it had cooled down), and the
    counter has advanced by the number of backends looked at. *)
Theorem IntermediateBalancer_GetNextServer_first_accepted (now : Time)
    (b : IntermediateBalancer) (t : nat) (be : BackendImpl) :
  let n := length (inter_backends b) in
  let idx (p : nat) :=
    Z.to_nat ((inter_counter b + Z.of_nat p) mod Z.of_nat n) in
  0 ≤ inter_counter b → inter_counter b + Z.of_nat t < 2 ^ 32 → (t < n)%nat →
  (∀ p, (p < t)%nat →
     ∃ be', inter_backends b !! idx p = Some be' ∧ excluded_at now be') →
  inter_backends b !! idx t = Some be →
  accepts now be →
  IntermediateBalancer_GetNextServer now b
  = (Some (idx t),
     {| inter_backends :=
          <[idx t := (BackendImpl_IsHealthy now be).2]> (inter_backends b);
        inter_counter := (inter_counter b + Z.of_nat t + 1) mod 2 ^ 32 |}).
Proof.
  intros n idx Hc Hwrap Ht Hex Hbe Hacc. unfold IntermediateBalancer_GetNextServer.
  fold n. destruct (Nat.eqb_spec n 0) as [Hz|Hz]; [lia|].
  unfold n, idx in *.
  rewrite (inter_scan_first_accepted t _ now _ _ be); try done. lia.
Qed.

(** X12 with the counter at 4 over three backends: position 1 is still
    cooling down, position 2 has cooled down and is returned with its count
    reset. *)
Lemma IntermediateBalancer_GetNextServer_first_accepted_witness :
  IntermediateBalancer_GetNextServer 3000000000
    (mkIntermediate [mkBackend "a" 0 0 1 0; mkBackend "b" 3 2000000000 0 0;
                     mkBackend "c" 3 500000000 0 0] 4)
  = (Some 2%nat,
     mkIntermediate [mkBackend "a" 0 0 1 0; mkBackend "b" 3 2000000000 0 0;
                     mkBackend "c" 0 500000000 1 0] 6).
Proof.
  refine (IntermediateBalancer_GetNextServer_first_accepted 3000000000
            (mkIntermediate [mkBackend "a" 0 0 1 0; mkBackend "b" 3 2000000000 0 0;
                             mkBackend "c" 3 500000000 0 0] 4)
            1 (mkBackend "c" 3 500000000 0 0) _ _ _ _ _ _).
  - simpl; lia.
  - simpl; lia.
  - simpl; lia.
  - intros p Hp. assert (p = 0%nat) as -> by lia.
    exists (mkBackend "b" 3 2000000000 0 0). split; [reflexivity|].
    split; [discriminate|]. vm_compute. discriminate.
  - reflexivity.
  - reflexivity.
Defined.

Lemma inter_scan_None (k : nat) now (bs : list BackendImpl) (c : Z) :
  (0 < length bs)%nat → 0 ≤ c → c + Z.of_nat k ≤ 2 ^ 32 →
  (inter_scan k now bs c).1 = None →
  ∀ p be, (p < k)%nat →
    bs !! Z.to_nat ((c + Z.of_nat p) mod Z.of_nat (length bs)) = Some be →
    ¬ accepts now be.
Proof.
  revert c. induction k as [|k IH]; intros c Hn Hc Hwrap Hnone p be Hp Hbe;
    [lia|].
  cbn [inter_scan] in Hnone. rewrite next_index_spec in Hnone by lia.
  destruct (lookup_lt_is_Some_2 bs (Z.to_nat (c mod Z.of_nat (length bs))))
    as [be0 Hbe0].
  { pose proof (Z.mod_pos_bound c (Z.of_nat (length bs))). lia. }
  rewrite Hbe0 in Hnone.
  destruct (BackendImpl_IsHealthy now be0) as [ok be0'] eqn:Hih.
  destruct ok; [done|].
  assert (be0' = be0) as ->.
  { pose proof (IsHealthy_rejected now be0) as Hr. rewrite Hih in Hr.
    by apply Hr. }
  rewrite list_insert_id in Hnone by done.
  destruct p as [|p].
  - rewrite Z.add_0_r in Hbe. assert (be = be0) as -> by congruence.
    unfold accepts. by rewrite Hih.
  - rewrite (Z.mod_small (c + 1)) in Hnone by lia.
    apply (IH (c + 1)) with (p := p); try done; try lia.
    by replace (c + 1 + Z.of_nat p) with (c + Z.of_nat (S p)) by lia.
Qed.

(** X13: away from the wrap of the counter, [GetNextServer] of the
    health-aware balancer returns nil exactly when [IsHealthy] answers
    false for every backend. *)
Theorem IntermediateBalancer_GetNextServer_None_iff (now : Time)
    (b : IntermediateBalancer) :
  0 ≤ inter_counter b →
  inter_counter b + Z.of_nat (length (inter_backends b)) ≤ 2 ^ 32 →
  (IntermediateBalancer_GetNextServer now b).1 = None
  ↔ Forall (λ be, ¬ accepts now be) (inter_backends b).
Proof.
  intros Hc Hwrap. split.
  - intros Hnone. apply Forall_lookup. intros j be Hj.
    unfold IntermediateBalancer_GetNextServer in Hnone.
    pose proof (lookup_lt_Some _ _ _ Hj) as Hjn.
    set (n := length (inter_backends b)) in *.
    destruct (Nat.eqb_spec n 0) as [Hz|Hz]; [lia|].
    destruct (inter_scan n now (inter_backends b) (inter_counter b))
      as [r [bs' c']] eqn:Hscan. cbn in Hnone. subst r.
    set (p := Z.to_nat ((Z.of_nat j - inter_counter b) mod Z.of_nat n)).
    assert (Z.of_nat p = (Z.of_nat j - inter_counter b) mod Z.of_nat n) as Hp.
    { unfold p. rewrite Z2Nat.id; [done|]. apply Z.mod_pos_bound. lia. }
    pose proof (Z.mod_pos_bound (Z.of_nat j - inter_counter b) (Z.of_nat n)).
    apply (inter_scan_None n now (inter_backends b) (inter_counter b))
      with (p := p); try done; try lia.
    + by rewrite Hscan.
    + fold n. rewrite Hp, Zplus_mod_idemp_r.
      replace (inter_counter b + (Z.of_nat j - inter_counter b))
        with (Z.of_nat j) by lia.
      rewrite Z.mod_small by lia. by rewrite Nat2Z.id.
  - intros Hall. unfold IntermediateBalancer_GetNextServer.
    destruct (length (inter_backends b) =? 0)%nat; [done|].
    pose proof (inter_scan_all_excluded (length (inter_backends b)) now
                  (inter_backends b) (inter_counter b)) as Hex.
    destruct (inter_scan _ _ _ _) as [r [bs' c']]. cbn in *. apply Hex.
    eapply Forall_impl; [exact Hall|]. intros be Hna.
    unfold accepts, excluded_at, BackendImpl_IsHealthy in *.
    destruct (Z.eqb_spec (healthy be) 1); [done|].
    destruct (Z.ltb_spec coolDown (time_Since now (lastFailure be))); [done|].
    done.
Qed.

(** X13 on a single backend that is cooling down. *)
Lemma IntermediateBalancer_GetNextServer_None_iff_witness :
  (IntermediateBalancer_GetNextServer 10 (mkIntermediate [mkBackend "a" 3 4 0 0] 7)).1
  = None
  ↔ Forall (λ be, ¬ accepts 10 be) [mkBackend "a" 3 4 0 0].
Proof.
  apply (IntermediateBalancer_GetNextServer_None_iff 10
           (mkIntermediate [mkBackend "a" 3 4 0 0] 7)); simpl; lia.
Defined.

(** ** The health flag and the failure count *)

Lemma IsHealthy_count_bounded m now be :
  count_bounded m be → count_bounded m (BackendImpl_IsHealthy now be).2.
Proof.
  unfold count_bounded, BackendImpl_IsHealthy, maxFailureCount.
  intros H. repeat case_match; cbn; lia.
Qed.

Lemma IsHealthy_true_flag now be :
  (BackendImpl_IsHealthy now be).1 = true →
  healthy (BackendImpl_IsHealthy now be).2 = 1.
Proof.
  unfold BackendImpl_IsHealthy.
  destruct (Z.eqb_spec (healthy be) 1); [done|].
  by destruct (coolDown <? _).
Qed.

Lemma Invoke_flag o now be :
  healthy (BackendImpl_Invoke o now be).2 = healthy be.
Proof.
  rewrite Invoke_unfold. cbn [snd].
  unfold BackendImpl_Invoke_leave, BackendImpl_Invoke_enter.
  by destruct o; cbn; try case_match.
Qed.

Lemma Invoke_failureCount o now be :
  0 ≤ failureCount be < maxFailureCount →
  failureCount (BackendImpl_Invoke o now be).2
  = if exchange_failed o then failureCount be + 1 else failureCount be.
Proof.
  unfold maxFailureCount. intros Hfc. rewrite Invoke_unfold. cbn [snd].
  unfold BackendImpl_Invoke_leave, BackendImpl_Invoke_enter.
  destruct o as [e|e|code]; cbn.
  - done.
  - apply int32_small. lia.
  - destruct ((code <? StatusOK) || (code >=? StatusMultipleChoices)); cbn;
      [apply int32_small; lia|done].
Qed.

Lemma Invoke_is_Err o now be :
  exchange_failed o = true → is_Err (BackendImpl_Invoke o now be).1 = true.
Proof.
  intros Hf. rewrite Invoke_unfold. cbn [fst].
  destruct o as [e|e|code]; cbn in *; [done|done|]. by rewrite Hf.
Qed.

Lemma inter_settle_count_bounded o now be :
  healthy be = 1 → count_bounded 3 be →
  count_bounded 3
    (inter_settle (BackendImpl_Invoke o now be).1 (BackendImpl_Invoke o now be).2).
Proof.
  intros Hh [[_ Hfc]|[? _]]; [|lia].
  pose proof (Invoke_failureCount o now be Hfc) as Hc.
  pose proof (Invoke_flag o now be) as Hfl.
  unfold inter_settle, count_bounded, BackendImpl_MarkUnhealthy in *.
  unfold maxFailureCount in *.
  destruct (is_Err (BackendImpl_Invoke o now be).1) eqn:He.
  - destruct (Z.geb_spec (failureCount (BackendImpl_Invoke o now be).2) 3);
      cbn; destruct (exchange_failed o); lia.
  - destruct (exchange_failed o) eqn:Hf; [|lia].
    pose proof (Invoke_is_Err o now be Hf). congruence.
Qed.

Lemma inter_scan_Forall (P : BackendImpl → Prop) k now bs c :
  (∀ be, P be → P (BackendImpl_IsHealthy now be).2) →
  Forall P bs → Forall P (inter_scan k now bs c).2.1.
Proof.
  intros HP. revert bs c. induction k as [|k IH]; intros bs c Hall; [done|].
  cbn [inter_scan]. destruct (next_index c (length bs)) as [idx c'].
  destruct (bs !! idx) as [be|] eqn:Hbe; [|done].
  pose proof (HP be (Forall_lookup_1 _ _ _ _ Hall Hbe)) as HPbe.
  destruct (BackendImpl_IsHealthy now be) as [ok be']. cbn [snd] in HPbe.
  destruct ok; [by apply Forall_insert|].
  apply IH. by apply Forall_insert.
Qed.

Lemma inter_scan_selected_flag k now bs c i :
  (inter_scan k now bs c).1 = Some i →
  ∃ be, (inter_scan k now bs c).2.1 !! i = Some be ∧ healthy be = 1.
Proof.
  revert bs c. induction k as [|k IH]; intros bs c; [done|].
  cbn [inter_scan]. destruct (next_index c (length bs)) as [idx c'].
  destruct (bs !! idx) as [be|] eqn:Hbe; [|done].
  pose proof (IsHealthy_true_flag now be) as Hfl.
  destruct (BackendImpl_IsHealthy now be) as [ok be']. cbn [fst snd] in Hfl.
  destruct ok; [|apply IH].
  cbn. intros [= <-]. exists be'. split; [|by apply Hfl].
  apply list_lookup_insert_eq. by eapply lookup_lt_Some.
Qed.

Lemma IntermediateBalancer_GetNextServer_Forall (P : BackendImpl → Prop) now b :
  (∀ be, P be → P (BackendImpl_IsHealthy now be).2) →
  Forall P (inter_backends b) →
  Forall P (inter_backends (IntermediateBalancer_GetNextServer now b).2)
  ∧ ∀ i, (IntermediateBalancer_GetNextServer now b).1 = Some i →
      ∃ be, inter_backends (IntermediateBalancer_GetNextServer now b).2 !! i
            = Some be ∧ healthy be = 1.
Proof.
  intros HP Hall. unfold IntermediateBalancer_GetNextServer.
  destruct (length (inter_backends b) =? 0)%nat; [done|].
  pose proof (inter_scan_Forall P (length (inter_backends b)) now
                (inter_backends b) (inter_counter b) HP Hall) as H1.
  pose proof (inter_scan_selected_flag (length (inter_backends b)) now
                (inter_backends b) (inter_counter b)) as H2.
  destruct (inter_scan _ _ _ _) as [r [bs' c']]. done.
Qed.

Lemma IntermediateBalancer_Invoke_count_bounded o now now' b :
  Forall (count_bounded 3) (inter_backends b) →
  Forall (count_bounded 3) (inter_backends (IntermediateBalancer_Invoke o now now' b).2).
Proof.
  intros Hall. unfold IntermediateBalancer_Invoke.
  destruct (IntermediateBalancer_GetNextServer_Forall (count_bounded 3) now b)
    as [H1 H2]; [apply IsHealthy_count_bounded|done|].
  destruct (IntermediateBalancer_GetNextServer now b) as [[i|] b1]; [|done].
  cbn [fst snd] in *. destruct (H2 i eq_refl) as (be & Hbe & Hfl).
  rewrite Hbe.
  pose proof (inter_settle_count_bounded o now' be Hfl
                (Forall_lookup_1 _ _ _ _ H1 Hbe)) as Hs.
  destruct (BackendImpl_Invoke o now' be) as [r be']. cbn [fst snd] in *.
  by apply Forall_insert.
Qed.

(** X14: in the health-aware balancer used by one goroutine, the health
    flag of every backend tells whether its failure count has reached the
    threshold: the flag is set and the count is 0, 1 or 2, or the flag is
    clear and the count is exactly 3. *)
Theorem IntermediateBalancer_flag_matches_count (hosts : list string)
    (ops : list IntermediateOp) :
  Forall (λ be, (healthy be = 1 ∧ 0 ≤ failureCount be < 3)
                ∨ (healthy be = 0 ∧ failureCount be = 3))
    (inter_backends
       (foldl (λ b op, IntermediateBalancer_apply op b)
              (NewIntermediateLoadBalancer hosts) ops)).
Proof.
  eapply Forall_impl with (P := count_bounded 3).
  2:{ unfold count_bounded, maxFailureCount. intros be. lia. }
  induction ops as [|op ops IH] using rev_ind.
  - cbn. apply Forall_fmap, Forall_true. intros a. left.
    unfold maxFailureCount. cbn. lia.
  - rewrite foldl_app. cbn [foldl]. destruct op as [o now now'|now]; cbn.
    + by apply IntermediateBalancer_Invoke_count_bounded.
    + apply IntermediateBalancer_GetNextServer_Forall; [|done].
      apply IsHealthy_count_bounded.
Qed.

Lemma refill_step_Forall (P : BackendImpl → Prop) now st i :
  (∀ be, P be → P (BackendImpl_IsHealthy now be).2) →
  Forall P st.1 → Forall P (refill_step now st i).1.
Proof.
  intros HP Hall. destruct st as [bs h]. cbn [fst] in Hall. unfold refill_step.
  destruct (bs !! i) as [be|] eqn:Hbe; [|done].
  pose proof (HP be (Forall_lookup_1 _ _ _ _ Hall Hbe)) as HPbe.
  destruct (BackendImpl_IsHealthy now be) as [ok be']. cbn [snd] in HPbe.
  destruct ok; cbn [fst]; by apply Forall_insert.
Qed.

Lemma refill_Forall (P : BackendImpl → Prop) now bs h :
  (∀ be, P be → P (BackendImpl_IsHealthy now be).2) →
  Forall P bs → Forall P (refill now bs h).1.
Proof.
  intros HP Hall. unfold refill.
  assert (Forall P (bs, h).1) as Hst by done.
  generalize dependent (bs, h). generalize (seq 0 (length bs)).
  intros l. induction l as [|i l IH]; intros st Hst; [done|].
  cbn [foldl]. apply IH. by apply refill_step_Forall.
Qed.

Lemma pop_healthy_Forall (P : BackendImpl → Prop) fuel now bs h :
  (∀ be, P be → P (BackendImpl_IsHealthy now be).2) →
  Forall P bs →
  Forall P (pop_healthy fuel now bs h).2.1
  ∧ ∀ i, (pop_healthy fuel now bs h).1 = Some i →
      ∃ be, (pop_healthy fuel now bs h).2.1 !! i = Some be ∧ healthy be = 1.
Proof.
  intros HP. revert bs h. induction fuel as [|fuel IH]; intros bs h Hall; [done|].
  cbn [pop_healthy]. destruct (backendHeap_Len h =? 0)%nat; [done|].
  destruct (heap_Pop bs h) as [[x|] h']; [|done].
  destruct (bs !! x) as [be|] eqn:Hbe; [|done].
  pose proof (HP be (Forall_lookup_1 _ _ _ _ Hall Hbe)) as HPbe.
  pose proof (IsHealthy_true_flag now be) as Hfl.
  destruct (BackendImpl_IsHealthy now be) as [ok be']. cbn [fst snd] in *.
  destruct ok.
  - cbn [fst snd]. split; [by apply Forall_insert|].
    intros i [= <-]. exists be'. split; [|by apply Hfl].
    apply list_lookup_insert_eq. by eapply lookup_lt_Some.
  - apply IH. by apply Forall_insert.
Qed.

Lemma AdvancedBalancer_GetNextServer_Forall (P : BackendImpl → Prop) now b :
  (∀ be, P be → P (BackendImpl_IsHealthy now be).2) →
  Forall P (adv_backends b) →
  Forall P (adv_backends (AdvancedBalancer_GetNextServer now b).2)
  ∧ ∀ i, (AdvancedBalancer_GetNextServer now b).1 = Some i →
      ∃ be, adv_backends (AdvancedBalancer_GetNextServer now b).2 !! i = Some be
            ∧ healthy be = 1.
Proof.
  intros HP Hall. unfold AdvancedBalancer_GetNextServer.
  assert (Forall P (if (backendHeap_Len (adv_heap b) =? 0)%nat
                    then refill now (adv_backends b) (adv_heap b)
                    else (adv_backends b, adv_heap b)).1) as H1.
  { destruct (backendHeap_Len (adv_heap b) =? 0)%nat; [|done].
    by apply refill_Forall. }
  destruct (if (backendHeap_Len (adv_heap b) =? 0)%nat then _ else _)
    as [bs1 h1]. cbn [fst] in H1.
  destruct (backendHeap_Len h1 =? 0)%nat; [done|].
  pose proof (pop_healthy_Forall P (backendHeap_Len h1) now bs1 h1 HP H1) as H2.
  destruct (pop_healthy _ _ _ _) as [sel [bs2 h2]]. done.
Qed.

Lemma AdvancedBalancer_Invoke_count_bounded o now now' b :
  Forall (count_bounded 4) (adv_backends b) →
  Forall (count_bounded 4) (adv_backends (AdvancedBalancer_Invoke o now now' b).2).
Proof.
  intros Hall.
  destruct (AdvancedBalancer_GetNextServer_Forall (count_bounded 4) now b)
    as [H1 H2]; [apply IsHealthy_count_bounded|done|].
  destruct (AdvancedBalancer_GetNextServer now b) as [[i|] b1] eqn:Hsel.
  2:{ unfold AdvancedBalancer_Invoke. by rewrite Hsel. }
  cbn [fst snd] in *. destruct (H2 i eq_refl) as (be & Hbe & Hfl).
  rewrite (AdvancedBalancer_Invoke_unfold o now now' b i b1 be Hsel Hbe).
  pose proof (Forall_lookup_1 _ _ _ _ H1 Hbe) as [[_ Hfc]|[? _]]; [|lia].
  pose proof (Invoke_failureCount o now' be Hfc) as Hc.
  pose proof (Invoke_flag o now' be) as Hh.
  destruct (BackendImpl_Invoke o now' be) as [r be'] eqn:Hinv. cbn [fst snd] in *.
  assert (<[i := be']> (adv_backends b1) !! i = Some be') as Hi.
  { apply list_lookup_insert_eq. by eapply lookup_lt_Some. }
  assert (is_Err r = false → exchange_failed o = false) as Hok.
  { intros Hr. destruct (exchange_failed o) eqn:Hf; [|done].
    pose proof (Invoke_is_Err o now' be Hf) as He. rewrite Hinv in He.
    cbn in He. congruence. }
  unfold maxFailureCount in *.
  unfold AdvancedBalancer_settle. cbn [adv_backends adv_heap].
  destruct r as [resp|e|].
  - cbn [snd adv_backends]. apply Forall_insert; [done|].
    rewrite Hok in Hc by done. unfold count_bounded, maxFailureCount. lia.
  - rewrite Hi. cbn [failureCount set_failureCount].
    assert (int32 (failureCount be' + 1) = failureCount be' + 1) as ->.
    { apply int32_small. destruct (exchange_failed o); lia. }
    destruct (Z.geb_spec (failureCount be' + 1) maxFailureCount) as [Hge|Hlt];
      cbn [snd adv_backends]; rewrite list_insert_insert_eq;
      (apply Forall_insert; [done|]); unfold count_bounded, maxFailureCount in *.
    + right. cbn. destruct (exchange_failed o); lia.
    + left. cbn. destruct (exchange_failed o); lia.
  - cbn [snd adv_backends]. apply Forall_insert; [done|].
    rewrite Hok in Hc by done. unfold count_bounded, maxFailureCount. lia.
Qed.

Lemma sweep_step_Forall (P : BackendImpl → Prop) now st i :
  (∀ be, P be → P (BackendImpl_IsHealthy now be).2) →
  Forall P st.1 → Forall P (sweep_step now st i).1.
Proof.
  intros HP Hall. destruct st as [bs h]. cbn [fst] in Hall. unfold sweep_step.
  destruct (bs !! i) as [be|] eqn:Hbe; [|done].
  pose proof (HP be (Forall_lookup_1 _ _ _ _ Hall Hbe)) as HPbe.
  destruct (BackendImpl_IsHealthy now be) as [ok1 be1]. cbn [snd] in HPbe.
  destruct ok1; cbn [negb fst]; [|by apply Forall_insert].
  pose proof (HP be1 HPbe) as HPbe1.
  destruct (BackendImpl_IsHealthy now be1) as [ok2 be2]. cbn [snd] in HPbe1.
  destruct ok2; [destruct (negb _)|]; cbn [fst]; by apply Forall_insert.
Qed.

Lemma AdvancedBalancer_healthChecker_tick_Forall (P : BackendImpl → Prop) now b :
  (∀ be, P be → P (BackendImpl_IsHealthy now be).2) →
  Forall P (adv_backends b) →
  Forall P (adv_backends (AdvancedBalancer_healthChecker_tick now b)).
Proof.
  intros HP Hall. unfold AdvancedBalancer_healthChecker_tick.
  assert (Forall P (adv_backends b, adv_heap b).1) as Hst by done.
  generalize dependent (adv_backends b, adv_heap b).
  generalize (seq 0 (length (adv_backends b))).
  intros l. induction l as [|i l IH]; intros st Hst.
  - cbn. by destruct st.
  - cbn [foldl]. apply IH. by apply sweep_step_Forall.
Qed.

Lemma NewAdvancedLoadBalancer_Forall (P : BackendImpl → Prop) now hosts :
  (∀ a, P (BackendImpl_IsHealthy now (NewBackend a)).2) →
  Forall P (adv_backends (NewAdvancedLoadBalancer now hosts)).
Proof.
  intros HP. unfold NewAdvancedLoadBalancer.
  assert (Forall P (([] : list BackendImpl), heap_Init [] []).1) as Hst
    by constructor.
  generalize dependent (([] : list BackendImpl), heap_Init [] []).
  induction hosts as [|a hosts IH]; intros st Hst.
  - cbn. by destruct st.
  - cbn [foldl]. apply IH. destruct st as [bs h]. unfold new_advanced_step.
    pose proof (HP a) as Ha.
    destruct (BackendImpl_IsHealthy now (NewBackend a)) as [ok be].
    cbn [fst snd] in *.
    destruct ok; cbn [fst]; apply Forall_app; split; try done;
      by apply Forall_singleton.
Qed.

(** X15: in the load-aware balancer used by one goroutine, a backend whose
    health flag is set has a failure count of 0, 1 or 2, and a backend
    whose flag is clear has a count of 3 or 4. *)
Theorem AdvancedBalancer_flag_matches_count (now : Time) (hosts : list string)
    (ops : list AdvancedOp) :
  Forall (λ be, (healthy be = 1 ∧ 0 ≤ failureCount be < 3)
                ∨ (healthy be = 0 ∧ 3 ≤ failureCount be ≤ 4))
    (adv_backends
       (foldl (λ b op, AdvancedBalancer_apply op b)
              (NewAdvancedLoadBalancer now hosts) ops)).
Proof.
  change (Forall (count_bounded 4)
            (adv_backends
               (foldl (λ b op, AdvancedBalancer_apply op b)
                      (NewAdvancedLoadBalancer now hosts) ops))).
  induction ops as [|op ops IH] using rev_ind.
  - cbn [foldl]. apply NewAdvancedLoadBalancer_Forall. intros a.
    apply IsHealthy_count_bounded. left. unfold maxFailureCount. cbn. lia.
  - rewrite foldl_app. cbn [foldl].
    destruct op as [o s t|s|s]; cbn [AdvancedBalancer_apply].
    + by apply AdvancedBalancer_Invoke_count_bounded.
    + apply AdvancedBalancer_GetNextServer_Forall; [|done].
      apply IsHealthy_count_bounded.
    + apply AdvancedBalancer_healthChecker_tick_Forall; [|done].
      apply IsHealthy_count_bounded.
Qed.

(** ** heap.Init *)

Section heap_init.
Local Open Scope nat_scope.
Context (bs : list BackendImpl).

(** [heap.down] at position [i], when only the positions from [lo] on are
    known to be in order with their children. *)
Lemma heap_down_from (lo fuel : nat) (h : backendHeap) (i n : nat) :
  n ≤ length h → handles_valid bs h → n ≤ fuel + i → lo ≤ i →
  (∀ p c, c < n → is_child p c → lo ≤ p → p ≠ i →
     backendHeap_Less bs h c p = false) →
  (∀ g c, c < n → lo ≤ g → is_child g i → is_child i c →
     backendHeap_Less bs h c g = false) →
  length (heap_down fuel bs h i n) = length h
  ∧ heap_down fuel bs h i n ≡ₚ h
  ∧ (∀ p c, c < n → is_child p c → lo ≤ p →
       backendHeap_Less bs (heap_down fuel bs h i n) c p = false).
Proof.
  revert h i. induction fuel as [|fuel IH]; intros h i Hn Hv Hfuel Hlo Hinv1 Hinv2.
  { cbn. split_and!; try done. intros p c Hc Hpc Hp.
    destruct (decide (p = i)) as [->|Hne]; [|by apply Hinv1].
    unfold is_child in Hpc. lia. }
  cbn [heap_down]. destruct (Nat.leb_spec n (2 * i + 1)) as [Hleaf|Hj1].
  { split_and!; try done. intros p c Hc Hpc Hp.
    destruct (decide (p = i)) as [->|Hne]; [|by apply Hinv1].
    unfold is_child in Hpc. lia. }
  set (j := if (2 * i + 1 + 1 <? n) && backendHeap_Less bs h (2 * i + 1 + 1) (2 * i + 1)
            then 2 * i + 1 + 1 else 2 * i + 1).
  assert (is_child i j ∧ j < n
          ∧ ∀ c, c < n → is_child i c → backendHeap_Less bs h c j = false)
    as (Hij & Hjn & Hmin).
  { unfold j, is_child.
    destruct (Nat.ltb_spec (2 * i + 1 + 1) n) as [Hj2|Hj2]; cbn [andb].
    - destruct (backendHeap_Less bs h (2 * i + 1 + 1) (2 * i + 1)) eqn:Hl.
      + split_and!; [lia|lia|]. intros c Hc [->| ->].
        * by apply Less_asym.
        * replace (2 * i + 2) with (2 * i + 1 + 1) by lia. apply Less_irrefl.
      + split_and!; [lia|lia|]. intros c Hc [->| ->].
        * apply Less_irrefl.
        * by replace (2 * i + 2) with (2 * i + 1 + 1) by lia.
    - split_and!; [lia|lia|]. intros c Hc [->| ->]; [apply Less_irrefl|lia]. }
  clearbody j.
  assert (i < j) as Hlt by (unfold is_child in Hij; lia).
  destruct (backendHeap_Less bs h j i) eqn:Hji; cbn [negb].
  - destruct (IH (backendHeap_Swap h i j) j) as (Hlen & Hperm & Hord).
    + rewrite Swap_length. lia.
    + eapply handles_valid_Permutation; [|exact Hv].
      symmetry. apply Swap_Permutation.
    + lia.
    + lia.
    + intros p c Hc Hpc Hp Hpj. rewrite Less_Swap by lia. unfold transpose.
      repeat case_decide; subst; unfold is_child in *; try lia.
      * apply (Hinv2 p j); unfold is_child; lia.
      * by apply Less_asym.
      * apply Hmin; unfold is_child; lia.
      * apply Hinv1; unfold is_child; lia.
    + intros g c Hc Hg Hgj Hjc. rewrite Less_Swap by lia. unfold transpose.
      repeat case_decide; subst; unfold is_child in *; try lia.
      apply Hinv1; unfold is_child; lia.
    + split_and!.
      * by rewrite Hlen, Swap_length.
      * by rewrite Hperm, Swap_Permutation.
      * done.
  - split_and!; try done. intros p c Hc Hpc Hp.
    destruct (decide (p = i)) as [->|Hne]; [|by apply Hinv1].
    apply (Less_le_trans bs h i j c); [done|lia|done|by apply Hmin].
Qed.

Lemma heap_Init_loop (n m : nat) (h : backendHeap) :
  length h = n → handles_valid bs h →
  (∀ p c, c < n → is_child p c → m ≤ p → backendHeap_Less bs h c p = false) →
  let h' := foldl (λ h' i, heap_down n bs h' i n) h (reverse (seq 0 m)) in
  length h' = n ∧ h' ≡ₚ h
  ∧ ∀ p c, c < n → is_child p c → backendHeap_Less bs h' c p = false.
Proof.
  revert h. induction m as [|m IH]; intros h Hlen Hv Hord.
  { cbn. split_and!; try done. intros p c Hc Hpc. apply Hord; [done..|lia]. }
  rewrite seq_S, reverse_app. cbn [reverse rev_append app foldl Nat.add].
  change (rev_append [m] []) with [m]. cbn [app foldl].
  destruct (heap_down_from m n h m n) as (Hl1 & Hp1 & Ho1); try done; try lia.
  { intros p c Hc Hpc Hp Hne. apply Hord; [done..|lia]. }
  { intros g c Hc Hg Hgm. unfold is_child in Hgm. lia. }
  destruct (IH (heap_down n bs h m n)) as (Hl2 & Hp2 & Ho2).
  - lia.
  - eapply handles_valid_Permutation; [|exact Hv]. by symmetry.
  - done.
  - cbn zeta. split_and!; [done| |done]. by rewrite Hp2.
Qed.

Lemma heap_Init_spec (h : backendHeap) :
  handles_valid bs h →
  heap_Init bs h ≡ₚ h
  ∧ handles_valid bs (heap_Init bs h)
  ∧ heap_ordered bs (heap_Init bs h).
Proof.
  intros Hv. unfold heap_Init, backendHeap_Len.
  destruct (heap_Init_loop (length h) (length h / 2) h eq_refl Hv)
    as (Hlen & Hperm & Hord).
  { intros p c Hc [->| ->] Hp.
    - pose proof (Nat.div_mod_eq (length h) 2).
      pose proof (Nat.mod_upper_bound (length h) 2). lia.
    - pose proof (Nat.div_mod_eq (length h) 2).
      pose proof (Nat.mod_upper_bound (length h) 2). lia. }
  cbn zeta in *. split_and!; [done| |].
  - eapply handles_valid_Permutation; [|exact Hv]. by symmetry.
  - apply heap_ordered_children. intros p c Hc. apply Hord. lia.
Qed.

End heap_init.

(** X16: [heap.Init] makes a heap of any [backendHeap] of valid handles:
    the same handles, each as often as before, now heap-ordered. *)
Theorem heap_Init_builds_heap (bs : list BackendImpl) (h : backendHeap) :
  handles_valid bs h →
  heap_Init bs h ≡ₚ h
  ∧ handles_valid bs (heap_Init bs h)
  ∧ heap_ordered bs (heap_Init bs h).
Proof. apply heap_Init_spec. Qed.

(** X16 on three backends with loads 5, 3 and 1. *)
Lemma heap_Init_builds_heap_witness :
  heap_Init [mkBackend "a" 0 0 1 5; mkBackend "b" 0 0 1 3; mkBackend "c" 0 0 1 1]
    [0; 1; 2]%nat ≡ₚ [0; 1; 2]%nat
  ∧ handles_valid
      [mkBackend "a" 0 0 1 5; mkBackend "b" 0 0 1 3; mkBackend "c" 0 0 1 1]
      (heap_Init
         [mkBackend "a" 0 0 1 5; mkBackend "b" 0 0 1 3; mkBackend "c" 0 0 1 1]
         [0; 1; 2]%nat)
  ∧ heap_ordered
      [mkBackend "a" 0 0 1 5; mkBackend "b" 0 0 1 3; mkBackend "c" 0 0 1 1]
      (heap_Init
         [mkBackend "a" 0 0 1 5; mkBackend "b" 0 0 1 3; mkBackend "c" 0 0 1 1]
         [0; 1; 2]%nat).
Proof.
  apply heap_Init_builds_heap. repeat constructor.
Defined.

(** ** The revision that rebuilds the heap *)

Lemma heap_down_Permutation fuel (bs : list BackendImpl) (h : backendHeap) i n :
  heap_down fuel bs h i n ≡ₚ h.
Proof.
  revert h i. induction fuel as [|fuel IH]; intros h i; [done|].
  cbn [heap_down]. destruct (n <=? 2 * i + 1)%nat; [done|].
  destruct (negb _); [done|]. by rewrite IH, Swap_Permutation.
Qed.

Lemma heap_up_Permutation fuel (bs : list BackendImpl) (h : backendHeap) j :
  heap_up fuel bs h j ≡ₚ h.
Proof.
  revert h j. induction fuel as [|fuel IH]; intros h j; [done|].
  cbn [heap_up]. destruct (_ || _); [done|]. by rewrite IH, Swap_Permutation.
Qed.

Lemma heap_Push_Permutation (bs : list BackendImpl) (h : backendHeap) x :
  heap_Push bs h x ≡ₚ x :: h.
Proof.
  unfold heap_Push, backendHeap_Push. rewrite heap_up_Permutation.
  by rewrite Permutation_app_comm.
Qed.

Lemma heap_Pop_Permutation (bs : list BackendImpl) (h : backendHeap) :
  h ≠ [] → ∃ x h', heap_Pop bs h = (Some x, h') ∧ h ≡ₚ x :: h'.
Proof.
  intros Hne. unfold heap_Pop, backendHeap_Pop, backendHeap_Len.
  set (h2 := heap_down (length h) bs (backendHeap_Swap h 0 (length h - 1)) 0
               (length h - 1)).
  assert (h2 ≡ₚ h) as Hperm.
  { unfold h2. by rewrite heap_down_Permutation, Swap_Permutation. }
  assert (length h2 = length h) as Hlen by by rewrite Hperm.
  assert (0 < length h)%nat as Hpos by (destruct h; [done|cbn; lia]).
  destruct (lookup_lt_is_Some_2 h2 (length h2 - 1)) as [x Hx]; [lia|].
  exists x, (take (length h2 - 1) h2). split; [by rewrite Hx|].
  rewrite <- Hperm. rewrite <- (take_drop (length h2 - 1) h2) at 1.
  rewrite (drop_S _ x) by done. rewrite drop_ge by lia.
  by rewrite Permutation_app_comm.
Qed.

Lemma refill_flagged_fold now (bs : list BackendImpl) (h : backendHeap)
    (l : list nat) :
  Forall (λ be, healthy be = 1) bs → Forall (λ i, (i < length bs)%nat) l →
  ∃ h', foldl (refill_step now) (bs, h) l = (bs, h') ∧ h' ≡ₚ h ++ l.
Proof.
  intros Hfl. revert h. induction l as [|i l IH]; intros h Hl.
  { exists h. by rewrite app_nil_r. }
  apply Forall_cons in Hl as [Hi Hl]. cbn [foldl]. unfold refill_step at 2.
  destruct (lookup_lt_is_Some_2 bs i Hi) as [be Hbe]. rewrite Hbe.
  rewrite (IsHealthy_flagged now be)
    by exact (Forall_lookup_1 (λ be, healthy be = 1) bs _ _ Hfl Hbe).
  rewrite list_insert_id by done.
  destruct (IH (heap_Push bs h i) Hl) as (h' & -> & Hperm).
  exists h'. split; [done|]. rewrite Hperm, heap_Push_Permutation.
  cbn [app]. apply Permutation_middle.
Qed.

Lemma refill_flagged now (bs : list BackendImpl) (h : backendHeap) :
  Forall (λ be, healthy be = 1) bs →
  ∃ h', refill now bs h = (bs, h') ∧ h' ≡ₚ h ++ seq 0 (length bs).
Proof.
  intros Hfl. apply refill_flagged_fold; [done|].
  apply Forall_forall. intros i Hi%elem_of_seq. lia.
Qed.

Lemma pop_healthy_flagged fuel now (bs : list BackendImpl) (h : backendHeap) :
  Forall (λ be, healthy be = 1) bs → handles_valid bs h → h ≠ [] →
  ∃ x h', pop_healthy (S fuel) now bs h = (Some x, (bs, h')) ∧ h ≡ₚ x :: h'.
Proof.
  intros Hfl Hv Hne. cbn [pop_healthy]. unfold backendHeap_Len.
  destruct (Nat.eqb_spec (length h) 0) as [Hz|_].
  { by destruct h. }
  destruct (heap_Pop_Permutation bs h Hne) as (x & h' & -> & Hperm).
  assert (x < length bs)%nat as Hx.
  { unfold handles_valid in Hv. rewrite Forall_forall in Hv. apply Hv.
    rewrite Hperm. left. }
  destruct (lookup_lt_is_Some_2 bs x Hx) as [be Hbe]. rewrite Hbe.
  rewrite (IsHealthy_flagged now be)
    by exact (Forall_lookup_1 (λ be, healthy be = 1) bs _ _ Hfl Hbe).
  rewrite list_insert_id by done. by exists x, h'.
Qed.

Lemma Rebuild_GetNextServer_flagged now (bs : list BackendImpl) (h : backendHeap) :
  Forall (λ be, healthy be = 1) bs → handles_valid bs h → h ≠ [] →
  ∃ x h' h3,
    Rebuild.GetNextServer now (mkAdvanced bs h) = (Some x, mkAdvanced bs h3)
    ∧ h ≡ₚ x :: h'
    ∧ h3 ≡ₚ h' ++ seq 0 (length bs).
Proof.
  intros Hfl Hv Hne. unfold Rebuild.GetNextServer, backendHeap_Len.
  cbn [adv_backends adv_heap].
  destruct (Nat.eqb_spec (length h) 0) as [Hz|_].
  { by destruct h. }
  destruct (length h) as [|fuel] eqn:Hlen.
  { by destruct h. }
  destruct (pop_healthy_flagged fuel now bs h Hfl Hv Hne) as (x & h' & -> & Hperm).
  destruct (refill_flagged now bs h' Hfl) as (h3 & -> & Hperm3).
  by exists x, h', h3.
Qed.

Lemma NewBackend_flagged (hosts : list string) :
  Forall (λ be, healthy be = 1) (NewBackend <$> hosts).
Proof. apply Forall_fmap, Forall_true. done. Qed.

Lemma seq_handles_valid (bs : list BackendImpl) :
  handles_valid bs (seq 0 (length bs)).
Proof. apply Forall_forall. intros i Hi%elem_of_seq. lia. Qed.

Lemma Rebuild_New_heap (hosts : list string) :
  adv_heap (Rebuild.NewAdvancedLoadBalancer hosts) ≡ₚ seq 0 (length hosts)
  ∧ handles_valid (NewBackend <$> hosts)
      (adv_heap (Rebuild.NewAdvancedLoadBalancer hosts))
  ∧ heap_ordered (NewBackend <$> hosts)
      (adv_heap (Rebuild.NewAdvancedLoadBalancer hosts)).
Proof.
  cbn [Rebuild.NewAdvancedLoadBalancer adv_heap].
  apply heap_Init_spec.
  rewrite <- (length_fmap NewBackend hosts). apply seq_handles_valid.
Qed.

(** X17: the constructor of the rebuilding revision puts every backend
    into the heap once, in heap order; the first selection of the new
    balancer returns the backend with the least host name, and nil only
    when the URL list is empty. *)
Theorem Rebuild_first_selection (hosts : list string) (now : Time) :
  let b := Rebuild.NewAdvancedLoadBalancer hosts in
  adv_heap b ≡ₚ seq 0 (length hosts)
  ∧ heap_ordered (adv_backends b) (adv_heap b)
  ∧ match (Rebuild.GetNextServer now b).1 with
    | Some i =>
        ∃ a, hosts !! i = Some a
             ∧ ∀ a', a' ∈ hosts → String.ltb a' a = false
    | None => hosts = []
    end.
Proof.
  intros b. destruct (Rebuild_New_heap hosts) as (Hperm & Hv & Ho).
  fold b in Hperm, Hv, Ho. split_and!; [done..|].
  assert (adv_backends b = NewBackend <$> hosts) as Hbs by done.
  clearbody b. destruct b as [bs h]. cbn [adv_backends adv_heap] in *. subst bs.
  unfold Rebuild.GetNextServer. cbn [adv_backends adv_heap].
  unfold backendHeap_Len.
  destruct (Nat.eqb_spec (length h) 0) as [Hz|Hnz].
  { rewrite Hperm, length_seq in Hz. apply length_zero_iff_nil in Hz as ->.
    cbn in Hperm. apply Permutation_nil_r in Hperm as ->. done. }
  rewrite <- Nat.eqb_neq in Hnz. rewrite Hnz.
  pose proof (pop_healthy_spec (length h) now (NewBackend <$> hosts)
                h Hv Ho (le_n _)) as Hpop.
  destruct (pop_healthy _ _ _ _) as [sel [bs2 h2]]. cbn [fst] in Hpop.
  destruct (refill now bs2 h2) as [bs3 h3]. cbn [fst].
  destruct sel as [i|].
  - destruct Hpop as (Hi & (be & Hbe & _) & Hmin).
    rewrite list_lookup_fmap in Hbe.
    destruct (hosts !! i) as [a|] eqn:Ha; [|done]. injection Hbe as <-.
    exists a. split; [done|]. intros a' [j Hj]%list_elem_of_lookup.
    specialize (Hmin j (NewBackend a')).
    unfold handle_less in Hmin. rewrite !list_lookup_fmap, Hj, Ha in Hmin.
    cbn in Hmin. apply Hmin; [|done..].
    rewrite Hperm. apply elem_of_seq. apply lookup_lt_Some in Hj. lia.
  - apply Nat.eqb_neq in Hnz.
    destruct h as [|j h']; [done|].
    assert (j ∈ j :: h') as Hj by left.
    assert (j < length hosts)%nat as Hjn.
    { rewrite Hperm in Hj. apply elem_of_seq in Hj. lia. }
    destruct (lookup_lt_is_Some_2 hosts j Hjn) as [a Ha].
    exfalso. apply (Hpop j (NewBackend a) Hj); [|done].
    by rewrite list_lookup_fmap, Ha.
Qed.

Lemma Rebuild_calls_grow (hosts : list string) (nows : list Time) :
  hosts ≠ [] →
  let b := foldl (λ b now, (Rebuild.GetNextServer now b).2)
                 (Rebuild.NewAdvancedLoadBalancer hosts) nows in
  adv_backends b = NewBackend <$> hosts
  ∧ handles_valid (NewBackend <$> hosts) (adv_heap b)
  ∧ length (adv_heap b)
    = (length hosts + length nows * (length hosts - 1))%nat.
Proof.
  intros Hne. induction nows as [|now nows IH] using rev_ind.
  - cbn [foldl length]. destruct (Rebuild_New_heap hosts) as (Hperm & Hv & _).
    split_and!; [done..|]. rewrite Hperm, length_seq. lia.
  - rewrite foldl_app. cbn [foldl]. cbn zeta in IH.
    destruct (foldl _ _ nows) as [bs h]. cbn [adv_backends adv_heap] in IH.
    destruct IH as (-> & Hv & Hlen).
    assert (0 < length hosts)%nat as Hn by (destruct hosts; [done|cbn; lia]).
    destruct (Rebuild_GetNextServer_flagged now (NewBackend <$> hosts) h)
      as (x & h' & h3 & -> & Hp1 & Hp3).
    + apply NewBackend_flagged.
    + done.
    + intros ->. cbn [length] in Hlen. nia.
    + cbn [snd adv_backends adv_heap]. split_and!; [done| |].
      * unfold handles_valid. rewrite Hp3. apply Forall_app. split.
        -- unfold handles_valid in Hv. rewrite Hp1 in Hv.
           by apply Forall_cons in Hv as [_ Hv].
        -- apply seq_handles_valid.
      * rewrite Hp3, length_app, length_seq, length_fmap.
        apply Permutation_length in Hp1. cbn in Hp1.
        rewrite length_app. cbn [length]. nia.
Qed.

(** X18: in the rebuilding revision every selection pops one handle and
    then pushes all [n] backends again: after [k] selections on a new
    balancer the heap holds [n + k * (n - 1)] handles, so with two backends
    or more it grows with every call and holds some handle more than
    once. *)
Theorem Rebuild_heap_grows (hosts : list string) (nows : list Time) :
  hosts ≠ [] →
  let b := foldl (λ b now, (Rebuild.GetNextServer now b).2)
                 (Rebuild.NewAdvancedLoadBalancer hosts) nows in
  length (adv_backends b) = length hosts
  ∧ length (adv_heap b)
    = (length hosts + length nows * (length hosts - 1))%nat
  ∧ ((2 ≤ length hosts)%nat → nows ≠ [] → ¬ NoDup (adv_heap b)).
Proof.
  intros Hne b. destruct (Rebuild_calls_grow hosts nows Hne) as (Hbs & Hv & Hlen).
  fold b in Hbs, Hv, Hlen. split_and!.
  - by rewrite Hbs, length_fmap.
  - done.
  - intros Hn Hk Hnd.
    assert (adv_heap b ⊆+ seq 0 (length hosts)) as Hsub.
    { apply NoDup_submseteq; [done|]. intros i Hi. apply elem_of_seq.
      unfold handles_valid in Hv. rewrite Forall_forall in Hv.
      specialize (Hv i Hi). rewrite length_fmap in Hv. lia. }
    apply submseteq_length in Hsub. rewrite length_seq, Hlen in Hsub.
    destruct nows; [done|]. cbn [length] in Hsub. nia.
Qed.

(** X18 on three backends: seven handles after two selections. *)
Lemma Rebuild_heap_grows_witness :
  length (adv_heap
            (foldl (λ b now, (Rebuild.GetNextServer now b).2)
               (Rebuild.NewAdvancedLoadBalancer ["a"; "b"; "c"]%string)
               [1; 2])) = 7%nat.
Proof.
  exact (proj1 (proj2 (Rebuild_heap_grows ["a"; "b"; "c"]%string [1; 2]
                         ltac:(discriminate)))).
Defined.

Lemma Rebuild_GetNextServer_Forall (P : BackendImpl → Prop) now b :
  (∀ be, P be → P (BackendImpl_IsHealthy now be).2) →
  Forall P (adv_backends b) →
  Forall P (adv_backends (Rebuild.GetNextServer now b).2)
  ∧ ∀ i, (Rebuild.GetNextServer now b).1 = Some i →
      ∃ be, adv_backends (Rebuild.GetNextServer now b).2 !! i = Some be
            ∧ healthy be = 1.
Proof.
  intros HP Hall. unfold Rebuild.GetNextServer.
  assert (Forall P (if (backendHeap_Len (adv_heap b) =? 0)%nat
                    then refill now (adv_backends b) (adv_heap b)
                    else (adv_backends b, adv_heap b)).1) as H1.
  { destruct (backendHeap_Len (adv_heap b) =? 0)%nat; [|done].
    by apply refill_Forall. }
  destruct (if (backendHeap_Len (adv_heap b) =? 0)%nat then _ else _)
    as [bs1 h1]. cbn [fst] in H1.
  destruct (backendHeap_Len h1 =? 0)%nat; [done|].
  destruct (pop_healthy_Forall P (backendHeap_Len h1) now bs1 h1 HP H1)
    as [H2 H3].
  destruct (pop_healthy _ _ _ _) as [sel [bs2 h2]]. cbn [fst snd] in *.
  pose proof (refill_Forall P now bs2 h2 HP H2) as H4.
  pose proof (refill_keeps now bs2 h2) as H5.
  destruct (refill now bs2 h2) as [bs3 h3]. cbn [fst snd adv_backends] in *.
  split; [done|]. intros i Hi. destruct (H3 i Hi) as (be & Hbe & Hfl).
  exists be. split; [|done]. apply H5; [done|].
  by rewrite IsHealthy_flagged.
Qed.

Lemma Rebuild_Invoke_count_bounded o now now' b :
  Forall (count_bounded 3) (adv_backends b) →
  Forall (count_bounded 3) (adv_backends (Rebuild.Invoke o now now' b).2).
Proof.
  intros Hall. unfold Rebuild.Invoke.
  destruct (Rebuild_GetNextServer_Forall (count_bounded 3) now b)
    as [H1 H2]; [apply IsHealthy_count_bounded|done|].
  destruct (Rebuild.GetNextServer now b) as [[i|] b1]; [|done].
  cbn [fst snd] in *. destruct (H2 i eq_refl) as (be & Hbe & Hfl).
  rewrite Hbe.
  pose proof (inter_settle_count_bounded o now' be Hfl
                (Forall_lookup_1 _ _ _ _ H1 Hbe)) as Hs.
  destruct (BackendImpl_Invoke o now' be) as [r be']. cbn [fst snd] in *.
  by apply Forall_insert.
Qed.

Lemma BackendImpl_Invoke_not_Panic o now be :
  (BackendImpl_Invoke o now be).1 ≠ Panic.
Proof.
  rewrite Invoke_unfold. cbn [fst].
  destruct o as [e|e|code]; cbn; [done|done|]. by case_match.
Qed.

(** X19: the rebuilding revision counts a failed call once: used by one
    goroutine, it keeps the health flag of every backend in step with the
    failure count, flag set with a count of 0, 1 or 2, or flag clear with
    a count of exactly 3; and its [Invoke] never indexes out of range. *)
Theorem Rebuild_flag_matches_count (hosts : list string)
    (ops : list Rebuild.Op) :
  let b := foldl (λ b op, Rebuild.apply_op op b)
                 (Rebuild.NewAdvancedLoadBalancer hosts) ops in
  Forall (λ be, (healthy be = 1 ∧ 0 ≤ failureCount be < 3)
                ∨ (healthy be = 0 ∧ failureCount be = 3))
    (adv_backends b)
  ∧ ∀ o now now', (Rebuild.Invoke o now now' b).1 ≠ Panic.
Proof.
  intros b. split.
  - eapply Forall_impl with (P := count_bounded 3).
    2:{ unfold count_bounded, maxFailureCount. intros be. lia. }
    unfold b. clear b. induction ops as [|op ops IH] using rev_ind.
    + cbn. apply Forall_fmap, Forall_true. intros a. left.
      unfold maxFailureCount. cbn. lia.
    + rewrite foldl_app. cbn [foldl]. destruct op as [o now now'|now]; cbn.
      * by apply Rebuild_Invoke_count_bounded.
      * apply Rebuild_GetNextServer_Forall; [|done].
        apply IsHealthy_count_bounded.
  - intros o now now'. clearbody b. unfold Rebuild.Invoke.
    destruct (Rebuild_GetNextServer_Forall (λ _, True) now b) as [_ H2];
      [done|by apply Forall_true|].
    destruct (Rebuild.GetNextServer now b) as [[i|] b1]; [|done].
    destruct (H2 i eq_refl) as (be & Hbe & _). cbn [snd] in Hbe. rewrite Hbe.
    pose proof (BackendImpl_Invoke_not_Panic o now' be) as Hnp.
    by destruct (BackendImpl_Invoke o now' be).
Qed.

(** ** Goroutines and the load counter *)

Lemma handles_valid_Push (bs bs' : list BackendImpl) (h : backendHeap) (i : nat) :
  handles_valid bs h → (i < length bs)%nat → handles_valid bs (heap_Push bs' h i).
Proof.
  intros Hv Hi. unfold handles_valid. rewrite heap_Push_Permutation.
  by apply Forall_cons.
Qed.

Lemma refill_step_valid now st i :
  handles_valid st.1 st.2 →
  length (refill_step now st i).1 = length st.1
  ∧ handles_valid (refill_step now st i).1 (refill_step now st i).2.
Proof.
  destruct st as [bs h]. cbn [fst snd]. intros Hv. unfold refill_step.
  destruct (bs !! i) as [be|] eqn:Hbe; [|done].
  destruct (BackendImpl_IsHealthy now be) as [ok be'].
  assert (handles_valid (<[i := be']> bs) h) as Hv'.
  { eapply handles_valid_ext; [|exact Hv]. by rewrite length_insert. }
  destruct ok; cbn [fst snd]; rewrite length_insert; split; try done.
  apply handles_valid_Push; [done|]. rewrite length_insert.
  by eapply lookup_lt_Some.
Qed.

Lemma refill_fold_valid now (l : list nat) st :
  handles_valid st.1 st.2 →
  length (foldl (refill_step now) st l).1 = length st.1
  ∧ handles_valid (foldl (refill_step now) st l).1
      (foldl (refill_step now) st l).2.
Proof.
  revert st. induction l as [|i l IH]; intros st Hv; [done|].
  cbn [foldl]. destruct (refill_step_valid now st i Hv) as [Hl Hv'].
  destruct (IH _ Hv') as [Hl2 Hv2]. split; [congruence|done].
Qed.

Lemma refill_valid now bs h :
  handles_valid bs h →
  length (refill now bs h).1 = length bs
  ∧ handles_valid (refill now bs h).1 (refill now bs h).2.
Proof. intros Hv. by apply (refill_fold_valid now _ (bs, h)). Qed.

Lemma pop_healthy_valid fuel now (bs : list BackendImpl) (h : backendHeap) :
  handles_valid bs h →
  length (pop_healthy fuel now bs h).2.1 = length bs
  ∧ handles_valid (pop_healthy fuel now bs h).2.1 (pop_healthy fuel now bs h).2.2
  ∧ ∀ i, (pop_healthy fuel now bs h).1 = Some i → (i < length bs)%nat.
Proof.
  revert bs h. induction fuel as [|fuel IH]; intros bs h Hv; [done|].
  cbn [pop_healthy]. unfold backendHeap_Len.
  destruct (Nat.eqb_spec (length h) 0) as [Hz|Hnz]; [done|].
  destruct (heap_Pop_Permutation bs h) as (x & h' & -> & Hperm).
  { by destruct h. }
  assert (x < length bs ∧ handles_valid bs h')%nat as [Hx Hv'].
  { unfold handles_valid in *. rewrite Hperm in Hv.
    by apply Forall_cons in Hv. }
  destruct (lookup_lt_is_Some_2 bs x Hx) as [be Hbe]. rewrite Hbe.
  destruct (BackendImpl_IsHealthy now be) as [ok be'].
  assert (handles_valid (<[x := be']> bs) h') as Hv''.
  { eapply handles_valid_ext; [|exact Hv']. by rewrite length_insert. }
  destruct ok.
  - cbn [fst snd]. rewrite length_insert. split_and!; [done..|].
    by intros i [= <-].
  - destruct (IH _ _ Hv'') as (Hl & Hv3 & Hsel).
    rewrite length_insert in Hl, Hsel. done.
Qed.

Lemma AdvancedBalancer_GetNextServer_valid now (b : AdvancedBalancer) :
  handles_valid (adv_backends b) (adv_heap b) →
  length (adv_backends (AdvancedBalancer_GetNextServer now b).2)
  = length (adv_backends b)
  ∧ handles_valid (adv_backends (AdvancedBalancer_GetNextServer now b).2)
      (adv_heap (AdvancedBalancer_GetNextServer now b).2)
  ∧ ∀ i, (AdvancedBalancer_GetNextServer now b).1 = Some i →
      (i < length (adv_backends b))%nat.
Proof.
  intros Hv. unfold AdvancedBalancer_GetNextServer.
  assert (length (if (backendHeap_Len (adv_heap b) =? 0)%nat
                  then refill now (adv_backends b) (adv_heap b)
                  else (adv_backends b, adv_heap b)).1 = length (adv_backends b)
          ∧ handles_valid
              (if (backendHeap_Len (adv_heap b) =? 0)%nat
               then refill now (adv_backends b) (adv_heap b)
               else (adv_backends b, adv_heap b)).1
              (if (backendHeap_Len (adv_heap b) =? 0)%nat
               then refill now (adv_backends b) (adv_heap b)
               else (adv_backends b, adv_heap b)).2) as [Hl1 Hv1].
  { destruct (backendHeap_Len (adv_heap b) =? 0)%nat; [|done].
    by apply refill_valid. }
  destruct (if (backendHeap_Len (adv_heap b) =? 0)%nat then _ else _)
    as [bs1 h1]. cbn [fst snd] in *.
  destruct (backendHeap_Len h1 =? 0)%nat; [done|].
  destruct (pop_healthy_valid (backendHeap_Len h1) now bs1 h1 Hv1)
    as (Hl2 & Hv2 & Hsel).
  destruct (pop_healthy _ _ _ _) as [sel [bs2 h2]]. cbn [fst snd adv_backends adv_heap] in *.
  split_and!; [congruence|done|]. intros i Hi. rewrite <- Hl1. by apply Hsel.
Qed.

Lemma AdvancedBalancer_settle_valid i r (b : AdvancedBalancer) :
  (i < length (adv_backends b))%nat →
  handles_valid (adv_backends b) (adv_heap b) →
  length (adv_backends (AdvancedBalancer_settle i r b).2) = length (adv_backends b)
  ∧ handles_valid (adv_backends (AdvancedBalancer_settle i r b).2)
      (adv_heap (AdvancedBalancer_settle i r b).2).
Proof.
  intros Hi Hv. unfold AdvancedBalancer_settle.
  destruct r as [resp|e|]; cbn [snd adv_backends adv_heap].
  - split; [done|]. by apply handles_valid_Push.
  - destruct (adv_backends b !! i) as [be|]; [|done].
    destruct (_ >=? _); cbn [snd adv_backends adv_heap]; rewrite length_insert;
      (split; [done|]).
    + eapply handles_valid_ext; [|exact Hv]. by rewrite length_insert.
    + apply handles_valid_Push; [|by rewrite length_insert].
      eapply handles_valid_ext; [|exact Hv]. by rewrite length_insert.
  - split; [done|]. by apply handles_valid_Push.
Qed.

Lemma sweep_step_valid now st i :
  handles_valid st.1 st.2 →
  length (sweep_step now st i).1 = length st.1
  ∧ handles_valid (sweep_step now st i).1 (sweep_step now st i).2
  ∧ loads (sweep_step now st i).1 = loads st.1.
Proof.
  destruct st as [bs h]. cbn [fst snd]. intros Hv. unfold sweep_step.
  destruct (bs !! i) as [be|] eqn:Hbe; [|done].
  pose proof (IsHealthy_load now be) as Hld1.
  destruct (BackendImpl_IsHealthy now be) as [ok1 be1]. cbn [snd] in Hld1.
  assert (∀ be', handles_valid (<[i := be']> bs) h) as Hv'.
  { intros be'. eapply handles_valid_ext; [|exact Hv]. by rewrite length_insert. }
  destruct ok1; cbn [negb fst snd].
  2:{ rewrite length_insert. split_and!; [done..|]. by eapply loads_insert. }
  pose proof (IsHealthy_load now be1) as Hld2.
  destruct (BackendImpl_IsHealthy now be1) as [ok2 be2]. cbn [snd] in Hld2.
  assert (loads (<[i := be2]> bs) = loads bs) as Hld.
  { eapply loads_insert; [done|]. congruence. }
  destruct ok2; [destruct (negb _)|]; cbn [fst snd]; rewrite length_insert;
    split_and!; try done.
  apply handles_valid_Push; [done|]. rewrite length_insert.
  by eapply lookup_lt_Some.
Qed.

Lemma sweep_fold_valid now (l : list nat) st :
  handles_valid st.1 st.2 →
  length (foldl (sweep_step now) st l).1 = length st.1
  ∧ handles_valid (foldl (sweep_step now) st l).1 (foldl (sweep_step now) st l).2
  ∧ loads (foldl (sweep_step now) st l).1 = loads st.1.
Proof.
  revert st. induction l as [|i l IH]; intros st Hv; [done|].
  cbn [foldl]. destruct (sweep_step_valid now st i Hv) as (Hl & Hv' & Hld).
  destruct (IH _ Hv') as (Hl2 & Hv2 & Hld2).
  split_and!; [congruence|done|congruence].
Qed.

Lemma AdvancedBalancer_healthChecker_tick_valid now (b : AdvancedBalancer) :
  handles_valid (adv_backends b) (adv_heap b) →
  length (adv_backends (AdvancedBalancer_healthChecker_tick now b))
  = length (adv_backends b)
  ∧ handles_valid (adv_backends (AdvancedBalancer_healthChecker_tick now b))
      (adv_heap (AdvancedBalancer_healthChecker_tick now b))
  ∧ loads (adv_backends (AdvancedBalancer_healthChecker_tick now b))
    = loads (adv_backends b).
Proof.
  intros Hv. unfold AdvancedBalancer_healthChecker_tick.
  pose proof (sweep_fold_valid now (seq 0 (length (adv_backends b)))
                (adv_backends b, adv_heap b) Hv) as H.
  by destruct (foldl _ _ _).
Qed.

Lemma in_flight_app i gs g :
  in_flight i (gs ++ [g])
  = (in_flight i gs + (if in_flight_on i g then 1 else 0))%nat.
Proof.
  unfold in_flight. rewrite List.filter_app, length_app. cbn.
  by destruct (in_flight_on i g).
Qed.

Lemma in_flight_insert i gs g s s' :
  gs !! g = Some s →
  (in_flight i (<[g := s']> gs) + (if in_flight_on i s then 1 else 0)
   = in_flight i gs + (if in_flight_on i s' then 1 else 0))%nat.
Proof.
  unfold in_flight. revert g. induction gs as [|x gs IH]; intros g Hg; [done|].
  destruct g as [|g]; simpl in Hg.
  - injection Hg as ->. simpl.
    destruct (in_flight_on i s), (in_flight_on i s'); simpl; lia.
  - specialize (IH g Hg).
    change (<[S g := s']> (x :: gs)) with (x :: <[g := s']> gs).
    simpl List.filter. destruct (in_flight_on i x); simpl length; lia.
Qed.

Lemma in_flight_le i gs : (in_flight i gs ≤ length gs)%nat.
Proof.
  unfold in_flight. induction gs as [|x gs IH]; cbn; [lia|].
  destruct (in_flight_on i x); cbn; lia.
Qed.

Lemma in_flight_pos i gs g s :
  gs !! g = Some s → in_flight_on i s = true → (0 < in_flight i gs)%nat.
Proof.
  unfold in_flight. revert g. induction gs as [|x gs IH]; intros g Hg Hs; [done|].
  destruct g as [|g]; cbn in Hg.
  - injection Hg as ->. cbn. rewrite Hs. cbn. lia.
  - specialize (IH g Hg Hs). cbn. destruct (in_flight_on i x); cbn; lia.
Qed.

Lemma loads_lookup (bs bs' : list BackendImpl) i be' :
  loads bs' = loads bs → bs' !! i = Some be' →
  ∃ be, bs !! i = Some be ∧ activeRequests be = activeRequests be'.
Proof.
  intros Hl Hi. assert (loads bs !! i = Some (activeRequests be')) as H.
  { rewrite <- Hl. unfold loads. by rewrite list_lookup_fmap, Hi. }
  unfold loads in H. rewrite list_lookup_fmap in H.
  destruct (bs !! i) as [be|]; [|done]. injection H as H. by exists be.
Qed.

Lemma loads_length (bs bs' : list BackendImpl) :
  loads bs' = loads bs → length bs' = length bs.
Proof.
  intros H. apply (f_equal length) in H. unfold loads in H.
  by rewrite !length_fmap in H.
Qed.

(** One atomic part of a call on handle [i], by the goroutine at [g], that
    changes the load of the backend by [d] and the calls in flight
    alike. *)
Lemma pool_invariant_update (b : AdvancedBalancer) gs g i s s'
    (f : BackendImpl → BackendImpl) (d : Z) :
  pool_invariant (mkPool b gs) → gs !! g = Some s →
  goroutine_handle s = Some i → goroutine_handle s' = Some i →
  (∀ be, adv_backends b !! i = Some be →
     activeRequests (f be) = activeRequests be + d) →
  (∀ j, j ≠ i → in_flight_on j s = false ∧ in_flight_on j s' = false) →
  Z.of_nat (if in_flight_on i s' then 1 else 0)
  = Z.of_nat (if in_flight_on i s then 1 else 0) + d →
  pool_invariant (mkPool (with_backend i f b) (<[g := s']> gs)).
Proof.
  intros (Hv & Hg & Hld) Hs Hh Hh' Hf Hother Hd. cbn [pool_balancer pool_goroutines] in *.
  assert (length (adv_backends (with_backend i f b)) = length (adv_backends b))
    as Hlen.
  { unfold with_backend. destruct (adv_backends b !! i); [|done].
    cbn. by rewrite length_insert. }
  assert (adv_heap (with_backend i f b) = adv_heap b) as Hheap.
  { unfold with_backend. by destruct (adv_backends b !! i). }
  split_and!; cbn [pool_balancer pool_goroutines].
  - rewrite Hheap. eapply handles_valid_ext; [|exact Hv]. done.
  - rewrite Hlen. apply Forall_insert; [done|]. intros k Hk.
    assert (k = i) as -> by congruence.
    by apply (Forall_lookup_1 _ _ _ _ Hg Hs).
  - intros j be' Hj. pose proof (in_flight_insert j gs g s s' Hs) as Hin.
    unfold with_backend in Hj.
    destruct (adv_backends b !! i) as [be|] eqn:Hbe; cbn [adv_backends] in Hj.
    + destruct (decide (j = i)) as [->|Hne].
      * rewrite list_lookup_insert_eq in Hj by by eapply lookup_lt_Some.
        injection Hj as <-. unfold BackendImpl_GetLoad in *.
        rewrite (Hf be eq_refl), (Hld i be Hbe). lia.
      * rewrite list_lookup_insert_ne in Hj by done.
        destruct (Hother j Hne) as [E1 E2]. rewrite E1, E2 in Hin.
        rewrite (Hld j be' Hj). lia.
    + destruct (decide (j = i)) as [->|Hne]; [congruence|].
      destruct (Hother j Hne) as [E1 E2]. rewrite E1, E2 in Hin.
      rewrite (Hld j be' Hj). lia.
Qed.

Lemma pool_step_invariant (s : PoolStep) (p p' : Pool) :
  pool_invariant p →
  Z.of_nat (length (pool_goroutines p)) < 2 ^ 63 - 1 →
  pool_step s p = Some p' →
  pool_invariant p'
  ∧ (length (pool_goroutines p') ≤ length (pool_goroutines p) + 1)%nat.
Proof.
  destruct p as [b gs]. intros Hinv Hbound Hstep.
  pose proof Hinv as (Hv & Hg & Hld). cbn [pool_balancer pool_goroutines] in *.
  unfold BackendImpl_GetLoad in Hld.
  assert (∀ i be, adv_backends b !! i = Some be →
            0 ≤ activeRequests be < 2 ^ 63 - 1) as Hrange.
  { intros i be Hbe. rewrite (Hld i be Hbe).
    pose proof (in_flight_le i gs). lia. }
  destruct s as [now|g|g o now|g|g|now]; cbn [pool_step pool_balancer pool_goroutines] in Hstep.
  - (* StepSelect *)
    destruct (AdvancedBalancer_GetNextServer_valid now b Hv) as (Hl1 & Hv1 & Hsel).
    pose proof (AdvancedBalancer_GetNextServer_loads now b) as Hloads.
    destruct (AdvancedBalancer_GetNextServer now b) as [sel b1].
    cbn [fst snd] in *. injection Hstep as <-.
    cbn [pool_balancer pool_goroutines]. rewrite length_app. cbn [length].
    split; [|lia]. split_and!; cbn [pool_balancer pool_goroutines].
    + done.
    + rewrite Hl1. apply Forall_app. split; [done|]. apply Forall_singleton.
      intros i Hi. destruct sel as [k|]; [|done]. injection Hi as <-.
      by apply Hsel.
    + intros j be' Hj.
      destruct (loads_lookup _ _ _ _ Hloads Hj) as (be & Hbe & Hbe').
      unfold BackendImpl_GetLoad. rewrite <- Hbe', (Hld j be Hbe), in_flight_app.
      destruct sel; cbn [in_flight_on]; f_equal; lia.
  - (* StepEnter *)
    destruct (gs !! g) as [[i| | | |]|] eqn:Hs; try done. injection Hstep as <-.
    cbn [pool_goroutines]. rewrite length_insert. split; [|lia].
    apply (pool_invariant_update b gs g i (GSelected i) (GEntered i)
             BackendImpl_Invoke_enter 1); try done.
    + intros be Hbe. cbn. apply int64_small. specialize (Hrange i be Hbe). lia.
    + intros j Hne. cbn. split; [done|]. by apply bool_decide_eq_false.
    + cbn. by rewrite bool_decide_eq_true_2.
  - (* StepExchange *)
    destruct (gs !! g) as [[|i| | |]|] eqn:Hs; try done.
    destruct (adv_backends b !! i) as [be|] eqn:Hbe; [|done].
    destruct (BackendImpl_Invoke_call o now be) as [r be'] eqn:Hcall.
    injection Hstep as <-.
    cbn [pool_goroutines]. rewrite length_insert. split; [|lia].
    replace {| adv_backends := <[i := be']> (adv_backends b);
               adv_heap := adv_heap b |}
      with (with_backend i (λ be, (BackendImpl_Invoke_call o now be).2) b).
    2:{ unfold with_backend. by rewrite Hbe, Hcall. }
    apply (pool_invariant_update b gs g i (GEntered i) (GAnswered i r) _ 0);
      try done.
    + intros be0 _. rewrite Invoke_call_load. lia.
    + intros j Hne. cbn. split; by apply bool_decide_eq_false.
    + cbn. lia.
  - (* StepLeave *)
    destruct (gs !! g) as [[| |i r| |]|] eqn:Hs; try done. injection Hstep as <-.
    cbn [pool_goroutines]. rewrite length_insert. split; [|lia].
    apply (pool_invariant_update b gs g i (GAnswered i r) (GReturned i r)
             BackendImpl_Invoke_leave (-1)); try done.
    + intros be Hbe. cbn. apply int64_small. specialize (Hrange i be Hbe). lia.
    + intros j Hne. cbn. split; [|done]. by apply bool_decide_eq_false.
    + cbn. by rewrite bool_decide_eq_true_2.
  - (* StepSettle *)
    destruct (gs !! g) as [[| | |i r|]|] eqn:Hs; try done.
    assert (i < length (adv_backends b))%nat as Hi.
    { by apply (Forall_lookup_1 _ _ _ _ Hg Hs). }
    destruct (AdvancedBalancer_settle_valid i r b Hi Hv) as [Hl1 Hv1].
    pose proof (AdvancedBalancer_settle_loads i r b) as Hloads.
    destruct (AdvancedBalancer_settle i r b) as [r' b1]. cbn [fst snd] in *.
    injection Hstep as <-.
    cbn [pool_goroutines]. rewrite length_insert. split; [|lia].
    split_and!; cbn [pool_balancer pool_goroutines].
    + done.
    + rewrite Hl1. by apply Forall_insert.
    + intros j be' Hj.
      destruct (loads_lookup _ _ _ _ Hloads Hj) as (be & Hbe & Hbe').
      unfold BackendImpl_GetLoad. rewrite <- Hbe', (Hld j be Hbe).
      pose proof (in_flight_insert j gs g (GReturned i r) (GDone r') Hs) as Hin.
      cbn in Hin. f_equal. lia.
  - (* StepSweep *)
    destruct (AdvancedBalancer_healthChecker_tick_valid now b Hv)
      as (Hl1 & Hv1 & Hloads).
    injection Hstep as <-. cbn [pool_balancer pool_goroutines].
    split; [|lia]. split_and!; cbn [pool_balancer pool_goroutines].
    + done.
    + by rewrite Hl1.
    + intros j be' Hj.
      destruct (loads_lookup _ _ _ _ Hloads Hj) as (be & Hbe & Hbe').
      unfold BackendImpl_GetLoad. by rewrite <- Hbe', (Hld j be Hbe).
Qed.

Lemma pool_run_invariant (steps : list PoolStep) (p p' : Pool) :
  pool_invariant p →
  Z.of_nat (length (pool_goroutines p) + length steps) < 2 ^ 63 →
  pool_run steps p = Some p' →
  pool_invariant p'.
Proof.
  revert p. induction steps as [|s steps IH]; intros p Hinv Hbound Hrun.
  { cbn in Hrun. by injection Hrun as <-. }
  cbn [pool_run] in Hrun. cbn [length] in Hbound.
  destruct (pool_step s p) as [p1|] eqn:Hstep; [|done].
  destruct (pool_step_invariant s p p1 Hinv) as [Hinv1 Hlen]; [lia|done|].
  apply (IH p1); [done|lia|done].
Qed.

Lemma NewAdvancedLoadBalancer_pool_invariant now hosts :
  pool_invariant (mkPool (NewAdvancedLoadBalancer now hosts) []).
Proof.
  split_and!; cbn [pool_balancer pool_goroutines].
  - apply NewAdvancedLoadBalancer_invariant.
  - constructor.
  - intros i be Hbe.
    assert (Forall (λ be, activeRequests be = 0)
              (adv_backends (NewAdvancedLoadBalancer now hosts))) as Hall.
    { apply NewAdvancedLoadBalancer_Forall. intros a.
      by rewrite IsHealthy_load. }
    unfold BackendImpl_GetLoad.
    by rewrite (Forall_lookup_1 _ _ _ _ Hall Hbe).
Qed.

(** X20: however the goroutines in [AdvancedBalancer.Invoke], the direct
    callers of [GetNextServer] and the ticks of [healthChecker] interleave,
    the load of every backend is the number of calls that have incremented
    it and not yet decremented it, and every handle in the priority
    structure or held by a goroutine points to a backend of the
    balancer. *)
Theorem pool_load_counts_calls_in_flight (now : Time) (hosts : list string)
    (steps : list PoolStep) (p : Pool) :
  pool_run steps (mkPool (NewAdvancedLoadBalancer now hosts) []) = Some p →
  Z.of_nat (length steps) < 2 ^ 63 →
  handles_valid (adv_backends (pool_balancer p)) (adv_heap (pool_balancer p))
  ∧ Forall (λ g, ∀ i, goroutine_handle g = Some i →
                 (i < length (adv_backends (pool_balancer p)))%nat)
      (pool_goroutines p)
  ∧ ∀ i be, adv_backends (pool_balancer p) !! i = Some be →
      BackendImpl_GetLoad be = Z.of_nat (in_flight i (pool_goroutines p))
      ∧ 0 ≤ BackendImpl_GetLoad be ≤ Z.of_nat (length (pool_goroutines p)).
Proof.
  intros Hrun Hlen.
  destruct (pool_run_invariant steps _ p
              (NewAdvancedLoadBalancer_pool_invariant now hosts))
    as (Hv & Hg & Hld); [cbn; lia|done|].
  split_and!; [done..|]. intros i be Hbe. rewrite (Hld i be Hbe).
  pose proof (in_flight_le i (pool_goroutines p)). lia.
Qed.

(** X20 after two goroutines have selected and entered their backends. *)
Lemma pool_load_counts_calls_in_flight_witness :
  BackendImpl_GetLoad (mkBackend "b" 0 0 1 1)
  = Z.of_nat (in_flight 1 [GEntered 0; GEntered 1])
  ∧ 0 ≤ BackendImpl_GetLoad (mkBackend "b" 0 0 1 1) ≤ 2.
Proof.
  exact (proj2 (proj2
           (pool_load_counts_calls_in_flight 0 ["a"; "b"]%string
              [StepSelect 1; StepSelect 1; StepEnter 0; StepEnter 1]
              _ eq_refl ltac:(simpl; lia)))
           1%nat (mkBackend "b" 0 0 1 1) eq_refl).
Defined.

(** ** What [Invoke] and [healthChecker] do to the priority structure *)

(** X21: [AdvancedBalancer.Invoke] gives the handle its selection popped
    back to the priority structure unless it has just marked the backend
    unhealthy: after the call the flag of the selected backend is set and
    the structure holds what the selection left plus that handle, or the
    flag is clear, the failure count has reached the threshold and the
    structure is as the selection left it. *)
Theorem AdvancedBalancer_Invoke_returns_handle (o : Outcome) (now now' : Time)
    (b b1 : AdvancedBalancer) (i : nat) :
  AdvancedBalancer_GetNextServer now b = (Some i, b1) →
  let b' := (AdvancedBalancer_Invoke o now now' b).2 in
  ∃ be', adv_backends b' !! i = Some be'
         ∧ ((healthy be' = 1 ∧ adv_heap b' ≡ₚ i :: adv_heap b1)
            ∨ (healthy be' = 0 ∧ maxFailureCount ≤ failureCount be'
               ∧ adv_heap b' = adv_heap b1)).
Proof.
  intros Hsel b'.
  destruct (AdvancedBalancer_GetNextServer_Forall (λ _, True) now b)
    as [_ Hflag]; [done|by apply Forall_true|].
  rewrite Hsel in Hflag. cbn [fst snd] in Hflag.
  destruct (Hflag i eq_refl) as (be & Hbe & Hfl).
  unfold b'. rewrite (AdvancedBalancer_Invoke_unfold o now now' b i b1 be Hsel Hbe).
  pose proof (Invoke_flag o now' be) as Hh.
  destruct (BackendImpl_Invoke o now' be) as [r be1]. cbn [fst snd] in *.
  assert (<[i := be1]> (adv_backends b1) !! i = Some be1) as Hi.
  { apply list_lookup_insert_eq. by eapply lookup_lt_Some. }
  unfold AdvancedBalancer_settle. cbn [adv_backends adv_heap].
  destruct r as [resp|e|].
  - cbn [snd adv_backends adv_heap]. exists be1. split; [done|]. left.
    split; [congruence|apply heap_Push_Permutation].
  - rewrite Hi. cbn [failureCount set_failureCount].
    destruct (Z.geb_spec (int32 (failureCount be1 + 1)) maxFailureCount)
      as [Hge|Hlt]; cbn [snd adv_backends adv_heap];
      rewrite list_insert_insert_eq.
    + eexists. split.
      { apply list_lookup_insert_eq. by eapply lookup_lt_Some. }
      right. by cbn.
    + eexists. split.
      { apply list_lookup_insert_eq. by eapply lookup_lt_Some. }
      left. cbn. split; [congruence|apply heap_Push_Permutation].
  - cbn [snd adv_backends adv_heap]. exists be1. split; [done|]. left.
    split; [congruence|apply heap_Push_Permutation].
Qed.

(** X21 on a call whose failure takes the count of the selected backend
    past the threshold. *)
Lemma AdvancedBalancer_Invoke_returns_handle_witness :
  ∃ be', adv_backends
           (AdvancedBalancer_Invoke (DoError "refused") 5 6
              (mkAdvanced [mkBackend "a" 2 4 1 0; mkBackend "b" 0 0 1 0]
                          [0; 1]%nat)).2 !! 0%nat = Some be'
         ∧ ((healthy be' = 1
             ∧ adv_heap
                 (AdvancedBalancer_Invoke (DoError "refused") 5 6
                    (mkAdvanced [mkBackend "a" 2 4 1 0; mkBackend "b" 0 0 1 0]
                                [0; 1]%nat)).2
               ≡ₚ 0%nat :: [1%nat])
            ∨ (healthy be' = 0 ∧ maxFailureCount ≤ failureCount be'
               ∧ adv_heap
                   (AdvancedBalancer_Invoke (DoError "refused") 5 6
                      (mkAdvanced [mkBackend "a" 2 4 1 0; mkBackend "b" 0 0 1 0]
                                  [0; 1]%nat)).2
                 = [1%nat])).
Proof.
  exact (AdvancedBalancer_Invoke_returns_handle (DoError "refused") 5 6
           (mkAdvanced [mkBackend "a" 2 4 1 0; mkBackend "b" 0 0 1 0] [0; 1]%nat)
           (mkAdvanced [mkBackend "a" 2 4 1 0; mkBackend "b" 0 0 1 0] [1%nat])
           0 eq_refl).
Defined.

(** The state of the loop of [healthChecker] after it has gone through the
    first [k] backends of [bs], the heap having been [h] before. *)
Lemma sweep_fold_spec now (bs : list BackendImpl) (h : backendHeap) (m k : nat)
    (st : list BackendImpl * backendHeap) :
  (k + m = length bs)%nat →
  length st.1 = length bs →
  (∀ j, st.1 !! j =
        if decide (j < k)%nat
        then (λ be, (BackendImpl_IsHealthy now be).2) <$> bs !! j
        else bs !! j) →
  (∀ j, j ∈ st.2 ↔
        j ∈ h ∨ ((j < k)%nat ∧ ∃ be, bs !! j = Some be ∧ accepts now be)) →
  let st' := foldl (sweep_step now) st (seq k m) in
  (∀ j, st'.1 !! j = (λ be, (BackendImpl_IsHealthy now be).2) <$> bs !! j)
  ∧ (∀ j, j ∈ st'.2 ↔ j ∈ h ∨ ∃ be, bs !! j = Some be ∧ accepts now be).
Proof.
  revert k st. induction m as [|m IH]; intros k st Hkm Hlen Hbs Hmem.
  { cbn. split.
    - intros j. rewrite Hbs. case_decide; [done|].
      rewrite lookup_ge_None_2 by lia. done.
    - intros j. rewrite Hmem. split.
      + intros [?|[_ ?]]; [by left|by right].
      + intros [?|(be & Hbe & Hacc)]; [by left|]. right.
        split; [|by exists be]. apply lookup_lt_Some in Hbe. lia. }
  cbn [seq foldl]. apply IH; try lia.
  - destruct st as [bs0 h0]. unfold sweep_step. cbn [fst] in *.
    destruct (bs0 !! k); [|done].
    destruct (BackendImpl_IsHealthy now b) as [ok1 be1].
    destruct ok1; cbn [negb fst]; [|by rewrite length_insert].
    destruct (BackendImpl_IsHealthy now be1) as [ok2 be2].
    destruct ok2; [destruct (negb _)|]; cbn [fst]; by rewrite length_insert.
  - intros j. destruct st as [bs0 h0]. cbn [fst snd] in *.
    assert (bs0 !! k = bs !! k) as Hk.
    { rewrite Hbs. case_decide; [lia|done]. }
    destruct (lookup_lt_is_Some_2 bs k) as [be Hbe]; [lia|].
    unfold sweep_step. rewrite Hk, Hbe.
    pose proof (IsHealthy_twice now be) as Htw.
    destruct (BackendImpl_IsHealthy now be) as [ok1 be1] eqn:Hih.
    cbn [fst snd] in Htw.
    set (st' := if negb ok1 then _ else _).
    assert (st'.1 = <[k := be1]> bs0) as ->.
    { unfold st'. destruct ok1; cbn [negb]; [|done]. rewrite Htw. cbn zeta.
      destruct (bool_decide (k ∈ h0)); reflexivity. }
    destruct (decide (j = k)) as [->|Hne].
    + rewrite list_lookup_insert_eq by lia. rewrite decide_True by lia.
      rewrite Hbe. cbn. by rewrite Hih.
    + rewrite list_lookup_insert_ne by done. rewrite Hbs.
      repeat case_decide; (done || lia).
  - intros j. destruct st as [bs0 h0]. cbn [fst snd] in *.
    assert (bs0 !! k = bs !! k) as Hk.
    { rewrite Hbs. case_decide; [lia|done]. }
    destruct (lookup_lt_is_Some_2 bs k) as [be Hbe]; [lia|].
    unfold sweep_step. rewrite Hk, Hbe.
    pose proof (IsHealthy_twice now be) as Htw.
    assert (accepts now be ↔ (BackendImpl_IsHealthy now be).1 = true) as Hacc
      by done.
    destruct (BackendImpl_IsHealthy now be) as [ok1 be1]. cbn [fst snd] in *.
    assert (∀ j, (j < S k)%nat ∧ (∃ be0, bs !! j = Some be0 ∧ accepts now be0)
                 ↔ ((j < k)%nat ∧ ∃ be0, bs !! j = Some be0 ∧ accepts now be0)
                   ∨ (j = k ∧ ok1 = true)) as Hsplit.
    { intros j'. split.
      - intros [Hj (be0 & Hbe0 & Ha)].
        destruct (decide (j' = k)) as [->|]; [|left; split; [lia|by exists be0]].
        right. split; [done|]. assert (be0 = be) as -> by congruence.
        by apply Hacc.
      - intros [[Hj H]|[-> Hok]]; [split; [lia|done]|].
        split; [lia|]. exists be. split; [done|]. by apply Hacc. }
    rewrite Hsplit. destruct ok1; cbn [negb snd].
    + rewrite Htw. destruct (bool_decide_reflect (k ∈ h0)) as [Hin|Hnin];
        cbn [negb snd].
      * rewrite Hmem. split; [tauto|].
        intros [?|[?|[-> _]]]; [tauto|tauto|by apply Hmem].
      * rewrite heap_Push_Permutation, elem_of_cons, Hmem.
        split; [intros [->|[?|?]]|intros [?|[?|[-> _]]]]; tauto.
    + rewrite Hmem. split; [tauto|]. intros [?|[?|[_ ?]]]; [tauto|tauto|done].
Qed.

(** X22: one tick of [healthChecker] asks every backend [IsHealthy] and
    leaves it as that call left it; it removes no handle from the priority
    structure, and afterwards the structure holds a handle exactly when it
    held it before or [IsHealthy] answered true for its backend. *)
Theorem healthChecker_tick_readmits (now : Time) (b : AdvancedBalancer) :
  let b' := AdvancedBalancer_healthChecker_tick now b in
  adv_backends b'
  = (λ be, (BackendImpl_IsHealthy now be).2) <$> adv_backends b
  ∧ ∀ j, j ∈ adv_heap b' ↔
         j ∈ adv_heap b
         ∨ ∃ be, adv_backends b !! j = Some be ∧ accepts now be.
Proof.
  intros b'. unfold b', AdvancedBalancer_healthChecker_tick.
  destruct (sweep_fold_spec now (adv_backends b) (adv_heap b)
              (length (adv_backends b)) 0 (adv_backends b, adv_heap b))
    as [Hbs Hmem]; cbn [fst snd]; try done.
  { intros j. split; [by left|]. intros [?|[? _]]; [done|lia]. }
  destruct (foldl _ _ _) as [bs' h']. cbn [fst snd adv_backends adv_heap] in *.
  split; [|done]. apply list_eq. intros j. by rewrite Hbs, list_lookup_fmap.
Qed.

(** X23: a selection that finds the priority structure empty asks every
    backend [IsHealthy] and loses none of those that answered true: the
    backend it returns and the handles it leaves in the structure are
    exactly those backends, each once; it returns nil only when there is
    none. *)
Theorem AdvancedBalancer_GetNextServer_refills (now : Time)
    (b : AdvancedBalancer) :
  adv_heap b = [] →
  let r := AdvancedBalancer_GetNextServer now b in
  adv_backends r.2
  = (λ be, (BackendImpl_IsHealthy now be).2) <$> adv_backends b
  ∧ NoDup (adv_heap r.2)
  ∧ match r.1 with
    | Some i =>
        (i ∉ adv_heap r.2)
        ∧ ∀ j, j ∈ i :: adv_heap r.2 ↔
               ∃ be, adv_backends b !! j = Some be ∧ accepts now be
    | None =>
        adv_heap r.2 = []
        ∧ Forall (λ be, ¬ accepts now be) (adv_backends b)
    end.
Proof.
  destruct b as [bs h]. cbn [adv_heap adv_backends]. intros ->. cbn zeta.
  unfold AdvancedBalancer_GetNextServer. cbn [adv_heap adv_backends].
  change (backendHeap_Len [] =? 0)%nat with true. cbn match.
  destruct (refill_spec now bs) as (Hbs & Hv & Ho & Hmem & Hnd).
  destruct (refill now bs []) as [bs1 h1]. cbn [fst snd] in *.
  unfold backendHeap_Len. destruct (Nat.eqb_spec (length h1) 0) as [Hz|Hnz].
  { cbn [fst snd adv_backends adv_heap].
    apply length_zero_iff_nil in Hz as ->. split_and!; [done..|].
    apply Forall_lookup. intros j be Hj Hacc.
    assert (j ∈ ([] : list nat)) as Hin by (apply Hmem; by exists be).
    by apply elem_of_nil in Hin. }
  destruct (length h1) as [|fuel] eqn:Hlen; [done|].
  cbn [pop_healthy]. unfold backendHeap_Len. rewrite Hlen. cbn [Nat.eqb].
  destruct (heap_Pop_Permutation bs1 h1) as (x & h' & -> & Hperm).
  { by intros ->. }
  assert (x ∈ h1) as Hx by (rewrite Hperm; left).
  apply Hmem in Hx as (be & Hbe & Hacc).
  rewrite Hbs, list_lookup_fmap, Hbe. cbn [fmap option_fmap option_map].
  rewrite IsHealthy_twice. unfold accepts in Hacc. rewrite Hacc.
  cbn [fst snd adv_backends adv_heap].
  rewrite Hperm in Hnd. apply NoDup_cons in Hnd as [Hnin Hnd'].
  split_and!; try done.
  - apply list_insert_id. by rewrite list_lookup_fmap, Hbe.
  - intros j. rewrite <- Hperm. apply Hmem.
Qed.

(** X23 on three backends of which one is still cooling down. *)
Lemma AdvancedBalancer_GetNextServer_refills_witness :
  NoDup
    (adv_heap
       (AdvancedBalancer_GetNextServer 3000000000
          (mkAdvanced [mkBackend "a" 0 0 1 0; mkBackend "b" 3 2000000000 0 0;
                       mkBackend "c" 3 500000000 0 0] [])).2).
Proof.
  exact (proj1 (proj2
           (AdvancedBalancer_GetNextServer_refills 3000000000
              (mkAdvanced [mkBackend "a" 0 0 1 0; mkBackend "b" 3 2000000000 0 0;
                           mkBackend "c" 3 500000000 0 0] [])
              eq_refl))).
Defined.

(** ** The sentinel error *)

(** X24: [Invoke] returns an error that is, or wraps, the sentinel
    [ErrBackendServersEmpty] exactly when its selection returned nil: no
    failure of a backend is ever reported as that sentinel, by any of the
    three balancers. *)
Theorem ErrBackendServersEmpty_iff_no_selection :
  (∀ o now b e,
     (BasicBalancer_Invoke o now b).1 = Err e →
     (ErrBackendServersEmpty ∈ error_chain e
      ↔ (BasicBalancer_GetNextServer b).1 = None))
  ∧ (∀ o now now' b e,
       (IntermediateBalancer_Invoke o now now' b).1 = Err e →
       (ErrBackendServersEmpty ∈ error_chain e
        ↔ (IntermediateBalancer_GetNextServer now b).1 = None))
  ∧ (∀ o now now' b e,
       (AdvancedBalancer_Invoke o now now' b).1 = Err e →
       (ErrBackendServersEmpty ∈ error_chain e
        ↔ (AdvancedBalancer_GetNextServer now b).1 = None)).
Proof.
  assert (∀ o now be e, (BackendImpl_Invoke o now be).1 = Err e →
            ErrBackendServersEmpty ∉ error_chain e) as Hbackend.
  { intros o now be e He. destruct (Invoke_error o now be e He) as (-> & _ & Hne).
    intros H%list_elem_of_singleton. by subst. }
  split_and!.
  - intros o now b e. unfold BasicBalancer_Invoke.
    destruct (BasicBalancer_GetNextServer b) as [[i|] b1]; cbn [fst].
    + destruct (basic_backends b1 !! i) as [be|]; [|done].
      pose proof (Hbackend o now be) as Hb.
      destruct (BackendImpl_Invoke o now be) as [r be']. cbn [fst] in *.
      intros ->. split; [by intros ?%Hb|done].
    + intros [= <-]. split; [done|]. intros _. cbn. left.
  - intros o now now' b e. unfold IntermediateBalancer_Invoke.
    destruct (IntermediateBalancer_GetNextServer now b) as [[i|] b1]; cbn [fst].
    + destruct (inter_backends b1 !! i) as [be|]; [|done].
      pose proof (Hbackend o now' be) as Hb.
      destruct (BackendImpl_Invoke o now' be) as [r be']. cbn [fst] in *.
      intros ->. split; [by intros ?%Hb|done].
    + intros [= <-]. split; [done|]. intros _. cbn. left.
  - intros o now now' b e. unfold AdvancedBalancer_Invoke.
    destruct (AdvancedBalancer_GetNextServer now b) as [[i|] b1]; cbn [fst].
    + unfold AdvancedBalancer_call.
      destruct (adv_backends b1 !! i) as [be|] eqn:Hbe.
      * pose proof (Hbackend o now' be) as Hb.
        destruct (BackendImpl_Invoke o now' be) as [r be']. cbn [fst] in *.
        intros He. apply AdvancedBalancer_settle_error in He as (e0 & -> & ->).
        split; [|done]. cbn [error_chain]. intros Hin.
        apply elem_of_cons in Hin as [?|Hin]; [done|]. by apply Hb in Hin.
      * by cbn.
    + intros [= <-]. split; [done|]. intros _. cbn. left.
Qed.

(** X24 on a load-aware balancer without backends. *)
Lemma ErrBackendServersEmpty_iff_no_selection_witness :
  ErrBackendServersEmpty ∈ error_chain ErrBackendServersEmpty
  ↔ (AdvancedBalancer_GetNextServer 5 (mkAdvanced [] [])).1 = None.
Proof.
  exact (proj2 (proj2 ErrBackendServersEmpty_iff_no_selection)
           (DoStatus 200) 5 6 (mkAdvanced [] []) ErrBackendServersEmpty eq_refl).
Defined.

(** ** Direct selections on a new load-aware balancer *)

Lemma NewAdvancedLoadBalancer_fold now (hosts : list string) :
  ∃ h, foldl (new_advanced_step now) ([], heap_Init [] []) hosts
       = (NewBackend <$> hosts, h)
       ∧ h ≡ₚ seq 0 (length hosts).
Proof.
  induction hosts as [|a hosts IH] using rev_ind.
  { by exists []. }
  destruct IH as (h & Hfold & Hperm). rewrite foldl_app, Hfold. cbn [foldl].
  unfold new_advanced_step. rewrite IsHealthy_flagged by done.
  rewrite length_fmap, fmap_app. cbn [fmap list_fmap].
  eexists. split; [done|].
  rewrite heap_Push_Permutation, Hperm, length_app, seq_app. cbn.
  by rewrite Permutation_cons_append.
Qed.




(** ** Failures that leave no failure time *)

Lemma AdvancedBalancer_Invoke_Forall (P : BackendImpl → Prop) o now now' b :
  (∀ be, P be → P (BackendImpl_IsHealthy now be).2) →
  (∀ be, P be → P (BackendImpl_Invoke o now' be).2) →
  (∀ be n, P be → P (set_failureCount n be)) →
  (∀ be, P be → P (BackendImpl_MarkUnhealthy be)) →
  Forall P (adv_backends b) →
  Forall P (adv_backends (AdvancedBalancer_Invoke o now now' b).2).
Proof.
  intros HP1 HP2 HP3 HP4 Hall.
  destruct (AdvancedBalancer_GetNextServer_Forall P now b HP1 Hall) as [H1 H2].
  destruct (AdvancedBalancer_GetNextServer now b) as [[i|] b1] eqn:Hsel.
  2:{ unfold AdvancedBalancer_Invoke. by rewrite Hsel. }
  cbn [fst snd] in *. destruct (H2 i eq_refl) as (be & Hbe & _).
  rewrite (AdvancedBalancer_Invoke_unfold o now now' b i b1 be Hsel Hbe).
  pose proof (HP2 be (Forall_lookup_1 _ _ _ _ H1 Hbe)) as HPbe.
  destruct (BackendImpl_Invoke o now' be) as [r be']. cbn [fst snd] in *.
  assert (<[i := be']> (adv_backends b1) !! i = Some be') as Hi.
  { apply list_lookup_insert_eq. by eapply lookup_lt_Some. }
  unfold AdvancedBalancer_settle. cbn [adv_backends adv_heap].
  destruct r as [resp|e|]; [by apply Forall_insert| |by apply Forall_insert].
  rewrite Hi. destruct (_ >=? _); cbn [snd adv_backends];
    rewrite list_insert_insert_eq; apply Forall_insert; auto.
Qed.

Lemma Invoke_lastFailure o now be :
  exchange_failed o = false →
  lastFailure (BackendImpl_Invoke o now be).2 = lastFailure be.
Proof.
  intros Hf. rewrite Invoke_unfold. cbn [snd].
  unfold BackendImpl_Invoke_leave, BackendImpl_Invoke_enter.
  destruct o as [e|e|code]; cbn in *; [done|done|]. by rewrite Hf.
Qed.

Lemma IsHealthy_lastFailure now be :
  lastFailure (BackendImpl_IsHealthy now be).2 = lastFailure be.
Proof. unfold BackendImpl_IsHealthy. by repeat case_match. Qed.

Lemma never_failed_accepted now be :
  lastFailure be = 0 → coolDown < now → accepts now be.
Proof.
  intros Hlf Hnow. unfold accepts, BackendImpl_IsHealthy, time_Since, Time_Sub.
  rewrite Hlf. unfold coolDown, Second, minDuration, maxDuration in *.
  repeat case_match; try done; lia.
Qed.

Lemma AdvancedBalancer_GetNextServer_available now (b : AdvancedBalancer) :
  heap_invariant b → adv_backends b ≠ [] →
  Forall (accepts now) (adv_backends b) →
  (AdvancedBalancer_GetNextServer now b).1 ≠ None.
Proof.
  intros (Hv & Ho & _) Hne Hacc. destruct b as [bs h].
  cbn [adv_backends adv_heap] in *.
  unfold AdvancedBalancer_GetNextServer, backendHeap_Len.
  cbn [adv_backends adv_heap].
  assert (0 < length bs)%nat as Hn by (destruct bs; [done|cbn; lia]).
  destruct (lookup_lt_is_Some_2 bs 0 Hn) as [be0 Hbe0].
  destruct (Nat.eqb_spec (length h) 0) as [Hz|Hnz].
  - destruct (refill_spec now bs) as (Hbs & Hv1 & Ho1 & Hmem & _).
    apply length_zero_iff_nil in Hz as ->.
    destruct (refill now bs []) as [bs1 h1]. cbn [fst snd] in *.
    assert (0%nat ∈ h1) as H0.
    { apply Hmem. exists be0. split; [done|].
      exact (Forall_lookup_1 _ _ _ _ Hacc Hbe0). }
    destruct (Nat.eqb_spec (length h1) 0) as [Hz|Hnz].
    { apply length_zero_iff_nil in Hz as ->. by apply elem_of_nil in H0. }
    pose proof (pop_healthy_spec (length h1) now bs1 h1 Hv1 Ho1 (le_n _)) as Hs.
    destruct (pop_healthy _ _ _ _) as [[i|] [bs2 h2]]; [done|].
    cbn [fst] in *. exfalso.
    apply (Hs 0%nat (BackendImpl_IsHealthy now be0).2 H0).
    + by rewrite Hbs, list_lookup_fmap, Hbe0.
    + apply IsHealthy_accepted_again.
      exact (Forall_lookup_1 _ _ _ _ Hacc Hbe0).
  - rewrite <- Nat.eqb_neq in Hnz. rewrite Hnz.
    pose proof (pop_healthy_spec (length h) now bs h Hv Ho (le_n _)) as Hs.
    destruct (pop_healthy _ _ _ _) as [[i|] [bs2 h2]]; [done|].
    cbn [fst] in *. exfalso.
    destruct h as [|j h']; [done|].
    assert (j ∈ j :: h') as Hj by left.
    assert (j < length bs)%nat as Hjn.
    { unfold handles_valid in Hv. rewrite Forall_forall in Hv. by apply Hv. }
    destruct (lookup_lt_is_Some_2 bs j Hjn) as [be Hbe].
    apply (Hs j be Hj Hbe). exact (Forall_lookup_1 _ _ _ _ Hacc Hbe).
Qed.

Lemma sequential_length (t : Time) (hosts : list string) (ops : list AdvancedOp) :
  length (adv_backends (foldl (λ b op, AdvancedBalancer_apply op b)
                              (NewAdvancedLoadBalancer t hosts) ops))
  = length hosts.
Proof.
  induction ops as [|op ops IH] using rev_ind.
  - cbn [foldl]. unfold NewAdvancedLoadBalancer.
    destruct (NewAdvancedLoadBalancer_fold t hosts) as (h & -> & _).
    cbn. by rewrite length_fmap.
  - rewrite foldl_app. cbn [foldl]. rewrite <- IH.
    pose proof (heap_invariant_sequential t hosts ops) as (Hv & _ & Hl).
    destruct op as [o s s'|s|s]; cbn [AdvancedBalancer_apply].
    + apply loads_length. by apply AdvancedBalancer_Invoke_loads.
    + apply loads_length. apply AdvancedBalancer_GetNextServer_loads.
    + by apply AdvancedBalancer_healthChecker_tick_valid.
Qed.

(** X26: failures that leave no failure time.  Take a run of the
    load-aware balancer whose operations do not overlap and in which no
    exchange fails: calls succeed, or fail while the request is built.
    [lastFailure] of every backend stays at Go's zero time, so at every
    clock reading later than the cool-down after that time [IsHealthy]
    answers true for every backend.  [AdvancedBalancer.Invoke] does mark a
    backend unhealthy after three failures of the request and keeps its
    handle out of the priority structure, where no selection finds it; but
    the mark does not outlast the next [IsHealthy]: the next tick of
    [healthChecker] leaves every backend in the structure, and
    [GetNextServer] returns some backend. *)
Theorem request_errors_record_no_failure_time (t : Time)
    (hosts : list string) (ops : list AdvancedOp) (now : Time) :
  hosts ≠ [] →
  Forall (λ op, op_exchange_failed op = false) ops →
  coolDown < now →
  let b := foldl (λ b op, AdvancedBalancer_apply op b)
                 (NewAdvancedLoadBalancer t hosts) ops in
  Forall (λ be, lastFailure be = 0 ∧ accepts now be) (adv_backends b)
  ∧ (AdvancedBalancer_GetNextServer now b).1 ≠ None
  ∧ ∀ j, (j < length hosts)%nat →
         j ∈ adv_heap (AdvancedBalancer_healthChecker_tick now b).
Proof.
  intros Hne Hops Hnow b.
  assert (Forall (λ be, lastFailure be = 0) (adv_backends b)) as Hlf.
  { unfold b. clear b. induction ops as [|op ops IH] using rev_ind.
    - cbn [foldl]. apply NewAdvancedLoadBalancer_Forall. intros a.
      by rewrite IsHealthy_lastFailure.
    - apply Forall_app in Hops as [Hops Hop]. apply Forall_inv in Hop.
      specialize (IH Hops). rewrite foldl_app. cbn [foldl].
      destruct op as [o s s'|s|s]; cbn [AdvancedBalancer_apply].
      + apply AdvancedBalancer_Invoke_Forall; try done.
        * intros be. by rewrite IsHealthy_lastFailure.
        * intros be. by rewrite Invoke_lastFailure by exact Hop.
      + apply AdvancedBalancer_GetNextServer_Forall; [|done].
        intros be. by rewrite IsHealthy_lastFailure.
      + apply AdvancedBalancer_healthChecker_tick_Forall; [|done].
        intros be. by rewrite IsHealthy_lastFailure. }
  assert (Forall (accepts now) (adv_backends b)) as Hacc.
  { eapply Forall_impl; [exact Hlf|]. intros be Hbe.
    by apply never_failed_accepted. }
  assert (length (adv_backends b) = length hosts) as Hlen
    by apply sequential_length.
  split_and!.
  - apply Forall_and. done.
  - apply AdvancedBalancer_GetNextServer_available; [| |done].
    + apply heap_invariant_sequential.
    + intros Hnil. apply Hne, length_zero_iff_nil.
      rewrite <- Hlen. by rewrite Hnil.
  - intros j Hj. clearbody b. unfold AdvancedBalancer_healthChecker_tick.
    destruct (sweep_fold_spec now (adv_backends b) (adv_heap b)
                (length (adv_backends b)) 0 (adv_backends b, adv_heap b))
      as [_ Hmem]; cbn [fst snd]; try done.
    { intros j'. split; [by left|]. intros [?|[? _]]; [done|lia]. }
    destruct (foldl _ _ _) as [bs' h']. cbn [snd adv_heap] in *.
    apply Hmem. right.
    destruct (lookup_lt_is_Some_2 (adv_backends b) j) as [be Hbe]; [lia|].
    exists be. split; [done|]. exact (Forall_lookup_1 _ _ _ _ Hacc Hbe).
Qed.

(** X26 after three calls that failed while the request was built: the
    backend is marked unhealthy and out of the structure, and the next
    selection returns it all the same. *)
Lemma request_errors_record_no_failure_time_witness :
  (AdvancedBalancer_GetNextServer 5000000000
     (foldl (λ b op, AdvancedBalancer_apply op b)
        (NewAdvancedLoadBalancer 1 ["a"]%string)
        [OpInvoke (RequestError "bad host") 4000000000 4000000001;
         OpInvoke (RequestError "bad host") 4000000002 4000000003;
         OpInvoke (RequestError "bad host") 4000000004 4000000005])).1 ≠ None.
Proof.
  refine (proj1 (proj2
            (request_errors_record_no_failure_time 1 ["a"]%string
               [OpInvoke (RequestError "bad host") 4000000000 4000000001;
                OpInvoke (RequestError "bad host") 4000000002 4000000003;
                OpInvoke (RequestError "bad host") 4000000004 4000000005]
               5000000000 _ _ _))).
  - discriminate.
  - repeat constructor.
  - reflexivity.
Defined.
